(** * spotify-api.js: a shallow embedding of the manager layer

    The development follows the sources:
    - [JS]        the fragment of JavaScript values the managers handle
                  (JSON values, truthiness, own properties, spread, split);
    - [Eff]       computations over a state that may throw;
    - [Managers]  [PlaylistManager] (both versions found in the sources),
                  over a client with a [cache.playlists] map;
    - [Legacy]    [lib/Artist.ts] and, of [dist/Client.js], the constructor,
                  [login] and [getByURI];
    - [LegacyClient]  [search] and [request] of [dist/Client.js];
    - [Library]   what holds across the managers;
    - [Demo]      a concrete client on which the embedding runs.

    The HTTP layer ([fetch]), the shared [handleError], the entity
    constructors and [UserClient] live in files that are not part of the
    sources; they are parameters of the sections below. *)

From Stdlib Require Import ZArith List String Ascii Lia.
From stdpp Require Import base option list strings gmap pretty.

Local Open Scope string_scope.
Local Open Scope list_scope.
Set Warnings "-register-all".

(* ===================================================================== *)
(** ** JavaScript values *)
(* ===================================================================== *)

Module JS.

(** JSON-shaped values.  Numbers that occur in the sources are counts and
    indices, hence [Z].  An object is its list of own properties in
    insertion order (JavaScript lists integer-like keys first; nothing
    below depends on where such a key stands). *)
Inductive value : Type :=
| VUndefined
| VNull
| VBool (b : bool)
| VNum (n : Z)
| VStr (s : string)
| VArr (xs : list value)
| VObj (props : list (string * value)).

Definition props := list (string * value).

(** Whatever can be thrown or be the reason of a rejected promise.
    [MissingParamError] and [UnexpectedError] are the two classes of the
    library's [Error] module; [Thrown] is any other value, in particular
    what the HTTP layer rejects with. *)
Inductive error : Type :=
| Thrown (v : value)
| TypeError
| MissingParamError (msg : string)
| UnexpectedError (cause : error).

(** The result of evaluating something that may throw.  For an [async]
    method, [Ret] is the value its promise resolves with and [Exn] the
    reason it rejects with. *)
Inductive res (A : Type) : Type :=
| Ret (a : A)
| Exn (e : error).
Arguments Ret {A} a.
Arguments Exn {A} e.

(** [ToBoolean]. *)
Definition truthy (v : value) : bool :=
  match v with
  | VUndefined | VNull => false
  | VBool b => b
  | VNum n => negb (n =? 0)%Z
  | VStr s => match s with EmptyString => false | String _ _ => true end
  | VArr _ | VObj _ => true
  end.

(** A default parameter value applies when the argument is [undefined]. *)
Definition default_arg (d v : value) : value :=
  match v with VUndefined => d | _ => v end.

Definition is_null (v : value) : bool :=
  match v with VNull => true | _ => false end.

(** [a || b] on values. *)
Definition or_else (a b : value) : value := if truthy a then a else b.

(** Own-property lookup, [o[k] = v], [delete o[k]]. *)
Fixpoint lookup_prop (k : string) (ps : props) : option value :=
  match ps with
  | [] => None
  | (k', v) :: ps' => if String.eqb k k' then Some v else lookup_prop k ps'
  end.

Fixpoint set_prop (k : string) (v : value) (ps : props) : props :=
  match ps with
  | [] => [(k, v)]
  | (k', v') :: ps' =>
      if String.eqb k k' then (k, v) :: ps' else (k', v') :: set_prop k v ps'
  end.

Fixpoint delete_prop (k : string) (ps : props) : props :=
  match ps with
  | [] => []
  | (k', v') :: ps' =>
      if String.eqb k k' then delete_prop k ps' else (k', v') :: delete_prop k ps'
  end.

Definition keys (ps : props) : list string := map fst ps.

(** The characters of a string, each as a string of its own. *)
Fixpoint chars (s : string) : list value :=
  match s with
  | EmptyString => []
  | String c rest => VStr (String c EmptyString) :: chars rest
  end.

(** The elements of an array or a string under their indices ['0'], ['1'],
    and so on. *)
Definition indexed (xs : list value) : props :=
  imap (fun i x => (pretty i, x)) xs.

(** The own enumerable properties of a value: those of an object, the
    indexed elements of an array, the indexed characters of a string;
    [undefined], [null], booleans and numbers have none. *)
Definition own_props (v : value) : props :=
  match v with
  | VObj ps => ps
  | VArr xs => indexed xs
  | VStr s => indexed (chars s)
  | _ => []
  end.

(** [{...into, ...v}]: the own properties of [v] are copied over [into]. *)
Definition spread (v : value) (into : props) : props :=
  fold_left (fun acc kv => set_prop (fst kv) (snd kv) acc) (own_props v) into.

(** [v.k] for a property name other than [length]: reading a property of
    [undefined] or [null] throws, a missing property is [undefined]. *)
Definition member (v : value) (k : string) : res value :=
  match v with
  | VUndefined | VNull => Exn TypeError
  | VObj ps => Ret (default VUndefined (lookup_prop k ps))
  | _ => Ret VUndefined
  end.

(** [v.k] where [v] is known not to be [undefined] or [null]. *)
Definition field (v : value) (k : string) : value :=
  match member v k with
  | Ret x => x
  | Exn _ => VUndefined
  end.

(** The receiver of [.map(f)]: only an array has a callable [map]. *)
Definition as_array (v : value) : res (list value) :=
  match v with
  | VArr xs => Ret xs
  | _ => Exn TypeError
  end.

(** [xs.join(sep)] for an array of strings. *)
Definition join (sep : string) (xs : list string) : string :=
  String.concat sep xs.

(** [s.split(c)] for a one-character separator. *)
Fixpoint split (sep : ascii) (s : string) : list string :=
  match s with
  | EmptyString => [EmptyString]
  | String c rest =>
      if Ascii.eqb c sep then EmptyString :: split sep rest
      else match split sep rest with
           | h :: t => String c h :: t
           | [] => [String c EmptyString]
           end
  end.

(** [xs[i]] on an array of strings. *)
Definition index (xs : list string) (i : nat) : value :=
  match nth_error xs i with
  | Some s => VStr s
  | None => VUndefined
  end.

(** [String(v)], and with it [v.join(',')] of an array: [undefined] and
    [null] elements count as empty strings, nested arrays are joined by
    commas. *)
Fixpoint to_string (v : value) : string :=
  match v with
  | VUndefined => "undefined"
  | VNull => "null"
  | VBool b => if b then "true" else "false"
  | VNum n => pretty n
  | VStr s => s
  | VArr xs =>
      join ","
        ((fix elements (l : list value) : list string :=
            match l with
            | [] => []
            | x :: rest =>
                match x with
                | VUndefined | VNull => ""
                | _ => to_string x
                end :: elements rest
            end) xs)
  | VObj _ => "[object Object]"
  end.

(** [v.join(',')]: only an array has a callable [join]. *)
Definition join_of (v : value) : res string :=
  match v with
  | VArr _ => Ret (to_string v)
  | _ => Exn TypeError
  end.

(** Whether [v.k = x] can create a property: in strict code only on an
    object. *)
Definition is_object (v : value) : bool :=
  match v with
  | VArr _ | VObj _ => true
  | _ => false
  end.

(** *** Facts about own properties *)

Lemma join_of_strings names :
  join_of (VArr (map VStr names)) = Ret (join "," names).
Proof.
  cbn. f_equal. f_equal. induction names as [|n names IH]; cbn; [reflexivity|].
  now rewrite IH.
Qed.

Lemma member_field v k x k' : member v k = Ret x -> member v k' = Ret (field v k').
Proof. unfold field. destruct v; simpl; intros H; try discriminate; reflexivity. Qed.

Lemma lookup_set_eq k v ps : lookup_prop k (set_prop k v ps) = Some v.
Proof.
  induction ps as [|[k' v'] ps IH]; simpl.
  - now rewrite String.eqb_refl.
  - destruct (String.eqb k k') eqn:E; simpl; rewrite ?String.eqb_refl, ?E; auto.
Qed.

Lemma lookup_set_ne k k' v ps :
  k <> k' -> lookup_prop k' (set_prop k v ps) = lookup_prop k' ps.
Proof.
  intros Hne. induction ps as [|[k2 v2] ps IH]; simpl.
  - destruct (String.eqb k' k) eqn:E; auto.
    apply String.eqb_eq in E. congruence.
  - destruct (String.eqb k k2) eqn:E; simpl.
    + apply String.eqb_eq in E. subst k2.
      destruct (String.eqb k' k) eqn:E'; auto.
      apply String.eqb_eq in E'. congruence.
    + now rewrite IH.
Qed.

Lemma lookup_delete_eq k ps : lookup_prop k (delete_prop k ps) = None.
Proof.
  induction ps as [|[k' v'] ps IH]; simpl; auto.
  destruct (String.eqb k k') eqn:E; simpl; rewrite ?E; auto.
Qed.

Lemma lookup_delete_ne k k' ps :
  k <> k' -> lookup_prop k' (delete_prop k ps) = lookup_prop k' ps.
Proof.
  intros Hne. induction ps as [|[k2 v2] ps IH]; simpl; auto.
  destruct (String.eqb k k2) eqn:E; simpl.
  - apply String.eqb_eq in E. subst k2.
    destruct (String.eqb k' k) eqn:E'; auto.
    apply String.eqb_eq in E'. congruence.
  - now rewrite IH.
Qed.

Lemma lookup_fold_set_ne k (ps acc : props) :
  lookup_prop k ps = None ->
  lookup_prop k (fold_left (fun a kv => set_prop (fst kv) (snd kv) a) ps acc)
  = lookup_prop k acc.
Proof.
  revert acc. induction ps as [|[k' v'] ps IH]; simpl; intros acc H; auto.
  destruct (String.eqb k k') eqn:E; [discriminate|].
  rewrite IH by assumption. apply lookup_set_ne.
  intros ->. now rewrite String.eqb_refl in E.
Qed.

End JS.

(* ===================================================================== *)
(** ** State and exceptions *)
(* ===================================================================== *)

Module Eff.
Import JS.

Section Eff.
Context {S : Type}.

(** A computation over a state [S] that may throw; a throw keeps the state
    reached so far. *)
Definition M (A : Type) : Type := S -> res A * S.

Definition ret {A} (a : A) : M A := fun c => (Ret a, c).
Definition lift {A} (r : res A) : M A := fun c => (r, c).

Definition bind {A B} (m : M A) (k : A -> M B) : M B :=
  fun c => match m c with
           | (Ret a, c') => k a c'
           | (Exn e, c') => (Exn e, c')
           end.

(** [try { m } catch (e) { h e }]. *)
Definition try_catch {A} (m : M A) (h : error -> M A) : M A :=
  fun c => match m c with
           | (Ret a, c') => (Ret a, c')
           | (Exn e, c') => h e c'
           end.

Fixpoint mapM {A B} (f : A -> M B) (xs : list A) : M (list B) :=
  match xs with
  | [] => ret []
  | x :: xs' => bind (f x) (fun y => bind (mapM f xs') (fun ys => ret (y :: ys)))
  end.

Fixpoint forM_ {A} (xs : list A) (f : A -> M unit) : M unit :=
  match xs with
  | [] => ret tt
  | x :: xs' => bind (f x) (fun _ => forM_ xs' f)
  end.

(** [sat m c Q]: running [m] from [c] ends with an outcome and a state
    that satisfy [Q]. *)
Definition sat {A} (m : M A) (c : S) (Q : res A -> S -> Prop) : Prop :=
  Q (fst (m c)) (snd (m c)).

Lemma sat_ret {A} (a : A) c (Q : res A -> S -> Prop) :
  Q (Ret a) c -> sat (ret a) c Q.
Proof. exact (fun H => H). Qed.

Lemma sat_lift {A} (r : res A) c (Q : res A -> S -> Prop) :
  Q r c -> sat (lift r) c Q.
Proof. exact (fun H => H). Qed.

Lemma sat_bind {A B} (m : M A) (k : A -> M B) c (Q : res B -> S -> Prop) :
  sat m c (fun r c1 => match r with
                       | Ret a => sat (k a) c1 Q
                       | Exn e => Q (Exn e) c1
                       end) ->
  sat (bind m k) c Q.
Proof. unfold sat, bind. destruct (m c) as [[a|e] c1]; auto. Qed.

Lemma sat_try {A} (m : M A) (h : error -> M A) c (Q : res A -> S -> Prop) :
  sat m c (fun r c1 => match r with
                       | Ret a => Q (Ret a) c1
                       | Exn e => sat (h e) c1 Q
                       end) ->
  sat (try_catch m h) c Q.
Proof. unfold sat, try_catch. destruct (m c) as [[a|e] c1]; auto. Qed.

Lemma sat_mono {A} (m : M A) c (Q Q' : res A -> S -> Prop) :
  sat m c Q -> (forall r c', Q r c' -> Q' r c') -> sat m c Q'.
Proof. unfold sat. auto. Qed.

End Eff.

Module Notations.
Notation "x <- m ;; k" := (bind m (fun x => k))
  (at level 100, m at next level, right associativity).
Notation "m ;;; k" := (bind m (fun _ => k))
  (at level 100, right associativity).
End Notations.

End Eff.

(* ===================================================================== *)
(** ** The manager layer: [PlaylistManager] *)
(* ===================================================================== *)

Module Managers.
Import JS Eff Eff.Notations.

(** What [BaseManager.fetch(path, options)] is called with. *)
Record request : Type := Request { path : string; options : value }.

(** A reference to an entity object: its position in allocation order. *)
Abbreviation ref := nat (only parsing).

(** What an [async] method hands back: a plain JSON value, one entity, a
    paging object or a bare array of entities. *)
Inductive jsret (E : Type) : Type :=
| Plain (v : value)
| Entity (e : E)
| Paging (limit offset total : value) (items : list E)
| Items (items : list E).
Arguments Plain {E} v.
Arguments Entity {E} e.
Arguments Paging {E} limit offset total items.
Arguments Items {E} items.

(** The paging object [{limit: 0, offset: 0, total: 0, items: []}]. *)
Definition empty_paging {E} : jsret E := Paging (VNum 0) (VNum 0) (VNum 0) [].

(** Observable effects of a call, in order. *)
Inductive event : Type :=
| EvFetch (r : request)
| EvCacheSet (k : string) (r : ref).

Definition requests (l : list event) : list request :=
  omap (fun ev => match ev with EvFetch r => Some r | _ => None end) l.

Definition cache_writes (l : list event) : list (string * ref) :=
  omap (fun ev => match ev with EvCacheSet k r => Some (k, r) | _ => None end) l.

Section Managers.

(** [structures/Playlist], [Errors] and [BaseManager] are imported by the
    manager but are not part of the sources: the [Playlist] class with its
    constructor (which, like any constructor, may throw on a payload) and
    its [id] field, the [PlaylistTrack] factory and the shared [handleError]
    are parameters. *)
Variable Playlist : Type.
Variable Playlist_new : value -> res Playlist.
Variable Playlist_id : Playlist -> string.
Variable PlaylistTrackType : Type.
Variable PlaylistTrack : value -> PlaylistTrackType.
Variable handleError : error -> res value.

(** The part of the client a manager touches: [cacheOptions.cachePlaylists],
    [cache.playlists], the entity objects allocated so far, and the trace of
    effects. *)
Record client : Type := Client {
  cachePlaylists : bool;
  playlists : gmap string ref;
  heap : list Playlist;
  log : list event
}.

(** The manager's computations run over the client. *)
Abbreviation M := (@Eff.M client).

Definition log_event (ev : event) : M unit :=
  fun c => (Ret tt, Client (cachePlaylists c) (playlists c) (heap c) (log c ++ [ev])).

(** [this.client.cacheOptions.cachePlaylists] *)
Definition cache_enabled : M bool := fun c => (Ret (cachePlaylists c), c).

(** [this.client.cache.playlists.get(id)] *)
Definition cache_get (id : string) : M (option ref) :=
  fun c => (Ret (playlists c !! id), c).

(** [this.client.cache.playlists.set(k, p)] *)
Definition cache_set (k : string) (r : ref) : M unit :=
  fun c => (Ret tt,
            Client (cachePlaylists c) (<[k := r]> (playlists c)) (heap c)
                   (log c ++ [EvCacheSet k r])).

(** [new Playlist(data, this.client)]: a fresh object, unless the
    constructor throws. *)
Definition new_Playlist (data : value) : M ref :=
  fun c => match Playlist_new data with
           | Ret p => (Ret (length (heap c)),
                       Client (cachePlaylists c) (playlists c)
                              (heap c ++ [p]) (log c))
           | Exn e => (Exn e, c)
           end.

(** [p.id] through a reference. *)
Definition id_of (r : ref) : M string :=
  fun c => match heap c !! r with
           | Some p => (Ret (Playlist_id p), c)
           | None => (Exn TypeError, c)
           end.

Section Call.

(** The upstream's answer to the requests of one call. *)
Variable fetch : request -> res value.

(** [await this.fetch(path, options)] *)
Definition do_fetch (p : string) (o : value) : M value :=
  log_event (EvFetch (Request p o)) ;;; lift (fetch (Request p o)).

(** [handleError(e) || d] *)
Definition handle_or {E} (d : jsret E) (e : error) : M (jsret E) :=
  h <- lift (handleError e) ;; ret (if truthy h then Plain h else d).

(** *** The current [PlaylistManager] *)

Definition search (query : string) (opts : value) : M (jsret ref) :=
  try_catch
    (resp <- do_fetch "/search"
        (VObj [("params",
                VObj (set_prop "q" (VStr query)
                        (set_prop "type" (VStr "playlist") (spread opts []))))]) ;;
     data <- lift (member resp "playlists") ;;
     items <- lift (member data "items") ;;
     xs <- lift (as_array items) ;;
     ps <- mapM new_Playlist xs ;;
     enabled <- cache_enabled ;;
     (if enabled
      then forM_ ps (fun r => k <- id_of r ;; cache_set k r)
      else ret tt) ;;;
     limit <- lift (member data "limit") ;;
     offset <- lift (member data "offset") ;;
     total <- lift (member data "total") ;;
     ret (Paging limit offset total ps))
    (handle_or empty_paging).

Definition get (id : string) (force : option bool) (market : option string)
  : M (jsret ref) :=
  enabled0 <- cache_enabled ;;
  let force := default (negb enabled0) force in
  let market := default "US" market in
  existing <- (if negb force then cache_get id else ret None) ;;
  match existing with
  | Some r => ret (Entity r)
  | None =>
      try_catch
        (resp <- do_fetch ("/playlists/" +:+ id)
            (VObj [("params", VObj [("market", VStr market)])]) ;;
         r <- new_Playlist resp ;;
         enabled <- cache_enabled ;;
         (if enabled then k <- id_of r ;; cache_set k r else ret tt) ;;;
         ret (Entity r))
        (fun e => h <- lift (handleError e) ;; ret (Plain h))
  end.

Definition getTracks (id : string) (opts : value) : M (jsret PlaylistTrackType) :=
  let opts := default_arg (VObj [("market", VStr "US")]) opts in
  try_catch
    (data <- do_fetch ("/playlists/" +:+ id +:+ "/tracks")
        (VObj [("params", opts)]) ;;
     items <- lift (member data "items") ;;
     xs <- lift (as_array items) ;;
     let tracks := map PlaylistTrack xs in
     limit <- lift (member data "limit") ;;
     offset <- lift (member data "offset") ;;
     total <- lift (member data "total") ;;
     ret (Paging limit offset total tracks))
    (handle_or empty_paging).

Definition getImages (id : string) : M (jsret ref) :=
  try_catch
    (resp <- do_fetch ("/playlists/" +:+ id +:+ "/images") VUndefined ;;
     ret (Plain resp))
    (handle_or (Plain (VArr []))).

Definition userFollows (playlistID : string) (ids : list string) : M (jsret ref) :=
  try_catch
    (resp <- do_fetch ("/playlists/" +:+ playlistID +:+ "/followers/contains")
        (VObj [("params", VObj [("ids", VStr (join "," ids))])]) ;;
     ret (Plain resp))
    (handle_or (Plain (VArr []))).

(** *** The methods that forward to [UserClient] *)

(** [this.client.user], an instance of [UserClient], is not part of the
    sources; its five methods that the manager calls are a parameter, free
    to do to the client whatever they do. *)
Inductive user_method : Type :=
| followPlaylist | unfollowPlaylist | followsPlaylist
| createPlaylist | editPlaylist.

Variable UserClient : user_method -> list value -> M (jsret ref).

Definition follow (id : string) (opts : value) : M (jsret ref) :=
  UserClient followPlaylist [VStr id; opts].

Definition unfollow (id : string) : M (jsret ref) :=
  UserClient unfollowPlaylist [VStr id].

Definition follows (id : string) : M (jsret ref) :=
  UserClient followsPlaylist [VStr id].

Definition create (opts : value) : M (jsret ref) :=
  UserClient createPlaylist [opts].

Definition edit (id : string) (opts : value) : M (jsret ref) :=
  UserClient editPlaylist [VStr id; opts].

Definition addItems (id : string) (items : value) (opts : value)
  : M (jsret ref) :=
  try_catch
    (uris <- lift (join_of items) ;;
     resp <- do_fetch ("/playlists/" +:+ id +:+ "/tracks")
        (VObj [("method", VStr "POST");
               ("params",
                VObj (set_prop "uris" (VStr uris) (spread opts [])))]) ;;
     snapshot <- lift (member resp "snapshot_id") ;;
     ret (Plain snapshot))
    (handle_or (Plain VNull)).

(** [Object.keys(opts).forEach(x => !opts[x] ? delete opts[x] : null)] *)
Definition prune (ps : props) : props :=
  fold_left
    (fun acc k =>
       if truthy (default VUndefined (lookup_prop k acc)) then acc
       else delete_prop k acc)
    (keys ps) ps.

(** The [body] of the request of [reorderItems]. *)
Definition reorder_body (rangeStart insertBefore rangeLength snapshotID : value)
    (items : value) : value :=
  let opts := prune [("range_start", rangeStart);
                     ("insert_before", insertBefore);
                     ("range_length", rangeLength);
                     ("snapshot_id", snapshotID)] in
  VObj (set_prop "uris" items (spread (VObj opts) [])).

Definition reorderItems (id : string) (items : value) (opts : value)
  : M (jsret ref) :=
  let opts := default_arg (VObj []) opts in
  try_catch
    (rangeStart <- lift (member opts "rangeStart") ;;
     insertBefore <- lift (member opts "insertBefore") ;;
     rangeLength <- lift (member opts "rangeLength") ;;
     snapshotID <- lift (member opts "snapshotID") ;;
     resp <- do_fetch ("/playlists/" +:+ id +:+ "/tracks")
        (VObj [("method", VStr "PUT");
               ("headers", VObj [("Content-Type", VStr "application/json")]);
               ("body", reorder_body rangeStart insertBefore rangeLength
                          snapshotID items)]) ;;
     snapshot <- lift (member resp "snapshot_id") ;;
     ret (Plain snapshot))
    (handle_or (Plain VNull)).

(** The [body] of the request of [removeItems]. *)
Definition remove_body (snapshotID : value) (items : value) : value :=
  let opts := prune [("snapshot_id", snapshotID)] in
  VObj (set_prop "tracks" items (spread (VObj opts) [])).

Definition removeItems (id : string) (items : value) (snapshotID : value)
  : M (jsret ref) :=
  try_catch
    (resp <- do_fetch ("/playlists/" +:+ id +:+ "/tracks")
        (VObj [("method", VStr "DELETE");
               ("headers", VObj [("Content-Type", VStr "application/json")]);
               ("body", remove_body snapshotID items)]) ;;
     snapshot <- lift (member resp "snapshot_id") ;;
     ret (Plain snapshot))
    (handle_or (Plain VNull)).

Definition uploadImage (id : string) (image : string) : M (jsret ref) :=
  try_catch
    (do_fetch ("/playlists/" +:+ id +:+ "/images")
        (VObj [("method", VStr "PUT");
               ("headers", VObj [("Content-Type", VStr "image/jpeg")]);
               ("body", VStr image)]) ;;;
     ret (Plain (VBool true)))
    (handle_or (Plain (VBool false))).

(** *** The earlier [PlaylistManager] *)

Definition old_get (id : string) (force : option bool) (market : option string)
  : M (jsret ref) :=
  enabled0 <- cache_enabled ;;
  let force := default (negb enabled0) force in
  let market := default "US" market in
  existing <- (if negb force then cache_get id else ret None) ;;
  match existing with
  | Some r => ret (Entity r)
  | None =>
      try_catch
        (resp <- do_fetch ("/playlists/" +:+ id)
            (VObj [("params", VObj [("market", VStr market)])]) ;;
         r <- new_Playlist resp ;;
         enabled <- cache_enabled ;;
         (if enabled then k <- id_of r ;; cache_set k r else ret tt) ;;;
         ret (Entity r))
        (fun e => h <- lift (handleError e) ;; ret (Plain h))
  end.

Definition old_getTracks (id : string) (opts : value)
  : M (jsret PlaylistTrackType) :=
  let opts := default_arg (VObj [("market", VStr "US")]) opts in
  try_catch
    (resp <- do_fetch ("/playlists/" +:+ id +:+ "/tracks")
        (VObj [("params", opts)]) ;;
     items <- lift (member resp "items") ;;
     xs <- lift (as_array items) ;;
     ret (Items (map PlaylistTrack xs)))
    (handle_or (Items [])).

Definition old_getImages (id : string) : M (jsret ref) :=
  try_catch
    (resp <- do_fetch ("/playlists/" +:+ id +:+ "/images") VUndefined ;;
     ret (Plain resp))
    (handle_or (Plain (VArr []))).

End Call.

(** *** What a call does to the client *)

(** The client after some more effects were traced. *)
Definition traced (c : client) (evs : list event) : client :=
  Client (cachePlaylists c) (playlists c) (heap c) (log c ++ evs).

(** [playlists[i].id] then [cache.set] for the objects [ps] allocated from
    reference [r] on. *)
Fixpoint cache_from (r : ref) (ps : list Playlist) (m : gmap string ref)
  : gmap string ref :=
  match ps with
  | [] => m
  | p :: ps' => cache_from (S r) ps' (<[Playlist_id p := r]> m)
  end.

Fixpoint writes_from (r : ref) (ps : list Playlist) : list event :=
  match ps with
  | [] => []
  | p :: ps' => EvCacheSet (Playlist_id p) r :: writes_from (S r) ps'
  end.

(** [items.map(x => new Playlist(x, this.client))]: the objects built, in
    order, and what the constructor threw, if it did; the objects built
    before a throw exist, but the array that was to hold them is lost. *)
Fixpoint construct (xs : list value) : list Playlist * option error :=
  match xs with
  | [] => ([], None)
  | x :: xs' =>
      match Playlist_new x with
      | Exn e => ([], Some e)
      | Ret p => (p :: fst (construct xs'), snd (construct xs'))
      end
  end.

(** Every payload of [xs] makes a playlist, those of [ps] in order. *)
Definition constructs (xs : list value) (ps : list Playlist) : Prop :=
  Forall2 (fun x p => Playlist_new x = Ret p) xs ps.

(** [p] came out of the constructor. *)
Definition made (p : Playlist) : Prop := exists x, Playlist_new x = Ret p.

Lemma construct_all xs ps : constructs xs ps -> construct xs = (ps, None).
Proof.
  induction 1 as [|x p xs ps Hx _ IH]; cbn [construct]; [reflexivity|].
  now rewrite Hx, IH.
Qed.

Lemma construct_done xs :
  snd (construct xs) = None -> constructs xs (fst (construct xs)).
Proof.
  induction xs as [|x xs IH]; cbn [construct]; intros H; [constructor|].
  destruct (Playlist_new x) as [p|e] eqn:Hx; [|discriminate].
  cbn [fst snd] in *. constructor; [exact Hx|exact (IH H)].
Qed.

Lemma construct_made xs : Forall made (fst (construct xs)).
Proof.
  induction xs as [|x xs IH]; cbn [construct]; [constructor|].
  destruct (Playlist_new x) as [p|e] eqn:Hx; cbn [fst]; constructor; auto.
  now exists x.
Qed.

Lemma constructs_length xs ps : constructs xs ps -> length ps = length xs.
Proof. intros H. symmetry. exact (Forall2_length _ _ _ H). Qed.

Lemma mapM_new_Playlist xs c :
  mapM new_Playlist xs c
  = (match snd (construct xs) with
     | None => Ret (seq (length (heap c)) (length (fst (construct xs))))
     | Some e => Exn e
     end,
     Client (cachePlaylists c) (playlists c)
            (heap c ++ fst (construct xs)) (log c)).
Proof.
  revert c. induction xs as [|x xs IH]; intros c; cbn [mapM construct].
  - unfold ret. cbn. rewrite app_nil_r. now destruct c.
  - unfold bind at 1. unfold new_Playlist at 1.
    destruct (Playlist_new x) as [p|e]; cbn [fst snd].
    + unfold bind at 1. rewrite IH. cbn [heap log cachePlaylists playlists].
      rewrite length_app. cbn [length]. rewrite Nat.add_1_r, <- app_assoc.
      destruct (snd (construct xs)); reflexivity.
    + rewrite app_nil_r. now destruct c.
Qed.

Lemma forM_cache_set ps : forall r c,
  (forall i p, ps !! i = Some p -> heap c !! (r + i) = Some p) ->
  forM_ (seq r (length ps)) (fun x => bind (id_of x) (fun k => cache_set k x)) c
  = (Ret tt,
     Client (cachePlaylists c) (cache_from r ps (playlists c)) (heap c)
            (log c ++ writes_from r ps)).
Proof.
  induction ps as [|p ps IH]; intros r c H; simpl.
  - unfold ret. rewrite app_nil_r. now destruct c.
  - unfold bind at 1. unfold bind at 1. unfold id_of at 1.
    pose proof (H 0 p eq_refl) as H0. rewrite Nat.add_0_r in H0. rewrite H0.
    unfold cache_set at 1. rewrite IH.
    + simpl. rewrite <- app_assoc. reflexivity.
    + intros i q Hq. cbn [heap]. replace (S r + i) with (r + S i) by lia.
      now apply H.
Qed.

(** The request [get] sends, and what its handler makes of a rejection. *)
Definition get_request (id : string) (market : option string) : request :=
  Request ("/playlists/" +:+ id)
          (VObj [("params", VObj [("market", VStr (default "US" market))])]).

Definition handler_result (e : error) : res (jsret ref) :=
  match handleError e with
  | Ret h => Ret (Plain h)
  | Exn e' => Exn e'
  end.

Definition rbind {A B} (r : res A) (k : A -> res B) : res B :=
  match r with
  | Ret a => k a
  | Exn e => Exn e
  end.

(** [handleError(e) || d] as a result. *)
Definition handled {E} (d : jsret E) (e : error) : res (jsret E) :=
  match handleError e with
  | Ret h => Ret (if truthy h then Plain h else d)
  | Exn e' => Exn e'
  end.

Lemma handle_or_run {E} (d : jsret E) e c : handle_or d e c = (handled d e, c).
Proof.
  unfold handle_or, handled, bind, lift, ret.
  now destruct (handleError e).
Qed.

(** [get], step by step: answered from the cache, or one request whose
    answer is constructed, cached when caching is on, and returned; a
    rejected request and a throwing constructor both end in the handler. *)
Definition get_run fetch (id : string) (force : option bool)
    (market : option string) (c : client) : res (jsret ref) * client :=
  match (if default (negb (cachePlaylists c)) force then None
         else playlists c !! id) with
  | Some r => (Ret (Entity r), c)
  | None =>
      let req := get_request id market in
      match rbind (fetch req) Playlist_new with
      | Exn e => (handler_result e, traced c [EvFetch req])
      | Ret p =>
          let r := length (heap c) in
          (Ret (Entity r),
           if cachePlaylists c
           then Client true (<[Playlist_id p := r]> (playlists c))
                       (heap c ++ [p])
                       (log c ++ [EvFetch req; EvCacheSet (Playlist_id p) r])
           else Client false (playlists c) (heap c ++ [p])
                       (log c ++ [EvFetch req]))
      end
  end.

Lemma id_of_fresh flag m h p l :
  id_of (length h) (Client flag m (h ++ [p]) l)
  = (Ret (Playlist_id p), Client flag m (h ++ [p]) l).
Proof.
  unfold id_of. cbn [heap].
  rewrite lookup_app_r by lia. now rewrite Nat.sub_diag.
Qed.

Lemma get_miss fetch id market flag m h l :
  try_catch
    (resp <- do_fetch fetch ("/playlists/" +:+ id)
        (VObj [("params", VObj [("market", VStr (default "US" market))])]) ;;
     r <- new_Playlist resp ;;
     enabled <- cache_enabled ;;
     (if enabled then k <- id_of r ;; cache_set k r else ret tt) ;;;
     ret (Entity r))
    (fun e => h <- lift (handleError e) ;; ret (Plain h))
    (Client flag m h l)
  = match rbind (fetch (get_request id market)) Playlist_new with
    | Exn e => (handler_result e, traced (Client flag m h l) [EvFetch (get_request id market)])
    | Ret p =>
        (Ret (Entity (length h)),
         if flag
         then Client true (<[Playlist_id p := length h]> m) (h ++ [p])
                     (l ++ [EvFetch (get_request id market);
                            EvCacheSet (Playlist_id p) (length h)])
         else Client false m (h ++ [p]) (l ++ [EvFetch (get_request id market)]))
    end.
Proof.
  unfold get_request, try_catch, do_fetch, log_event.
  unfold bind at 1. unfold bind at 1. cbn [cachePlaylists playlists heap log].
  unfold lift at 1.
  destruct (fetch _) as [resp|e]; cbn [rbind].
  - unfold bind at 1, new_Playlist at 1. cbn [cachePlaylists playlists heap log].
    destruct (Playlist_new resp) as [p|e].
    + unfold bind at 1, cache_enabled at 1. cbn [cachePlaylists].
      destruct flag.
      * unfold bind at 1. unfold bind at 1. rewrite id_of_fresh.
        unfold cache_set, ret. cbn. now rewrite <- app_assoc.
      * reflexivity.
    + unfold handler_result, traced, bind, lift, ret. cbn.
      now destruct (handleError e).
  - unfold handler_result, traced, bind, lift, ret. cbn.
    now destruct (handleError e).
Qed.

Lemma get_eq fetch id force market c :
  get fetch id force market c = get_run fetch id force market c.
Proof.
  unfold get, get_run.
  unfold bind at 1. unfold cache_enabled at 1.
  destruct c as [flag m h l]; cbn [cachePlaylists playlists heap log].
  unfold bind at 1.
  destruct (default (negb flag) force) eqn:Hf; cbn [negb].
  - unfold ret at 1. apply get_miss.
  - unfold cache_get at 1. cbn [playlists].
    destruct (m !! id) as [r|] eqn:Hm; [reflexivity|].
    apply get_miss.
Qed.

Lemma old_get_eq fetch id force market c :
  old_get fetch id force market c = get_run fetch id force market c.
Proof. exact (get_eq fetch id force market c). Qed.

(** The request [search] sends. *)
Definition search_params (query : string) (opts : value) : props :=
  set_prop "q" (VStr query) (set_prop "type" (VStr "playlist") (spread opts [])).

Definition search_request (query : string) (opts : value) : request :=
  Request "/search" (VObj [("params", VObj (search_params query opts))]).

(** [(await fetch(..)).playlists] and the array [data.items]. *)
Definition search_envelope (r : res value) : res (value * list value) :=
  rbind r (fun resp =>
  rbind (member resp "playlists") (fun data =>
  rbind (member data "items") (fun items =>
  rbind (as_array items) (fun xs => Ret (data, xs))))).

Lemma do_fetch_run fetch p o c :
  do_fetch fetch p o c = (fetch (Request p o), traced c [EvFetch (Request p o)]).
Proof. reflexivity. Qed.

(** [search], step by step: one request; on an answer of the right shape
    the items are constructed one after the other, then cached in order
    when caching is on.  When the constructor throws on an item, the
    objects built before it are dropped, nothing is cached, and the handler
    decides. *)
Definition search_run fetch (query : string) (opts : value) (c : client)
  : res (jsret ref) * client :=
  let req := search_request query opts in
  match search_envelope (fetch req) with
  | Exn e => (handled empty_paging e, traced c [EvFetch req])
  | Ret (data, xs) =>
      let r := length (heap c) in
      let ps := fst (construct xs) in
      match snd (construct xs) with
      | Some e =>
          (handled empty_paging e,
           Client (cachePlaylists c) (playlists c) (heap c ++ ps)
                  (log c ++ [EvFetch req]))
      | None =>
          (Ret (Paging (field data "limit") (field data "offset")
                       (field data "total") (seq r (length ps))),
           Client (cachePlaylists c)
                  (if cachePlaylists c then cache_from r ps (playlists c)
                   else playlists c)
                  (heap c ++ ps)
                  (log c ++ EvFetch req
                     :: (if cachePlaylists c then writes_from r ps else [])))
      end
  end.

Lemma search_eq fetch query opts c :
  search fetch query opts c = search_run fetch query opts c.
Proof.
  unfold search, search_run, search_envelope, try_catch.
  fold (search_params query opts). fold (search_request query opts).
  unfold bind at 1. rewrite do_fetch_run.
  change (Request "/search" (VObj [("params", VObj (search_params query opts))]))
    with (search_request query opts).
  destruct (fetch (search_request query opts)) as [resp|e]; cbn [rbind];
    [|apply handle_or_run].
  unfold bind at 1, lift at 1.
  destruct (member resp "playlists") as [data|e]; cbn [rbind];
    [|apply handle_or_run].
  unfold bind at 1, lift at 1.
  destruct (member data "items") as [items|e] eqn:Hitems; cbn [rbind];
    [|apply handle_or_run].
  unfold bind at 1, lift at 1.
  destruct (as_array items) as [xs|e]; cbn [rbind];
    [|apply handle_or_run].
  unfold bind at 1. rewrite mapM_new_Playlist.
  cbn [cachePlaylists heap playlists log traced].
  destruct (snd (construct xs)) as [e|]; [apply handle_or_run|].
  unfold bind at 1, cache_enabled at 1. cbn [cachePlaylists heap playlists log traced].
  unfold bind at 1.
  rewrite !(member_field _ _ _ _ Hitems).
  destruct (cachePlaylists c) eqn:Hflag.
  - rewrite forM_cache_set.
    + cbn. rewrite <- app_assoc. reflexivity.
    + intros i p Hp. cbn [heap]. rewrite lookup_app_r by lia.
      now replace (length (heap c) + i - length (heap c)) with i by lia.
  - cbn. reflexivity.
Qed.

(** A method made of one request, pure parsing of the answer, and the
    shared handler with a fallback value. *)
Definition settle {E} (d : jsret E) (r : res (jsret E)) : res (jsret E) :=
  match r with
  | Ret a => Ret a
  | Exn e => handled d e
  end.

Lemma fetch_call_run {E} fetch p o (k : value -> M (jsret E))
    (f : value -> res (jsret E)) (d : jsret E) c :
  (forall x c', k x c' = (f x, c')) ->
  try_catch (bind (do_fetch fetch p o) k) (handle_or d) c
  = (settle d (rbind (fetch (Request p o)) f),
     traced c [EvFetch (Request p o)]).
Proof.
  intros Hk. unfold try_catch, bind. rewrite do_fetch_run.
  destruct (fetch (Request p o)) as [x|e]; cbn [rbind settle].
  - rewrite Hk. destruct (f x); cbn [settle]; [reflexivity|apply handle_or_run].
  - apply handle_or_run.
Qed.

(** [data.items.map(..)] with the envelope [data] it was read from. *)
Definition items_envelope (data : value) : res (value * list value) :=
  rbind (member data "items") (fun items =>
  rbind (as_array items) (fun xs => Ret (data, xs))).

Definition tracks_paging (data : value) : res (jsret PlaylistTrackType) :=
  rbind (items_envelope data) (fun dx =>
    Ret (Paging (field (fst dx) "limit") (field (fst dx) "offset")
                (field (fst dx) "total") (map PlaylistTrack (snd dx)))).

Definition tracks_array (data : value) : res (jsret PlaylistTrackType) :=
  rbind (items_envelope data) (fun dx => Ret (Items (map PlaylistTrack (snd dx)))).

Definition snapshot_of (resp : value) : res (jsret ref) :=
  rbind (member resp "snapshot_id") (fun s => Ret (Plain s)).

Definition getTracks_request (id : string) (opts : value) : request :=
  Request ("/playlists/" +:+ id +:+ "/tracks")
          (VObj [("params", default_arg (VObj [("market", VStr "US")]) opts)]).

Definition getImages_request (id : string) : request :=
  Request ("/playlists/" +:+ id +:+ "/images") VUndefined.

Definition userFollows_request (playlistID : string) (ids : list string) : request :=
  Request ("/playlists/" +:+ playlistID +:+ "/followers/contains")
          (VObj [("params", VObj [("ids", VStr (join "," ids))])]).

(** The request of [addItems] once [items.join(',')] has given [uris]. *)
Definition addItems_call (id uris : string) (opts : value) : request :=
  Request ("/playlists/" +:+ id +:+ "/tracks")
          (VObj [("method", VStr "POST");
                 ("params",
                  VObj (set_prop "uris" (VStr uris) (spread opts [])))]).

Definition addItems_request (id : string) (items : list string) (opts : value)
  : request :=
  addItems_call id (join "," items) opts.

(** An array of strings as a value. *)
Definition strings (items : list string) : value := VArr (map VStr items).

Definition reorderItems_request (id : string) (items : value) (opts : value)
  : request :=
  let opts := default_arg (VObj []) opts in
  Request ("/playlists/" +:+ id +:+ "/tracks")
          (VObj [("method", VStr "PUT");
                 ("headers", VObj [("Content-Type", VStr "application/json")]);
                 ("body", reorder_body (field opts "rangeStart")
                            (field opts "insertBefore") (field opts "rangeLength")
                            (field opts "snapshotID") items)]).

Definition removeItems_request (id : string) (items : value)
    (snapshotID : value) : request :=
  Request ("/playlists/" +:+ id +:+ "/tracks")
          (VObj [("method", VStr "DELETE");
                 ("headers", VObj [("Content-Type", VStr "application/json")]);
                 ("body", remove_body snapshotID items)]).

Definition uploadImage_request (id : string) (image : string) : request :=
  Request ("/playlists/" +:+ id +:+ "/images")
          (VObj [("method", VStr "PUT");
                 ("headers", VObj [("Content-Type", VStr "image/jpeg")]);
                 ("body", VStr image)]).

Lemma getTracks_eq fetch id opts c :
  getTracks fetch id opts c
  = (settle empty_paging (rbind (fetch (getTracks_request id opts)) tracks_paging),
     traced c [EvFetch (getTracks_request id opts)]).
Proof.
  unfold getTracks, getTracks_request. apply fetch_call_run.
  intros data c'. unfold tracks_paging, items_envelope, bind, lift, ret.
  destruct (member data "items") as [items|e] eqn:Hitems; cbn [rbind]; auto.
  destruct (as_array items) as [xs|e]; cbn [rbind fst snd]; auto.
  now rewrite !(member_field _ _ _ _ Hitems).
Qed.

Lemma old_getTracks_eq fetch id opts c :
  old_getTracks fetch id opts c
  = (settle (Items []) (rbind (fetch (getTracks_request id opts)) tracks_array),
     traced c [EvFetch (getTracks_request id opts)]).
Proof.
  unfold old_getTracks, getTracks_request. apply fetch_call_run.
  intros data c'. unfold tracks_array, items_envelope, bind, lift, ret.
  destruct (member data "items") as [items|e]; cbn [rbind]; auto.
  destruct (as_array items) as [xs|e]; cbn [rbind fst snd]; auto.
Qed.

Lemma getImages_eq fetch id c :
  getImages fetch id c
  = (settle (Plain (VArr []))
       (rbind (fetch (getImages_request id)) (fun resp => Ret (Plain resp))),
     traced c [EvFetch (getImages_request id)]).
Proof. unfold getImages, getImages_request. now apply fetch_call_run. Qed.

Lemma old_getImages_eq fetch id c :
  old_getImages fetch id c
  = (settle (Plain (VArr []))
       (rbind (fetch (getImages_request id)) (fun resp => Ret (Plain resp))),
     traced c [EvFetch (getImages_request id)]).
Proof. unfold old_getImages, getImages_request. now apply fetch_call_run. Qed.

Lemma userFollows_eq fetch playlistID ids c :
  userFollows fetch playlistID ids c
  = (settle (Plain (VArr []))
       (rbind (fetch (userFollows_request playlistID ids))
              (fun resp => Ret (Plain resp))),
     traced c [EvFetch (userFollows_request playlistID ids)]).
Proof. unfold userFollows, userFollows_request. now apply fetch_call_run. Qed.

Lemma snapshot_step (resp : value) (c' : client) :
  bind (lift (member resp "snapshot_id")) (fun s => ret (Plain s)) c'
  = (snapshot_of resp, c').
Proof.
  unfold snapshot_of, bind, lift, ret.
  now destruct (member resp "snapshot_id").
Qed.

(** [items.join] throws when [items] is not an array: the [try] then goes
    to the handler before any request is made. *)
Lemma addItems_run fetch id items opts c :
  addItems fetch id items opts c
  = match join_of items with
    | Exn e => (handled (Plain VNull) e, c)
    | Ret uris =>
        (settle (Plain VNull) (rbind (fetch (addItems_call id uris opts)) snapshot_of),
         traced c [EvFetch (addItems_call id uris opts)])
    end.
Proof.
  unfold addItems, addItems_call.
  destruct (join_of items) as [uris|e].
  - apply (fetch_call_run fetch). intros; apply snapshot_step.
  - unfold try_catch, bind, lift. apply handle_or_run.
Qed.

Lemma addItems_eq fetch id items opts c :
  addItems fetch id (strings items) opts c
  = (settle (Plain VNull) (rbind (fetch (addItems_request id items opts)) snapshot_of),
     traced c [EvFetch (addItems_request id items opts)]).
Proof.
  rewrite addItems_run. unfold strings. now rewrite join_of_strings.
Qed.

Lemma removeItems_eq fetch id items snapshotID c :
  removeItems fetch id items snapshotID c
  = (settle (Plain VNull)
       (rbind (fetch (removeItems_request id items snapshotID)) snapshot_of),
     traced c [EvFetch (removeItems_request id items snapshotID)]).
Proof.
  unfold removeItems, removeItems_request. apply fetch_call_run.
  intros; apply snapshot_step.
Qed.

Lemma uploadImage_eq fetch id image c :
  uploadImage fetch id image c
  = (settle (Plain (VBool false))
       (rbind (fetch (uploadImage_request id image))
              (fun _ => Ret (Plain (VBool true)))),
     traced c [EvFetch (uploadImage_request id image)]).
Proof. unfold uploadImage, uploadImage_request. now apply fetch_call_run. Qed.

(** [options.rangeStart] throws when [options] is [null]: the [try] then
    goes to the handler before any request is made. *)

Lemma reorderItems_eq fetch id items opts c :
  reorderItems fetch id items opts c
  = if is_null opts then (handled (Plain VNull) TypeError, c)
    else (settle (Plain VNull)
            (rbind (fetch (reorderItems_request id items opts)) snapshot_of),
          traced c [EvFetch (reorderItems_request id items opts)]).
Proof.
  unfold reorderItems, reorderItems_request.
  destruct opts; cbn [default_arg is_null];
    try (apply (fetch_call_run fetch); intros; apply snapshot_step).
  unfold try_catch, bind, lift. cbn. apply handle_or_run.
Qed.

(** *** Every operation of the manager at once *)

(** The methods of both versions that talk to the upstream themselves. *)
Inductive op : Type :=
| Search (query : string) (opts : value)
| Get (id : string) (force : option bool) (market : option string)
| GetTracks (id : string) (opts : value)
| GetImages (id : string)
| UserFollows (playlistID : string) (ids : list string)
| AddItems (id : string) (items : value) (opts : value)
| ReorderItems (id : string) (items : value) (opts : value)
| RemoveItems (id : string) (items : value) (snapshotID : value)
| UploadImage (id : string) (image : string)
| OldGet (id : string) (force : option bool) (market : option string)
| OldGetTracks (id : string) (opts : value)
| OldGetImages (id : string).

(** The client after the call. *)
Definition exec fetch (o : op) (c : client) : client :=
  match o with
  | Search q opts => snd (search fetch q opts c)
  | Get id force market => snd (get fetch id force market c)
  | GetTracks id opts => snd (getTracks fetch id opts c)
  | GetImages id => snd (getImages fetch id c)
  | UserFollows id ids => snd (userFollows fetch id ids c)
  | AddItems id items opts => snd (addItems fetch id items opts c)
  | ReorderItems id items opts => snd (reorderItems fetch id items opts c)
  | RemoveItems id items sid => snd (removeItems fetch id items sid c)
  | UploadImage id image => snd (uploadImage fetch id image c)
  | OldGet id force market => snd (old_get fetch id force market c)
  | OldGetTracks id opts => snd (old_getTracks fetch id opts c)
  | OldGetImages id => snd (old_getImages fetch id c)
  end.

(** The five methods that hand the call over to [UserClient]. *)
Inductive forwarded : Type :=
| Follow (id : string) (opts : value)
| Unfollow (id : string)
| Follows (id : string)
| Create (opts : value)
| Edit (id : string) (opts : value).

Definition forward UserClient (f : forwarded) : M (jsret ref) :=
  match f with
  | Follow id opts => follow UserClient id opts
  | Unfollow id => unfollow UserClient id
  | Follows id => follows UserClient id
  | Create opts => create UserClient opts
  | Edit id opts => edit UserClient id opts
  end.

(** The method of [UserClient] a forwarding method calls, and with what. *)
Definition user_call (f : forwarded) : user_method * list value :=
  match f with
  | Follow id opts => (followPlaylist, [VStr id; opts])
  | Unfollow id => (unfollowPlaylist, [VStr id])
  | Follows id => (followsPlaylist, [VStr id])
  | Create opts => (createPlaylist, [opts])
  | Edit id opts => (editPlaylist, [VStr id; opts])
  end.

Lemma forward_run UserClient f c :
  forward UserClient f c = UserClient (fst (user_call f)) (snd (user_call f)) c.
Proof. now destruct f. Qed.

(** Whether [get] answers from the cache: [force] is off and the cache
    holds an entry under [id]. *)
Definition cache_hit (id : string) (force : option bool) (c : client)
  : option ref :=
  if default (negb (cachePlaylists c)) force then None else playlists c !! id.

(** The requests the call is expected to make. *)
Definition sent (o : op) (c : client) : list request :=
  match o with
  | Search q opts => [search_request q opts]
  | Get id force market | OldGet id force market =>
      match cache_hit id force c with
      | Some _ => []
      | None => [get_request id market]
      end
  | GetTracks id opts | OldGetTracks id opts => [getTracks_request id opts]
  | GetImages id | OldGetImages id => [getImages_request id]
  | UserFollows id ids => [userFollows_request id ids]
  | AddItems id items opts =>
      match join_of items with
      | Ret uris => [addItems_call id uris opts]
      | Exn _ => []
      end
  | ReorderItems id items opts =>
      if is_null opts then [] else [reorderItems_request id items opts]
  | RemoveItems id items sid => [removeItems_request id items sid]
  | UploadImage id image => [uploadImage_request id image]
  end.

(** The three ways a call ends without a request: [get] answered from the
    cache, [reorderItems] given [null] as options, and [addItems] given
    items that have no [join] (anything but an array). *)
Definition answered_locally (o : op) (c : client) : bool :=
  match o with
  | Get id force _ | OldGet id force _ =>
      match cache_hit id force c with
      | Some _ => true
      | None => false
      end
  | ReorderItems _ _ opts => is_null opts
  | AddItems _ items _ =>
      match items with
      | VArr _ => false
      | _ => true
      end
  | _ => false
  end.

Lemma sent_length o c :
  length (sent o c) = if answered_locally o c then 0 else 1.
Proof.
  destruct o; cbn; try reflexivity.
  - now destruct (cache_hit id force c).
  - now destruct items.
  - now destruct (is_null opts).
  - now destruct (cache_hit id force c).
Qed.

Lemma requests_app l1 l2 : requests (l1 ++ l2) = requests l1 ++ requests l2.
Proof. unfold requests. apply omap_app. Qed.

Lemma requests_writes_from r ps : requests (writes_from r ps) = [].
Proof. revert r. induction ps as [|p ps IH]; intros r; cbn; auto. Qed.

Lemma get_requests fetch id force market c :
  requests (log (snd (get fetch id force market c)))
  = requests (log c) ++ match cache_hit id force c with
                        | Some _ => []
                        | None => [get_request id market]
                        end.
Proof.
  rewrite get_eq. unfold get_run, cache_hit.
  destruct (if default (negb (cachePlaylists c)) force then None
            else playlists c !! id); cbn [snd].
  - now rewrite app_nil_r.
  - destruct (rbind _ _); cbn [snd]; [destruct (cachePlaylists c)|];
      cbn [log traced]; rewrite requests_app; reflexivity.
Qed.

Lemma exec_requests fetch o c :
  requests (log (exec fetch o c)) = requests (log c) ++ sent o c.
Proof.
  destruct o; cbn [exec sent].
  - rewrite search_eq. unfold search_run.
    destruct (search_envelope _) as [[data xs]|e]; cbn [snd log traced];
      [|rewrite requests_app; reflexivity].
    destruct (snd (construct xs)); cbn [snd log];
      rewrite requests_app; cbn; [reflexivity|].
    destruct (cachePlaylists c); [now rewrite requests_writes_from|reflexivity].
  - apply get_requests.
  - rewrite getTracks_eq. cbn. now rewrite requests_app.
  - rewrite getImages_eq. cbn. now rewrite requests_app.
  - rewrite userFollows_eq. cbn. now rewrite requests_app.
  - rewrite addItems_run. destruct (join_of items); cbn.
    + now rewrite requests_app.
    + now rewrite app_nil_r.
  - rewrite reorderItems_eq. destruct (is_null opts); cbn.
    + now rewrite app_nil_r.
    + now rewrite requests_app.
  - rewrite removeItems_eq. cbn. now rewrite requests_app.
  - rewrite uploadImage_eq. cbn. now rewrite requests_app.
  - apply get_requests.
  - rewrite old_getTracks_eq. cbn. now rewrite requests_app.
  - rewrite old_getImages_eq. cbn. now rewrite requests_app.
Qed.

(** What a call may do to the client: allocate new objects after the
    existing ones, and point cache keys at objects it has just allocated. *)
Record grows (c c' : client) : Prop := {
  grows_flag : cachePlaylists c' = cachePlaylists c;
  grows_heap : exists fresh, heap c' = heap c ++ fresh /\ Forall made fresh;
  grows_keys : dom (playlists c) ⊆ dom (playlists c');
  grows_fresh : forall k r, playlists c' !! k = Some r ->
                playlists c !! k = Some r \/
                (length (heap c) <= r < length (heap c'))
}.

Lemma grows_refl c : grows c c.
Proof. split; auto. exists []. now rewrite app_nil_r. Qed.

Lemma grows_traced c evs : grows c (traced c evs).
Proof. split; cbn; auto. exists []. now rewrite app_nil_r. Qed.

Lemma cache_from_dom ps : forall r (m : gmap string ref),
  dom m ⊆ dom (cache_from r ps m).
Proof.
  induction ps as [|p ps IH]; intros r m; cbn [cache_from]; [done|].
  etrans; [|apply IH]. rewrite dom_insert_L. set_solver.
Qed.

Lemma cache_from_fresh ps : forall r (m : gmap string ref) k x,
  cache_from r ps m !! k = Some x ->
  m !! k = Some x \/ (r <= x < r + length ps).
Proof.
  induction ps as [|p ps IH]; intros r m k x; cbn [cache_from length]; auto.
  intros H. apply IH in H as [H|H]; [|lia].
  rewrite lookup_insert in H. case_decide; [|auto].
  injection H as <-. lia.
Qed.

Lemma made_of (r : res value) p : rbind r Playlist_new = Ret p -> made p.
Proof. destruct r as [resp|e]; cbn; [|discriminate]. intros H. now exists resp. Qed.

Lemma grows_get fetch id force market c :
  grows c (snd (get fetch id force market c)).
Proof.
  rewrite get_eq. unfold get_run.
  destruct (if default (negb (cachePlaylists c)) force then None
            else playlists c !! id); cbn [snd]; [apply grows_refl|].
  destruct (rbind _ _) as [p|e] eqn:Hp; cbn [snd]; [|apply grows_traced].
  apply made_of in Hp.
  destruct (cachePlaylists c) eqn:Hflag; split; cbn; eauto;
    try (exists [p]; split; [reflexivity|now constructor]).
  - rewrite dom_insert_L. set_solver.
  - intros k r. rewrite lookup_insert, length_app. cbn.
    case_decide; [|auto]. intros [= <-]. lia.
Qed.

Lemma exec_grows fetch o c : grows c (exec fetch o c).
Proof.
  destruct o; cbn [exec].
  - rewrite search_eq. unfold search_run.
    destruct (search_envelope _) as [[data xs]|e]; cbn [snd];
      [|apply grows_traced].
    pose proof (construct_made xs) as Hmade.
    destruct (snd (construct xs)); cbn [snd]; split; cbn; eauto.
    + destruct (cachePlaylists c); [apply cache_from_dom|done].
    + intros k r. rewrite length_app.
      destruct (cachePlaylists c); [|auto].
      intros H. now apply cache_from_fresh in H.
  - apply grows_get.
  - rewrite getTracks_eq. apply grows_traced.
  - rewrite getImages_eq. apply grows_traced.
  - rewrite userFollows_eq. apply grows_traced.
  - rewrite addItems_run.
    destruct (join_of items); [apply grows_traced|apply grows_refl].
  - rewrite reorderItems_eq.
    destruct (is_null opts); [apply grows_refl|apply grows_traced].
  - rewrite removeItems_eq. apply grows_traced.
  - rewrite uploadImage_eq. apply grows_traced.
  - apply grows_get.
  - rewrite old_getTracks_eq. apply grows_traced.
  - rewrite old_getImages_eq. apply grows_traced.
Qed.

(** *** Sequences of [get] and [search] calls *)

(** One call, with the upstream's answer to it. *)
Inductive call : Type :=
| CallGet (fetch : request -> res value) (id : string) (force : option bool)
          (market : option string)
| CallSearch (fetch : request -> res value) (query : string) (opts : value).

(** What the call resolves or rejects with, and the client after it. *)
Definition outcome (c : client) (k : call) : res (jsret ref) :=
  match k with
  | CallGet fetch id force market => fst (get fetch id force market c)
  | CallSearch fetch query opts => fst (search fetch query opts c)
  end.

Definition perform (c : client) (k : call) : client :=
  match k with
  | CallGet fetch id force market => snd (get fetch id force market c)
  | CallSearch fetch query opts => snd (search fetch query opts c)
  end.

(** A client as constructed: nothing cached, nothing allocated. *)
Definition new_client (flag : bool) : client := Client flag ∅ [] [].

Definition run (flag : bool) (ks : list call) : client :=
  fold_left perform ks (new_client flag).

(** The playlists a result hands to the caller. *)
Definition handed (r : res (jsret ref)) : list ref :=
  match r with
  | Ret (Entity x) => [x]
  | Ret (Paging _ _ _ items) | Ret (Items items) => items
  | _ => []
  end.

(** The playlists the calls [ks], made one after the other from [c] on,
    hand to their callers. *)
Fixpoint handed_out (c : client) (ks : list call) : list ref :=
  match ks with
  | [] => []
  | k :: ks' => handed (outcome c k) ++ handed_out (perform c k) ks'
  end.

(** Whether the constructor throws on an item of the answer to a [search],
    after the items before it have been constructed. *)
Definition cut_short (k : call) : bool :=
  match k with
  | CallGet _ _ _ _ => false
  | CallSearch fetch query opts =>
      match search_envelope (fetch (search_request query opts)) with
      | Ret (_, xs) =>
          match snd (construct xs) with
          | Some _ => true
          | None => false
          end
      | Exn _ => false
      end
  end.

(** With caching on, and [given] the playlists handed out so far: every
    cached reference points to an object that carries the key as its id
    and was handed out, every object handed out is shadowed in the cache
    by one at least as recent, and every traced write used the written
    object's id. *)
Record coherent (h : list Playlist) (m : gmap string ref) (l : list event)
    (given : list ref) : Prop := {
  coh_own : forall k r, m !! k = Some r ->
            r ∈ given /\ exists p, h !! r = Some p /\ Playlist_id p = k;
  coh_latest : forall r, r ∈ given ->
               exists p r', h !! r = Some p /\
                            m !! Playlist_id p = Some r' /\ r <= r';
  coh_writes : forall k r, (k, r) ∈ cache_writes l ->
               exists p, h !! r = Some p /\ Playlist_id p = k
}.

Definition cache_inv (c : client) (given : list ref) : Prop :=
  Forall made (heap c) /\
  if cachePlaylists c then coherent (heap c) (playlists c) (log c) given
  else playlists c = ∅ /\ cache_writes (log c) = [].

Lemma cache_writes_app l1 l2 :
  cache_writes (l1 ++ l2) = cache_writes l1 ++ cache_writes l2.
Proof. unfold cache_writes. apply omap_app. Qed.

Lemma coherent_fetch h m l g req :
  coherent h m l g -> coherent h m (l ++ [EvFetch req]) g.
Proof.
  intros [H1 H2 H3]. split; auto.
  intros k r. rewrite cache_writes_app. cbn. rewrite app_nil_r. apply H3.
Qed.

(** Objects that are allocated and then dropped change nothing. *)
Lemma coherent_dropped h m l g ps :
  coherent h m l g -> coherent (h ++ ps) m l g.
Proof.
  intros [H1 H2 H3]. split.
  - intros k r Hm. destruct (H1 _ _ Hm) as (Hg & p & Hp & Hid).
    split; [exact Hg|]. exists p. split; auto. now apply lookup_app_l_Some.
  - intros r Hg. destruct (H2 _ Hg) as (p & r' & Hp & Hm & Hle).
    exists p, r'. split; auto. now apply lookup_app_l_Some.
  - intros k r Hin. destruct (H3 _ _ Hin) as (p & Hp & Hid).
    exists p. split; auto. now apply lookup_app_l_Some.
Qed.

(** A cached object handed out once more. *)
Lemma coherent_hit h m l g k r :
  coherent h m l g -> m !! k = Some r -> coherent h m l (g ++ [r]).
Proof.
  intros [H1 H2 H3] Hm. destruct (H1 _ _ Hm) as (Hg & _).
  split; auto.
  - intros k' r' Hm'. destruct (H1 _ _ Hm') as (Hg' & Hp).
    split; [apply elem_of_app; now left|exact Hp].
  - intros r' Hin. apply H2. apply elem_of_app in Hin as [Hin|Hin]; [exact Hin|].
    apply list_elem_of_singleton in Hin. now subst r'.
Qed.

Lemma coherent_alloc_set h m l g p :
  coherent h m l g ->
  coherent (h ++ [p]) (<[Playlist_id p := length h]> m)
           (l ++ [EvCacheSet (Playlist_id p) (length h)]) (g ++ [length h]).
Proof.
  intros [H1 H2 H3]. split.
  - intros k r. rewrite lookup_insert. case_decide as Hk.
    + intros [= <-]. split; [apply elem_of_app; right; now apply list_elem_of_singleton|].
      exists p. split; auto.
      rewrite lookup_app_r by lia. now rewrite Nat.sub_diag.
    + intros Hm. destruct (H1 _ _ Hm) as (Hg & q & Hq & Hid).
      split; [apply elem_of_app; now left|].
      exists q. split; auto. now apply lookup_app_l_Some.
  - intros r Hin. apply elem_of_app in Hin as [Hin|Hin].
    + destruct (H2 _ Hin) as (q & r' & Hq & Hr' & Hle).
      exists q. rewrite lookup_insert. case_decide as Hk.
      * exists (length h). split; [now apply lookup_app_l_Some|].
        split; auto. apply lookup_lt_Some in Hq. lia.
      * exists r'. split; [now apply lookup_app_l_Some|]. auto.
    + apply list_elem_of_singleton in Hin. subst r.
      exists p, (length h). rewrite lookup_insert_eq.
      split; [|auto]. rewrite lookup_app_r by lia. now rewrite Nat.sub_diag.
  - intros k r. rewrite cache_writes_app. cbn. rewrite elem_of_app.
    intros [Hin|Hin].
    + destruct (H3 _ _ Hin) as (q & Hq & Hid).
      exists q. split; auto. now apply lookup_app_l_Some.
    + apply list_elem_of_singleton in Hin. injection Hin as -> ->.
      exists p. split; auto.
      rewrite lookup_app_r by lia. now rewrite Nat.sub_diag.
Qed.

Lemma coherent_cache_from ps : forall h m l g,
  coherent h m l g ->
  coherent (h ++ ps) (cache_from (length h) ps m)
           (l ++ writes_from (length h) ps) (g ++ seq (length h) (length ps)).
Proof.
  induction ps as [|p ps IH]; intros h m l g H; cbn [cache_from writes_from length seq].
  - now rewrite !app_nil_r.
  - apply coherent_alloc_set with (p := p) in H.
    apply IH in H. rewrite length_app in H. cbn [length] in H.
    rewrite Nat.add_1_r, <- !app_assoc in H. exact H.
Qed.

Lemma cache_inv_new flag : cache_inv (new_client flag) [].
Proof.
  split; [constructor|].
  destruct flag; cbn; [|auto].
  split; cbn.
  - intros k r Hm. now rewrite lookup_empty in Hm.
  - intros r Hin. now apply elem_of_nil in Hin.
  - intros k r Hin. now apply elem_of_nil in Hin.
Qed.

Lemma cache_inv_get fetch id force market c g :
  cache_inv c g ->
  cache_inv (snd (get fetch id force market c))
            (g ++ handed (fst (get fetch id force market c))).
Proof.
  intros [Hc Hinv]. rewrite get_eq. unfold get_run.
  destruct (if default (negb (cachePlaylists c)) force then None
            else playlists c !! id) as [r|] eqn:Hhit; cbn [fst snd handed].
  - split; [exact Hc|]. destruct (cachePlaylists c) eqn:Hflag; [|exact Hinv].
    destruct (default (negb true) force); [discriminate|].
    now apply coherent_hit with (k := id).
  - destruct (rbind _ _) as [p|e] eqn:Hp; cbn [fst snd handed].
    + apply made_of in Hp. split.
      * destruct (cachePlaylists c); cbn [heap];
          apply Forall_app; split; auto.
      * destruct (cachePlaylists c); cbn.
        -- apply coherent_fetch with (req := get_request id market) in Hinv.
           apply coherent_alloc_set with (p := p) in Hinv.
           now rewrite <- app_assoc in Hinv.
        -- destruct Hinv as [-> Hw]. split; auto.
           rewrite cache_writes_app, Hw. reflexivity.
    + assert (Hnone : handed (handler_result e) = []).
      { unfold handler_result. now destruct (handleError e). }
      rewrite Hnone, app_nil_r.
      split; [exact Hc|]. unfold traced. cbn.
      destruct (cachePlaylists c).
      * now apply coherent_fetch.
      * destruct Hinv as [-> Hw]. split; auto.
        rewrite cache_writes_app, Hw. reflexivity.
Qed.

(** What the handler makes of an error of [search] is no playlist. *)
Lemma handed_handled e : handed (handled empty_paging e) = [].
Proof.
  unfold handled. destruct (handleError e) as [h|e']; [|reflexivity].
  now destruct (truthy h).
Qed.

Lemma cache_inv_search fetch query opts c g :
  cache_inv c g ->
  cache_inv (snd (search fetch query opts c))
            (g ++ handed (fst (search fetch query opts c))).
Proof.
  intros [Hc Hinv]. rewrite search_eq. unfold search_run.
  pose proof handed_handled as Hnone.
  destruct (search_envelope _) as [[data xs]|e]; cbn [fst snd].
  - pose proof (construct_made xs) as Hmade.
    destruct (snd (construct xs)) as [e|]; cbn [fst snd handed].
    + rewrite Hnone, app_nil_r. split; [now apply Forall_app|]. cbn.
      destruct (cachePlaylists c).
      * now apply coherent_dropped, coherent_fetch.
      * destruct Hinv as [-> Hw]. split; auto.
        rewrite cache_writes_app, Hw. reflexivity.
    + split; [now apply Forall_app|]. cbn.
      destruct (cachePlaylists c).
      * apply coherent_fetch with (req := search_request query opts) in Hinv.
        apply coherent_cache_from with (ps := fst (construct xs)) in Hinv.
        now rewrite <- app_assoc in Hinv.
      * destruct Hinv as [-> Hw]. split; auto.
        rewrite cache_writes_app, Hw. reflexivity.
  - rewrite Hnone, app_nil_r.
    split; [exact Hc|]. unfold traced. cbn.
    destruct (cachePlaylists c).
    + now apply coherent_fetch.
    + destruct Hinv as [-> Hw]. split; auto.
      rewrite cache_writes_app, Hw. reflexivity.
Qed.

Lemma perform_flag c k : cachePlaylists (perform c k) = cachePlaylists c.
Proof.
  destruct k as [fetch id force market|fetch query opts]; cbn [perform].
  - apply grows_get.
  - apply (exec_grows fetch (Search query opts)).
Qed.

Lemma handed_out_app ks : forall c k,
  handed_out c (ks ++ [k])
  = handed_out c ks ++ handed (outcome (fold_left perform ks c) k).
Proof.
  induction ks as [|k0 ks IH]; intros c k; cbn [handed_out app fold_left].
  - now rewrite app_nil_r.
  - now rewrite IH, app_assoc.
Qed.

Lemma run_inv flag ks :
  cache_inv (run flag ks) (handed_out (new_client flag) ks) /\
  cachePlaylists (run flag ks) = flag.
Proof.
  unfold run. induction ks as [|k ks IH] using rev_ind.
  - split; [apply cache_inv_new|reflexivity].
  - rewrite fold_left_app, handed_out_app. cbn [fold_left].
    destruct IH as [IH1 IH2]. split.
    + destruct k; cbn [perform outcome];
        [now apply cache_inv_get|now apply cache_inv_search].
    + now rewrite perform_flag.
Qed.

(** When no [search] is cut short by the constructor, every object that
    was constructed has been handed out. *)
Lemma run_hands_out flag ks :
  Forall (fun k => cut_short k = false) ks ->
  forall r, r < length (heap (run flag ks)) ->
            r ∈ handed_out (new_client flag) ks.
Proof.
  unfold run. induction ks as [|k ks IH] using rev_ind; intros Hall r.
  - cbn. lia.
  - apply Forall_app in Hall as [Hall Hk]. apply Forall_cons in Hk as [Hk _].
    specialize (IH Hall).
    rewrite fold_left_app, handed_out_app. cbn [fold_left].
    set (c := fold_left perform ks (new_client flag)) in *.
    assert (Hstep : forall n items,
              heap (perform c k) = heap c ++ items ->
              length items = n ->
              handed (outcome c k) = seq (length (heap c)) n ->
              r < length (heap (perform c k)) ->
              r ∈ handed_out (new_client flag) ks
                  ++ handed (outcome c k)).
    { intros n items Hh Hn Hg Hr. rewrite Hh, length_app, Hn in Hr.
      destruct (decide (r < length (heap c))) as [Hlt|Hge].
      - apply elem_of_app. left. now apply IH.
      - apply elem_of_app. right. rewrite Hg. apply elem_of_seq. lia. }
    assert (Hsame : heap (perform c k) = heap c ->
              r < length (heap (perform c k)) ->
              r ∈ handed_out (new_client flag) ks ++ handed (outcome c k)).
    { intros Hh Hr. rewrite Hh in Hr. apply elem_of_app. left. now apply IH. }
    destruct k as [fetch id force market|fetch query opts];
      cbn [perform outcome cut_short] in *.
    + rewrite get_eq in *. unfold get_run in *.
      destruct (if default (negb (cachePlaylists c)) force then None
                else playlists c !! id) as [r0|]; cbn [fst snd] in *;
        [now apply Hsame|].
      destruct (rbind _ _) as [p|e]; cbn [fst snd] in *;
        [|now apply Hsame].
      apply (Hstep 1 [p]); try reflexivity.
      now destruct (cachePlaylists c).
    + rewrite search_eq in *. unfold search_run in *.
      destruct (search_envelope _) as [[data xs]|e]; cbn [fst snd] in *;
        [|now apply Hsame].
      destruct (snd (construct xs)); [discriminate|]. cbn [fst snd] in *.
      now apply (Hstep (length (fst (construct xs))) (fst (construct xs))).
Qed.

(** C2, as the code has it.  After any sequence of [get] and [search]
    calls on a new client, a value held by [cache.playlists] under key [K]
    is an object that [new Playlist] built from an upstream answer, that
    carries [K] as its id and that was handed to a caller, and it is the
    most recently constructed one among the objects with that id that were
    handed out.  The objects that are constructed and never handed out are
    those of a [search] whose constructor threw on a later item of the same
    answer: when that never happens, every constructed object has been
    handed out.  Every traced [cache.playlists.set] used the id of the
    object it stored as the key, and with [cachePlaylists] off nothing is
    ever written. *)
Theorem cache_holds_latest (flag : bool) (ks : list call) :
  let c := run flag ks in
  let given := handed_out (new_client flag) ks in
  (forall K r, playlists c !! K = Some r ->
     exists p, heap c !! r = Some p /\ Playlist_id p = K /\
       (exists v, Playlist_new v = Ret p) /\ r ∈ given /\
       forall r' p', r' ∈ given -> heap c !! r' = Some p' ->
                     Playlist_id p' = K -> r' <= r) /\
  (Forall (fun k => cut_short k = false) ks ->
     forall r, r < length (heap c) -> r ∈ given) /\
  (forall k r, (k, r) ∈ cache_writes (log c) ->
     exists p, heap c !! r = Some p /\ Playlist_id p = k) /\
  (flag = false -> playlists c = ∅ /\ cache_writes (log c) = []).
Proof.
  cbv zeta. destruct (run_inv flag ks) as [[Hc Hinv] Hflag].
  rewrite Hflag in Hinv.
  split; [|split; [apply run_hands_out|]].
  - intros K r Hm. destruct flag.
    + destruct Hinv as [H1 H2 H3].
      destruct (H1 _ _ Hm) as (Hg & p & Hp & Hid).
      exists p. split; [exact Hp|]. split; [exact Hid|].
      split; [exact (proj1 (Forall_lookup _ _) Hc _ _ Hp)|].
      split; [exact Hg|].
      intros r' p' Hg' Hp' Hid'.
      destruct (H2 _ Hg') as (q & r'' & Hq & Hr'' & Hle).
      rewrite Hp' in Hq. injection Hq as <-.
      rewrite Hid', Hm in Hr''. injection Hr'' as <-. exact Hle.
    + destruct Hinv as [Hempty _]. rewrite Hempty in Hm.
      now rewrite lookup_empty in Hm.
  - destruct flag.
    + destruct Hinv as [H1 H2 H3]. split; [exact H3|discriminate].
    + destruct Hinv as [Hm Hw]. rewrite Hm, Hw. split; [|auto].
      intros k r H. now apply elem_of_nil in H.
Qed.

(** *** Rejected requests *)

Lemma handled_falsy {E} (d : jsret E) e h :
  handleError e = Ret h -> truthy h = false -> handled d e = Ret d.
Proof. unfold handled. now intros -> ->. Qed.

(** Whatever the handler does with the rejection decides the outcome. *)
Lemma rejected_fetch_handled fetch e c :
  (forall req, fetch req = Exn e) ->
  (forall q o, fst (search fetch q o c) = handled empty_paging e) /\
  (forall id o, fst (getTracks fetch id o c) = handled empty_paging e) /\
  (forall id, fst (getImages fetch id c) = handled (Plain (VArr [])) e) /\
  (forall id ids, fst (userFollows fetch id ids c) = handled (Plain (VArr [])) e) /\
  (forall id image, fst (uploadImage fetch id image c) = handled (Plain (VBool false)) e) /\
  (forall id items o,
     fst (addItems fetch id (strings items) o c) = handled (Plain VNull) e) /\
  (forall id items o, is_null o = false ->
     fst (reorderItems fetch id items o c) = handled (Plain VNull) e) /\
  (forall id items sid, fst (removeItems fetch id items sid c) = handled (Plain VNull) e) /\
  (forall id force market, cache_hit id force c = None ->
     fst (get fetch id force market c) = handler_result e).
Proof.
  intros Hf. repeat split; intros.
  - rewrite search_eq. unfold search_run. now rewrite Hf.
  - rewrite getTracks_eq. now rewrite Hf.
  - rewrite getImages_eq. now rewrite Hf.
  - rewrite userFollows_eq. now rewrite Hf.
  - rewrite uploadImage_eq. now rewrite Hf.
  - rewrite addItems_eq. now rewrite Hf.
  - rewrite reorderItems_eq. rewrite H. now rewrite Hf.
  - rewrite removeItems_eq. now rewrite Hf.
  - rewrite get_eq. unfold get_run. unfold cache_hit in H. rewrite H.
    now rewrite Hf.
Qed.

(** The earlier [getTracks] falls back to the empty array instead. *)
Lemma old_getTracks_rejected fetch e c id o :
  (forall req, fetch req = Exn e) ->
  fst (old_getTracks fetch id o c) = handled (Items []) e.
Proof. intros Hf. rewrite old_getTracks_eq. now rewrite Hf. Qed.

(** C1. When the request of a [PlaylistManager] method is rejected with
    [e], the error goes to [handleError] and the handler decides: what it
    throws is what the method rejects with, a truthy value it returns is
    what the method resolves with, and when it returns no value (a falsy
    [h]) the method resolves with its own default: [search] and [getTracks]
    with the empty paging object, [getImages] and [userFollows] with the
    empty array, [uploadImage] with [false], [addItems], [reorderItems] and
    [removeItems] with [null]; [get] has no default and resolves with the
    handler's own result, [null] included. *)
Theorem rejected_fetch_defaults fetch e c :
  (forall req, fetch req = Exn e) ->
  let through_handler {E} (d : jsret E) : res (jsret E) :=
    match handleError e with
    | Exn thrown => Exn thrown
    | Ret h => Ret (if truthy h then Plain h else d)
    end in
  ((forall q o, fst (search fetch q o c) = through_handler empty_paging) /\
   (forall id o, fst (getTracks fetch id o c) = through_handler empty_paging) /\
   (forall id, fst (getImages fetch id c) = through_handler (Plain (VArr []))) /\
   (forall id ids,
      fst (userFollows fetch id ids c) = through_handler (Plain (VArr []))) /\
   (forall id image,
      fst (uploadImage fetch id image c) = through_handler (Plain (VBool false))) /\
   (forall id items o,
      fst (addItems fetch id (strings items) o c) = through_handler (Plain VNull)) /\
   (forall id items o, is_null o = false ->
      fst (reorderItems fetch id items o c) = through_handler (Plain VNull)) /\
   (forall id items sid,
      fst (removeItems fetch id items sid c) = through_handler (Plain VNull)) /\
   (forall id force market, cache_hit id force c = None ->
      fst (get fetch id force market c)
      = match handleError e with
        | Exn thrown => Exn thrown
        | Ret h => Ret (Plain h)
        end)) /\
  (forall h, handleError e = Ret h -> truthy h = false ->
     (forall q o, fst (search fetch q o c) = Ret empty_paging) /\
     (forall id o, fst (getTracks fetch id o c) = Ret empty_paging) /\
     (forall id, fst (getImages fetch id c) = Ret (Plain (VArr []))) /\
     (forall id ids, fst (userFollows fetch id ids c) = Ret (Plain (VArr []))) /\
     (forall id image, fst (uploadImage fetch id image c) = Ret (Plain (VBool false))) /\
     (forall id items o,
        fst (addItems fetch id (strings items) o c) = Ret (Plain VNull)) /\
     (forall id items o, is_null o = false ->
        fst (reorderItems fetch id items o c) = Ret (Plain VNull)) /\
     (forall id items sid, fst (removeItems fetch id items sid c) = Ret (Plain VNull)) /\
     (forall id force market, cache_hit id force c = None ->
        fst (get fetch id force market c) = Ret (Plain h)) /\
     (h = VNull -> forall id force market, cache_hit id force c = None ->
        fst (get fetch id force market c) = Ret (Plain VNull))).
Proof.
  intros Hf. cbv zeta.
  destruct (rejected_fetch_handled fetch e c Hf)
    as (H1 & H2 & H3 & H4 & H5 & H6 & H7 & H8 & H9).
  split.
  - repeat split; intros;
      rewrite ?H1, ?H2, ?H3, ?H4, ?H5, ?H6, ?H7, ?H8, ?H9 by assumption;
      reflexivity.
  - intros h Hh Hfalsy.
    assert (Hget : forall id force market, cache_hit id force c = None ->
              fst (get fetch id force market c) = Ret (Plain h)).
    { intros. rewrite H9 by assumption. unfold handler_result. now rewrite Hh. }
    repeat split; intros;
      rewrite ?H1, ?H2, ?H3, ?H4, ?H5, ?H6, ?H7, ?H8 by assumption;
      try (eapply handled_falsy; eassumption).
    + now apply Hget.
    + subst h. now apply Hget.
Qed.

(** *** The request and the result of [search] *)

Lemma spread_lookup (ps : props) : forall acc k,
  NoDup (keys ps) ->
  lookup_prop k (fold_left (fun a kv => set_prop (fst kv) (snd kv) a) ps acc)
  = match lookup_prop k ps with
    | Some v => Some v
    | None => lookup_prop k acc
    end.
Proof.
  induction ps as [|[k' v'] ps IH]; intros acc k Hnd; cbn; [reflexivity|].
  apply NoDup_cons in Hnd as [Hnotin Hnd].
  destruct (String.eqb k k') eqn:E.
  - apply String.eqb_eq in E. subst k'.
    assert (Hnone : lookup_prop k ps = None).
    { clear -Hnotin. induction ps as [|[k2 v2] ps IH]; cbn; auto.
      cbn in Hnotin. apply not_elem_of_cons in Hnotin as [Hne Hnotin].
      destruct (String.eqb k k2) eqn:E; [|auto].
      apply String.eqb_eq in E. congruence. }
    rewrite lookup_fold_set_ne by assumption. apply lookup_set_eq.
  - rewrite IH by assumption. destruct (lookup_prop k ps); [reflexivity|].
    apply lookup_set_ne. intros ->. now rewrite String.eqb_refl in E.
Qed.

(** C5. [search] sends its one request to ['/search'] with the given
    options extended by [type: 'playlist'] and [q: query]; when the answer
    carries a [playlists] envelope whose [items] is an array of payloads
    the constructor accepts, the result is the paging object with the
    envelope's [limit], [offset] and [total] and, as items, the [Playlist]
    objects constructed from the envelope's items, in upstream order. *)
Theorem search_request_and_paging fetch (query : string) (opts : value) (c : client) :
  requests (log (snd (search fetch query opts c)))
    = requests (log c)
      ++ [Request "/search" (VObj [("params", VObj (search_params query opts))])] /\
  lookup_prop "type" (search_params query opts) = Some (VStr "playlist") /\
  lookup_prop "q" (search_params query opts) = Some (VStr query) /\
  (forall k, k <> "type" -> k <> "q" ->
     lookup_prop k (search_params query opts) = lookup_prop k (spread opts [])) /\
  (forall ps k, opts = VObj ps -> NoDup (keys ps) ->
     lookup_prop k (spread opts []) = lookup_prop k ps) /\
  (forall resp data xs ps,
     fetch (search_request query opts) = Ret resp ->
     member resp "playlists" = Ret data ->
     member data "items" = Ret (VArr xs) ->
     constructs xs ps ->
     let out := search fetch query opts c in
     let refs := seq (length (heap c)) (length xs) in
     fst out = Ret (Paging (field data "limit") (field data "offset")
                           (field data "total") refs) /\
     heap (snd out) = heap c ++ ps /\
     (forall i x, xs !! i = Some x ->
        exists r p, refs !! i = Some r /\ Playlist_new x = Ret p /\
                    heap (snd out) !! r = Some p)).
Proof.
  split; [apply (exec_requests fetch (Search query opts) c)|].
  unfold search_params. split; [|split; [|split; [|split]]].
  - rewrite lookup_set_ne by discriminate. apply lookup_set_eq.
  - apply lookup_set_eq.
  - intros k Ht Hq. rewrite !lookup_set_ne by congruence. reflexivity.
  - intros ps k -> Hnd. unfold spread. cbn [own_props].
    rewrite spread_lookup by assumption.
    now destruct (lookup_prop k ps).
  - intros resp data xs ps Hf Hd Hi Hps. cbv zeta. rewrite search_eq.
    unfold search_run, search_envelope. rewrite Hf. cbn [rbind].
    rewrite Hd. cbn [rbind]. rewrite Hi. cbn [rbind as_array].
    rewrite (construct_all _ _ Hps). cbn [fst snd heap].
    rewrite (constructs_length _ _ Hps).
    repeat split.
    intros i x Hx.
    destruct (Forall2_lookup_l _ _ _ _ _ Hps Hx) as (p & Hp & Hnew).
    exists (length (heap c) + i), p. split; [|split; [exact Hnew|]].
    + apply lookup_seq. split; [reflexivity|]. now apply lookup_lt_Some in Hx.
    + rewrite lookup_app_r by lia.
      now replace (length (heap c) + i - length (heap c)) with i by lia.
Qed.

(** *** Falsy options of [reorderItems] and [removeItems] *)

(** The options that survive the pruning, in order. *)
Definition kept (ps : props) : props := filter (fun kv => truthy (snd kv) = true) ps.

Lemma reorder_body_kept rs ib rl sid items :
  reorder_body rs ib rl sid items
  = VObj (kept [("range_start", rs); ("insert_before", ib);
                ("range_length", rl); ("snapshot_id", sid)]
          ++ [("uris", items)]).
Proof.
  unfold reorder_body, prune, kept.
  destruct (truthy rs) eqn:H1, (truthy ib) eqn:H2,
           (truthy rl) eqn:H3, (truthy sid) eqn:H4;
    repeat (progress (cbn; rewrite ?H1, ?H2, ?H3, ?H4));
    reflexivity.
Qed.

Lemma remove_body_kept sid items :
  remove_body sid items
  = VObj (kept [("snapshot_id", sid)] ++ [("tracks", items)]).
Proof.
  unfold remove_body, prune, kept.
  destruct (truthy sid) eqn:H1;
    repeat (progress (cbn; rewrite ?H1));
    reflexivity.
Qed.

Lemma field_set_eq k v ps : field (VObj (set_prop k v ps)) k = v.
Proof. unfold field. cbn. now rewrite lookup_set_eq. Qed.

Lemma field_set_ne k k' v ps :
  k <> k' -> field (VObj (set_prop k v ps)) k' = field (VObj ps) k'.
Proof. intros H. unfold field. cbn. now rewrite lookup_set_ne. Qed.

Lemma field_delete_eq k ps : field (VObj (delete_prop k ps)) k = VUndefined.
Proof. unfold field. cbn. now rewrite lookup_delete_eq. Qed.

Lemma field_delete_ne k k' ps :
  k <> k' -> field (VObj (delete_prop k ps)) k' = field (VObj ps) k'.
Proof. intros H. unfold field. cbn. now rewrite lookup_delete_ne. Qed.

Lemma reorder_body_falsy_start v rs ib rl sid items :
  truthy v = false -> truthy rs = false ->
  reorder_body v ib rl sid items = reorder_body rs ib rl sid items.
Proof.
  intros Hv Hrs. rewrite !reorder_body_kept. unfold kept.
  repeat (progress (cbn; rewrite ?Hv, ?Hrs)). reflexivity.
Qed.

Lemma reorder_body_falsy_before v rs ib rl sid items :
  truthy v = false -> truthy ib = false ->
  reorder_body rs v rl sid items = reorder_body rs ib rl sid items.
Proof.
  intros Hv Hib. rewrite !reorder_body_kept. unfold kept.
  repeat (progress (cbn; rewrite ?Hv, ?Hib)). reflexivity.
Qed.

Lemma reorder_body_falsy_length v rs ib rl sid items :
  truthy v = false -> truthy rl = false ->
  reorder_body rs ib v sid items = reorder_body rs ib rl sid items.
Proof.
  intros Hv Hrl. rewrite !reorder_body_kept. unfold kept.
  repeat (progress (cbn; rewrite ?Hv, ?Hrl)). reflexivity.
Qed.

(** The requests of the two methods hold the truthy options only. *)
Lemma requests_drop_falsy (id : string) (items : value) :
  (forall ps,
     reorderItems_request id items (VObj (set_prop "rangeStart" (VNum 0) ps))
     = reorderItems_request id items (VObj (delete_prop "rangeStart" ps)) /\
     reorderItems_request id items (VObj (set_prop "insertBefore" (VNum 0) ps))
     = reorderItems_request id items (VObj (delete_prop "insertBefore" ps)) /\
     reorderItems_request id items (VObj (set_prop "rangeLength" (VNum 0) ps))
     = reorderItems_request id items (VObj (delete_prop "rangeLength" ps))) /\
  (forall sid, truthy sid = false ->
     removeItems_request id items sid = removeItems_request id items VUndefined).
Proof.
  split.
  - intros ps. unfold reorderItems_request. cbn [default_arg].
    repeat split;
      rewrite field_set_eq, field_delete_eq;
      rewrite !field_set_ne, !field_delete_ne by discriminate.
    + now rewrite (reorder_body_falsy_start (VNum 0) VUndefined).
    + now rewrite (reorder_body_falsy_before (VNum 0) _ VUndefined).
    + now rewrite (reorder_body_falsy_length (VNum 0) _ _ VUndefined).
  - intros sid Hs. unfold removeItems_request.
    rewrite !remove_body_kept. unfold kept.
    repeat (progress (cbn; rewrite ?Hs)). reflexivity.
Qed.

(** C9. The one request [reorderItems] sends has as its body exactly the
    option fields whose value is truthy, followed by the items, and so has
    the one request of [removeItems]; hence a call of [reorderItems] with
    [rangeStart: 0], [insertBefore: 0] or [rangeLength: 0] is the same call
    (same request, same outcome, same client afterwards) as the call with
    an options object without that field, and a call of [removeItems] with
    a falsy [snapshotID] is the same call as the one with none. *)
Theorem falsy_options_dropped fetch (id : string) (items : value)
    (c : client) :
  (forall opts, is_null opts = false ->
     let given := default_arg (VObj []) opts in
     snd (reorderItems fetch id items opts c)
     = traced c
         [EvFetch
            (Request ("/playlists/" +:+ id +:+ "/tracks")
               (VObj [("method", VStr "PUT");
                      ("headers", VObj [("Content-Type", VStr "application/json")]);
                      ("body",
                       VObj (kept [("range_start", field given "rangeStart");
                                   ("insert_before", field given "insertBefore");
                                   ("range_length", field given "rangeLength");
                                   ("snapshot_id", field given "snapshotID")]
                             ++ [("uris", items)]))]))]) /\
  (forall sid,
     snd (removeItems fetch id items sid c)
     = traced c
         [EvFetch
            (Request ("/playlists/" +:+ id +:+ "/tracks")
               (VObj [("method", VStr "DELETE");
                      ("headers", VObj [("Content-Type", VStr "application/json")]);
                      ("body",
                       VObj (kept [("snapshot_id", sid)]
                             ++ [("tracks", items)]))]))]) /\
  (forall ps,
     reorderItems fetch id items (VObj (set_prop "rangeStart" (VNum 0) ps)) c
     = reorderItems fetch id items (VObj (delete_prop "rangeStart" ps)) c /\
     reorderItems fetch id items (VObj (set_prop "insertBefore" (VNum 0) ps)) c
     = reorderItems fetch id items (VObj (delete_prop "insertBefore" ps)) c /\
     reorderItems fetch id items (VObj (set_prop "rangeLength" (VNum 0) ps)) c
     = reorderItems fetch id items (VObj (delete_prop "rangeLength" ps)) c) /\
  (forall sid, truthy sid = false ->
     removeItems fetch id items sid c = removeItems fetch id items VUndefined c).
Proof.
  destruct (requests_drop_falsy id items) as [Hreorder Hremove].
  split; [|split; [|split]].
  - intros opts Hnull. cbv zeta. rewrite reorderItems_eq, Hnull. cbn [snd].
    unfold reorderItems_request. now rewrite reorder_body_kept.
  - intros sid. rewrite removeItems_eq. cbn [snd].
    unfold removeItems_request. now rewrite remove_body_kept.
  - intros ps. destruct (Hreorder ps) as (H1 & H2 & H3).
    rewrite !reorderItems_eq. cbn [is_null]. now rewrite H1, H2, H3.
  - intros sid Hs. rewrite !removeItems_eq. now rewrite (Hremove sid Hs).
Qed.

(** *** The two versions of the manager *)

Lemma tracks_versions data (xs : list PlaylistTrackType) :
  tracks_array data = Ret (Items xs)
  <-> exists l o t, tracks_paging data = Ret (Paging l o t xs).
Proof.
  unfold tracks_array, tracks_paging.
  destruct (items_envelope data) as [[d ys]|e]; cbn [rbind fst snd].
  - split.
    + intros [= <-]. eauto.
    + intros (l & o & t & [= _ _ _ <-]). reflexivity.
  - split; [discriminate|]. now intros (l & o & t & ?).
Qed.

(** C10. The two versions of [get] are the same function of the id, the
    force flag, the market, the upstream's answer and the client: same
    outcome, same client afterwards (cache, objects, trace of requests).
    The two versions of [getTracks] send the same request and leave the
    same client, and the earlier one resolves with an array exactly when
    the later one resolves with a paging object whose items are that
    array; in the remaining cases both give the handler's value or both
    reject with the same error. *)
Theorem versions_agree fetch (c : client) :
  (forall id force market,
     old_get fetch id force market c = get fetch id force market c) /\
  (forall id, old_getImages fetch id c = getImages fetch id c) /\
  (forall id opts,
     snd (old_getTracks fetch id opts c) = snd (getTracks fetch id opts c) /\
     (forall xs,
        fst (old_getTracks fetch id opts c) = Ret (Items xs)
        <-> exists l o t,
            fst (getTracks fetch id opts c) = Ret (Paging l o t xs)) /\
     (forall h,
        fst (old_getTracks fetch id opts c) = Ret (Plain h)
        <-> fst (getTracks fetch id opts c) = Ret (Plain h)) /\
     (forall e,
        fst (old_getTracks fetch id opts c) = Exn e
        <-> fst (getTracks fetch id opts c) = Exn e)).
Proof.
  split; [intros; now rewrite old_get_eq, get_eq|].
  split; [intros; now rewrite old_getImages_eq, getImages_eq|].
  intros id opts. rewrite old_getTracks_eq, getTracks_eq. cbn [fst snd].
  split; [reflexivity|].
  destruct (fetch (getTracks_request id opts)) as [data|e0]; cbn [rbind].
  - pose proof (tracks_versions data) as Hv.
    unfold tracks_array, tracks_paging in *.
    destruct (items_envelope data) as [[d ys]|e1]; cbn [rbind settle fst snd] in *.
    + repeat split; try discriminate; try apply Hv.
    + clear Hv. unfold handled, empty_paging.
      destruct (handleError e1) as [h|e2]; [destruct (truthy h)|];
        repeat split; try discriminate; try congruence;
        try (intros (l & o & t & ?); congruence);
        try (intros [= <-]; eauto).
  - cbn [settle]. unfold handled, empty_paging.
    destruct (handleError e0) as [h|e2]; [destruct (truthy h)|];
      repeat split; try discriminate; try congruence;
      try (intros (l & o & t & ?); congruence);
      try (intros [= <-]; eauto).
Qed.

(** *** Round trips through the cache *)

(** Where an entry of the cache after the loop of [search] comes from. *)
Lemma cache_from_origin ps : forall r (m : gmap string ref) k x,
  cache_from r ps m !! k = Some x ->
  m !! k = Some x \/
  exists j q, x = r + j /\ ps !! j = Some q /\ Playlist_id q = k.
Proof.
  induction ps as [|p ps IH]; intros r m k x; cbn [cache_from]; [auto|].
  intros H. apply IH in H as [H|(j & q & -> & Hq & Hid)].
  - rewrite lookup_insert in H. case_decide as Hk; [|auto].
    injection H as <-. right. exists 0, p. rewrite Nat.add_0_r. auto.
  - right. exists (S j), q. split; [lia|auto].
Qed.

(** Every object of the loop ends up shadowed by one with the same id
    that is at least as late. *)
Lemma cache_from_lookup ps : forall r (m : gmap string ref) i p,
  ps !! i = Some p ->
  exists j q, cache_from r ps m !! Playlist_id p = Some (r + j) /\
              ps !! j = Some q /\ Playlist_id q = Playlist_id p /\ i <= j.
Proof.
  induction ps as [|p0 ps IH]; intros r m i p Hp; [discriminate|].
  destruct i as [|i]; cbn in Hp; cbn [cache_from].
  - injection Hp as ->.
    assert (Hsome : is_Some (cache_from (S r) ps (<[Playlist_id p:=r]> m)
                               !! Playlist_id p)).
    { apply elem_of_dom. apply (cache_from_dom ps (S r)).
      rewrite dom_insert_L. set_solver. }
    destruct Hsome as [x Hx]. rewrite Hx.
    apply cache_from_origin in Hx as [H|(j & q & -> & Hq & Hid)].
    + rewrite lookup_insert_eq in H. injection H as <-.
      exists 0, p. rewrite Nat.add_0_r. auto with lia.
    + exists (S j), q. replace (r + S j) with (S r + j) by lia.
      repeat split; auto; lia.
  - destruct (IH (S r) (<[Playlist_id p0:=r]> m) i p Hp)
      as (j & q & H1 & H2 & H3 & H4).
    exists (S j), q. replace (r + S j) with (S r + j) by lia.
    repeat split; auto; lia.
Qed.

(** X1. With caching on, a [get] that goes upstream and is answered with
    a playlist carrying the requested id makes the next unforced [get] of
    that id return the very same object, without a request and without
    any change to the client. *)
Theorem get_then_get fetch fetch' (id : string) (force : option bool)
    (market market' : option string) (resp : value) (p : Playlist)
    (c : client) :
  cachePlaylists c = true ->
  cache_hit id force c = None ->
  fetch (get_request id market) = Ret resp ->
  Playlist_new resp = Ret p ->
  Playlist_id p = id ->
  let first := get fetch id force market c in
  fst first = Ret (Entity (length (heap c))) /\
  heap (snd first) !! length (heap c) = Some p /\
  get fetch' id None market' (snd first)
    = (Ret (Entity (length (heap c))), snd first) /\
  get fetch' id (Some false) market' (snd first)
    = (Ret (Entity (length (heap c))), snd first).
Proof.
  intros Hflag Hmiss Hfetch Hnew Hid. cbv zeta.
  assert (Hfirst : get fetch id force market c
                   = (Ret (Entity (length (heap c))),
                      Client true (<[id := length (heap c)]> (playlists c))
                             (heap c ++ [p])
                             (log c ++ [EvFetch (get_request id market);
                                        EvCacheSet id (length (heap c))]))).
  { rewrite get_eq. unfold get_run. unfold cache_hit in Hmiss.
    rewrite Hmiss, Hfetch. cbn [rbind]. now rewrite Hnew, Hflag, Hid. }
  rewrite Hfirst. cbn [fst snd heap].
  split; [reflexivity|]. split.
  { rewrite lookup_app_r by lia. now rewrite Nat.sub_diag. }
  split; rewrite get_eq; unfold get_run;
    cbn [cachePlaylists playlists heap log negb default fst snd];
    now rewrite lookup_insert_eq.
Qed.

(** X2. The cache is keyed by the id of the answer, not by the id that
    was asked for: when upstream answers [get(id)] with a playlist of
    another id, the object is stored under that other id, and the next
    unforced [get(id)] goes upstream again. *)
Theorem get_keyed_by_answer fetch fetch' (id : string) (force : option bool)
    (market market' : option string) (resp : value) (p : Playlist)
    (c : client) :
  cachePlaylists c = true ->
  playlists c !! id = None ->
  fetch (get_request id market) = Ret resp ->
  Playlist_new resp = Ret p ->
  Playlist_id p <> id ->
  let c1 := snd (get fetch id force market c) in
  playlists c1 !! Playlist_id p = Some (length (heap c)) /\
  playlists c1 !! id = None /\
  requests (log (snd (get fetch' id None market' c1)))
    = requests (log c1) ++ [get_request id market'].
Proof.
  intros Hflag Hmiss Hfetch Hnew Hid. cbv zeta.
  assert (Hc1 : snd (get fetch id force market c)
                = Client true (<[Playlist_id p := length (heap c)]> (playlists c))
                         (heap c ++ [p])
                         (log c ++ [EvFetch (get_request id market);
                                    EvCacheSet (Playlist_id p) (length (heap c))])).
  { rewrite get_eq. unfold get_run. rewrite Hmiss.
    destruct (default (negb (cachePlaylists c)) force);
      rewrite Hfetch; cbn [rbind]; now rewrite Hnew, Hflag. }
  rewrite Hc1. cbn [playlists].
  split; [apply lookup_insert_eq|].
  assert (Hnone : <[Playlist_id p := length (heap c)]> (playlists c) !! id = None)
    by (now rewrite lookup_insert_ne).
  split; [exact Hnone|].
  rewrite get_requests. unfold cache_hit.
  cbn [cachePlaylists playlists heap log negb default]. now rewrite Hnone.
Qed.

(** X3. With caching on, every playlist a successful [search] returns can
    afterwards be had from the cache: an unforced [get] of its id sends no
    request and returns an object of that search with that id (the last
    one, when the answer lists the id more than once). *)
Theorem search_then_get fetch fetch' (query : string) (opts : value)
    (market : option string) (resp data : value) (xs : list value)
    (ps : list Playlist) (i : nat) (p : Playlist) (c : client) :
  cachePlaylists c = true ->
  fetch (search_request query opts) = Ret resp ->
  member resp "playlists" = Ret data ->
  member data "items" = Ret (VArr xs) ->
  constructs xs ps ->
  ps !! i = Some p ->
  let c1 := snd (search fetch query opts c) in
  exists j q,
    ps !! j = Some q /\ i <= j /\
    Playlist_id q = Playlist_id p /\
    heap c1 !! (length (heap c) + j) = Some q /\
    get fetch' (Playlist_id p) None market c1
      = (Ret (Entity (length (heap c) + j)), c1).
Proof.
  intros Hflag Hfetch Hdata Hitems Hps Hp. cbv zeta.
  rewrite search_eq. unfold search_run, search_envelope.
  rewrite Hfetch. cbn [rbind]. rewrite Hdata. cbn [rbind].
  rewrite Hitems. cbn [rbind as_array]. rewrite (construct_all _ _ Hps).
  cbn [fst snd]. rewrite Hflag.
  destruct (cache_from_lookup ps (length (heap c)) (playlists c) i _ Hp)
    as (j & q & Hc & Hq & Hid & Hle).
  exists j, q. repeat split; auto.
  - cbn [heap]. rewrite lookup_app_r by lia.
    now replace (length (heap c) + j - length (heap c)) with j by lia.
  - rewrite get_eq. unfold get_run.
    cbn [cachePlaylists playlists heap log negb default]. now rewrite Hc.
Qed.

(** X4. With caching off, [get] called without [force] never looks at the
    cache and never writes to it: it always sends its request, even for an
    id the cache holds.  When the constructor accepts the answer, the call
    hands back the newly constructed object; when the constructor throws,
    no object is added and the handler decides the outcome. *)
Theorem get_without_caching fetch (id : string) (market : option string)
    (c : client) :
  cachePlaylists c = false ->
  let out := get fetch id None market c in
  requests (log (snd out)) = requests (log c) ++ [get_request id market] /\
  playlists (snd out) = playlists c /\
  (forall resp p,
     fetch (get_request id market) = Ret resp -> Playlist_new resp = Ret p ->
     fst out = Ret (Entity (length (heap c))) /\
     heap (snd out) = heap c ++ [p]) /\
  (forall resp e,
     fetch (get_request id market) = Ret resp -> Playlist_new resp = Exn e ->
     fst out = match handleError e with
               | Ret h => Ret (Plain h)
               | Exn thrown => Exn thrown
               end /\
     heap (snd out) = heap c).
Proof.
  intros Hflag. cbv zeta. rewrite get_requests, get_eq.
  unfold cache_hit, get_run. rewrite Hflag. cbn [negb default].
  split; [reflexivity|].
  split.
  { destruct (rbind _ _); reflexivity. }
  split.
  - intros resp p -> Hnew. cbn [rbind]. now rewrite Hnew.
  - intros resp e -> Hnew. cbn [rbind]. now rewrite Hnew.
Qed.

(** *** Methods that have nothing to do with the cache *)

Definition uses_cache (o : op) : bool :=
  match o with
  | Search _ _ | Get _ _ _ | OldGet _ _ _ => true
  | _ => false
  end.

(** X5. Only [get] and [search] construct playlists or touch the cache:
    every other method leaves [cache.playlists], the existing objects and
    [cacheOptions] exactly as they were, whatever upstream answers. *)
Theorem other_methods_leave_cache fetch (o : op) (c : client) :
  uses_cache o = false ->
  playlists (exec fetch o c) = playlists c /\
  heap (exec fetch o c) = heap c /\
  cachePlaylists (exec fetch o c) = cachePlaylists c /\
  log (exec fetch o c) = log c ++ map EvFetch (sent o c).
Proof.
  intros Ho. destruct o; try discriminate; cbn [exec sent];
    rewrite ?getTracks_eq, ?getImages_eq, ?userFollows_eq, ?addItems_run,
            ?removeItems_eq, ?uploadImage_eq, ?old_getTracks_eq,
            ?old_getImages_eq, ?reorderItems_eq;
    try (now repeat split).
  - destruct (join_of items); cbn; rewrite ?app_nil_r; now repeat split.
  - destruct (is_null opts); cbn; rewrite ?app_nil_r; now repeat split.
Qed.

(** *** The handler has the last word *)

Lemma handled_throws {E} (d : jsret E) e e' :
  handleError e = Exn e' -> handled d e = Exn e'.
Proof. unfold handled. now intros ->. Qed.

Lemma handled_truthy {E} (d : jsret E) e h :
  handleError e = Ret h -> truthy h = true -> handled d e = Ret (Plain h).
Proof. unfold handled. now intros -> ->. Qed.

(** X6. When the request is rejected with [e], a handler that throws
    makes every method reject with what it threw, and a handler that
    returns a truthy value makes every method resolve with that value
    instead of its own default. *)
Theorem handler_decides fetch (e : error) (c : client) :
  (forall req, fetch req = Exn e) ->
  forall out : res value,
    handleError e = out ->
    match out with Ret h => truthy h = true | Exn _ => True end ->
    let expect {E} : res (jsret E) :=
      match out with Ret h => Ret (Plain h) | Exn e' => Exn e' end in
    (forall q o, fst (search fetch q o c) = expect) /\
    (forall id o, fst (getTracks fetch id o c) = expect) /\
    (forall id o, fst (old_getTracks fetch id o c) = expect) /\
    (forall id, fst (getImages fetch id c) = expect) /\
    (forall id ids, fst (userFollows fetch id ids c) = expect) /\
    (forall id image, fst (uploadImage fetch id image c) = expect) /\
    (forall id items o, fst (addItems fetch id (strings items) o c) = expect) /\
    (forall id items o, is_null o = false ->
       fst (reorderItems fetch id items o c) = expect) /\
    (forall id items sid, fst (removeItems fetch id items sid c) = expect) /\
    (forall id force market, cache_hit id force c = None ->
       fst (get fetch id force market c) = expect).
Proof.
  intros Hf out Hout Hok. cbv zeta.
  destruct (rejected_fetch_handled fetch e c Hf)
    as (H1 & H2 & H3 & H4 & H5 & H6 & H7 & H8 & H9).
  assert (Hd : forall E (d : jsret E),
            handled d e = match out with
                          | Ret h => Ret (Plain h)
                          | Exn e' => Exn e'
                          end).
  { intros E d. destruct out as [h|e'].
    - now apply handled_truthy.
    - now apply handled_throws. }
  repeat split; intros;
    rewrite ?H1, ?H2, ?H3, ?H4, ?H5, ?H6, ?H7, ?H8 by assumption;
    try apply Hd.
  - rewrite (old_getTracks_rejected fetch e) by assumption. apply Hd.
  - rewrite H9 by assumption. unfold handler_result. rewrite Hout.
    now destruct out.
Qed.

(** *** [getTracks] *)

(** X7. [getTracks] sends the options it was given as the parameters of
    its request, and [{market: 'US'}] only when it was given none at all
    (an options object without [market] sends no market); when the answer
    holds an [items] array the current version resolves with the paging
    object of the answer's [limit], [offset] and [total] and the tracks in
    upstream order, the earlier version with the bare array; neither
    touches the cache. *)
Theorem getTracks_request_and_paging fetch (id : string) (opts : value)
    (c : client) :
  let out := getTracks fetch id opts c in
  let params := match opts with
                | VUndefined => VObj [("market", VStr "US")]
                | _ => opts
                end in
  let req := Request ("/playlists/" +:+ id +:+ "/tracks") (VObj [("params", params)]) in
  snd out = traced c [EvFetch req] /\
  snd (old_getTracks fetch id opts c) = traced c [EvFetch req] /\
  (forall data xs,
     fetch req = Ret data ->
     member data "items" = Ret (VArr xs) ->
     fst out = Ret (Paging (field data "limit") (field data "offset")
                           (field data "total") (map PlaylistTrack xs)) /\
     fst (old_getTracks fetch id opts c) = Ret (Items (map PlaylistTrack xs))).
Proof.
  cbv zeta. rewrite getTracks_eq, old_getTracks_eq.
  unfold getTracks_request, default_arg. cbn [fst snd].
  split; [reflexivity|]. split; [reflexivity|].
  intros data xs Hf Hitems. rewrite Hf. cbn [rbind].
  unfold tracks_paging, tracks_array, items_envelope.
  rewrite Hitems. cbn. split; reflexivity.
Qed.

(** *** The snapshot id of the modifying methods *)

(** X8. [addItems], [reorderItems] and [removeItems] resolve with the
    [snapshot_id] of the answer; when the answer is an object without one
    they resolve with [undefined] (the handler and its [null] are not
    involved), and when the answer is [null] the [TypeError] of reading
    the property goes to the handler. *)
Theorem snapshot_results fetch (id : string) (items : list string) (c : client) :
  let snapshot ps := Ret (Plain (default VUndefined (lookup_prop "snapshot_id" ps))) in
  (forall opts ps, fetch (addItems_request id items opts) = Ret (VObj ps) ->
     fst (addItems fetch id (strings items) opts c) = snapshot ps) /\
  (forall opts ps, is_null opts = false ->
     fetch (reorderItems_request id (strings items) opts) = Ret (VObj ps) ->
     fst (reorderItems fetch id (strings items) opts c) = snapshot ps) /\
  (forall sid ps, fetch (removeItems_request id (strings items) sid) = Ret (VObj ps) ->
     fst (removeItems fetch id (strings items) sid c) = snapshot ps) /\
  (forall opts, fetch (addItems_request id items opts) = Ret VNull ->
     fst (addItems fetch id (strings items) opts c)
     = handled (Plain VNull) TypeError) /\
  (forall opts, is_null opts = false ->
     fetch (reorderItems_request id (strings items) opts) = Ret VNull ->
     fst (reorderItems fetch id (strings items) opts c) = handled (Plain VNull) TypeError) /\
  (forall sid, fetch (removeItems_request id (strings items) sid) = Ret VNull ->
     fst (removeItems fetch id (strings items) sid c) = handled (Plain VNull) TypeError).
Proof.
  cbv zeta. repeat split; intros;
    rewrite ?addItems_eq, ?reorderItems_eq, ?removeItems_eq;
    repeat match goal with
           | H : is_null _ = false |- _ => rewrite H; clear H
           | H : fetch _ = _ |- _ => rewrite H; clear H
           end; reflexivity.
Qed.

End Managers.
End Managers.

(* ===================================================================== *)
(** ** The legacy library: [lib/Artist.ts] and [dist/Client.js] *)
(* ===================================================================== *)

Module Legacy.
Import JS Eff Eff.Notations.

Abbreviation ref := nat (only parsing).

(** The managers [Client.getByURI] dispatches to. *)
Inductive manager : Type := Albums | Artists | Episodes | Shows.

(** Observable effects, in order: a call of [Spotify.fetch], a call of
    [Spotify.getCodeImage], an assignment to a property of an entity
    object, a call of a manager's [get]. *)
Inductive event : Type :=
| EvFetch (req : value)
| EvCodeImage (uri : value)
| EvWrite (r : ref) (k : string) (v : value)
| EvGet (m : manager) (id : value).

Definition fetches (l : list event) : list value :=
  omap (fun ev => match ev with EvFetch r => Some r | _ => None end) l.

(** What the block under [options.advanced] leaves in the trace: calls of
    [getCodeImage] and assignments to entity objects. *)
Definition annotations (l : list event) : list event :=
  omap (fun ev => match ev with
                  | EvCodeImage _ | EvWrite _ _ _ => Some ev
                  | _ => None
                  end) l.

(** The entity objects allocated so far (an object is its own properties)
    and the trace. *)
Record world : Type := World { heap : list props; log : list event }.

Abbreviation M := (@Eff.M world).

(** The promise built by [new Promise((resolve, reject) => ..)]: pending,
    or settled once and for all by the first [resolve] or [reject]. *)
Definition promise (A : Type) : Type := option (res A).

Definition resolve {A} (v : A) (p : promise A) : promise A :=
  match p with None => Some (Ret v) | Some _ => p end.

Definition reject {A} (e : error) (p : promise A) : promise A :=
  match p with None => Some (Exn e) | Some _ => p end.

(** What the methods of [Artist] resolve with: one entity or an array. *)
Inductive entities : Type :=
| One (r : ref)
| Many (rs : list ref).

Section Artist.

(** [Spotify.fetch], [Spotify.getCodeImage], the builtin
    [encodeURIComponent] (which throws on a lone surrogate) and the
    constructors of [structures/] are not part of the sources. *)
Variable fetch : value -> res value.
Variable getCodeImage : value -> res value.
Variable encodeURIComponent : string -> res string.
Variable ArtistStructure : value -> props.
Variable SimplifiedAlbum : value -> props.
Variable Track : value -> props.

Definition do_fetch (req : value) : M value :=
  fun w => (fetch req, World (heap w) (log w ++ [EvFetch req])).

Definition do_getCodeImage (uri : value) : M value :=
  fun w => (getCodeImage uri, World (heap w) (log w ++ [EvCodeImage uri])).

(** [new C(x)] *)
Definition new_object (o : props) : M ref :=
  fun w => (Ret (length (heap w)), World (heap w ++ [o]) (log w)).

(** [o.k] and [o.k = v] through a reference. *)
Definition read_prop (r : ref) (k : string) : M value :=
  fun w => match heap w !! r with
           | Some o => (Ret (default VUndefined (lookup_prop k o)), w)
           | None => (Exn TypeError, w)
           end.

Definition write_prop (r : ref) (k : string) (v : value) : M unit :=
  fun w => match heap w !! r with
           | Some o => (Ret tt, World (<[r := set_prop k v o]> (heap w))
                                      (log w ++ [EvWrite r k v]))
           | None => (Exn TypeError, w)
           end.

(** The three statements under [if (options.advanced)], for one entity. *)
Definition annotate (r : ref) : M unit :=
  uri <- read_prop r "uri" ;;
  data <- do_getCodeImage uri ;;
  image <- lift (member data "image") ;;
  write_prop r "codeImage" image ;;;
  color <- lift (member data "dominantColor") ;;
  write_prop r "dominantColor" color.

(** [let items = arr.map(x => new C(x)); if (options.advanced) { for .. };
    resolve(items)], the block the four listing methods share. *)
Definition build_list (C : value -> props) (options arr : value)
    (p : promise entities) : M (promise entities) :=
  xs <- lift (as_array arr) ;;
  items <- mapM (fun x => new_object (C x)) xs ;;
  advanced <- lift (member options "advanced") ;;
  (if truthy advanced then forM_ items annotate else ret tt) ;;;
  ret (resolve (Many items) p).

(** [if (!arg) reject(new MissingParamError(msg))]: no [return] follows. *)
Definition check_param (arg msg : string) : promise entities :=
  if truthy (VStr arg) then None else reject (MissingParamError msg) None.

(** [catch (e) { reject(new UnexpectedError(e)) }] *)
Definition on_error {A} (p : promise A) (e : error) : M (promise A) :=
  ret (reject (UnexpectedError e) p).

Definition search (q : string) (options : value) : M (promise entities) :=
  let options := default_arg (VObj [("limit", VNum 20)]) options in
  let p := check_param q "missing query" in
  try_catch
    (q' <- lift (encodeURIComponent q) ;;
     limit <- lift (member options "limit") ;;
     params <- lift (member options "params") ;;
     res <- do_fetch
       (VObj [("link", VStr "v1/search");
              ("params",
               VObj (spread params [("q", VStr q'); ("type", VStr "artist");
                                    ("market", VStr "US"); ("limit", limit)]))]) ;;
     artists <- lift (member res "artists") ;;
     arr <- lift (member artists "items") ;;
     build_list ArtistStructure options arr p)
    (on_error p).

Definition get (id : string) (options : value) : M (promise entities) :=
  let options := default_arg (VObj []) options in
  let p := check_param id "missing id" in
  try_catch
    (res <- do_fetch (VObj [("link", VStr ("v1/artists/" +:+ id))]) ;;
     data <- new_object (ArtistStructure res) ;;
     advanced <- lift (member options "advanced") ;;
     (if truthy advanced then annotate data else ret tt) ;;;
     ret (resolve (One data) p))
    (on_error p).

Definition getAlbums (id : string) (options : value) : M (promise entities) :=
  let options := default_arg (VObj [("limit", VNum 20)]) options in
  let p := check_param id "missing id" in
  try_catch
    (limit <- lift (member options "limit") ;;
     params <- lift (member options "params") ;;
     res <- do_fetch
       (VObj [("link", VStr ("v1/artists/" +:+ id +:+ "/albums"));
              ("params",
               VObj (spread params [("limit", limit); ("market", VStr "US");
                                    ("include_groups", VStr "single")]))]) ;;
     arr <- lift (member res "items") ;;
     build_list SimplifiedAlbum options arr p)
    (on_error p).

Definition topTracks (id : string) (options : value) : M (promise entities) :=
  let options := default_arg (VObj []) options in
  let p := check_param id "missing id" in
  try_catch
    (params <- lift (member options "params") ;;
     res <- do_fetch
       (VObj [("link", VStr ("v1/artists/" +:+ id +:+ "/top-tracks"));
              ("params", VObj (spread params [("country", VStr "US")]))]) ;;
     arr <- lift (member res "tracks") ;;
     build_list Track options arr p)
    (on_error p).

Definition relatedArtists (id : string) (options : value) : M (promise entities) :=
  let options := default_arg (VObj []) options in
  let p := check_param id "missing id" in
  try_catch
    (res <- do_fetch
       (VObj [("link", VStr ("v1/artists/" +:+ id +:+ "/related-artists"));
              ("params", VObj [("country", VStr "US")])]) ;;
     arr <- lift (member res "artists") ;;
     build_list ArtistStructure options arr p)
    (on_error p).

(** The five methods as one family. *)
Inductive artist_op : Type :=
| ASearch (q : string) (options : value)
| AGet (id : string) (options : value)
| AGetAlbums (id : string) (options : value)
| ATopTracks (id : string) (options : value)
| ARelatedArtists (id : string) (options : value).

Definition call (o : artist_op) : M (promise entities) :=
  match o with
  | ASearch q options => search q options
  | AGet id options => get id options
  | AGetAlbums id options => getAlbums id options
  | ATopTracks id options => topTracks id options
  | ARelatedArtists id options => relatedArtists id options
  end.

(** The required argument of a call and the message of its check. *)
Definition required (o : artist_op) : string :=
  match o with
  | ASearch q _ => q
  | AGet id _ | AGetAlbums id _ | ATopTracks id _ | ARelatedArtists id _ => id
  end.

Definition missing_message (o : artist_op) : string :=
  match o with
  | ASearch _ _ => "missing query"
  | _ => "missing id"
  end.

(** The options object of a call, after the default. *)
Definition options_of (o : artist_op) : value :=
  match o with
  | ASearch _ options | AGetAlbums _ options =>
      default_arg (VObj [("limit", VNum 20)]) options
  | AGet _ options | ATopTracks _ options | ARelatedArtists _ options =>
      default_arg (VObj []) options
  end.

(** *** What the shared block does *)

(** Between [w] and [w'] the first [L] objects stayed as they were and no
    request was made. *)
Record quiet (L : nat) (w w' : world) : Prop := {
  quiet_take : take L (heap w') = take L (heap w);
  quiet_len : length (heap w) <= length (heap w');
  quiet_fetches : fetches (log w') = fetches (log w)
}.

Lemma quiet_refl L w : quiet L w w.
Proof. split; auto. Qed.

Lemma quiet_trans L w1 w2 w3 : quiet L w1 w2 -> quiet L w2 w3 -> quiet L w1 w3.
Proof. intros [A1 A2 A3] [B1 B2 B3]. split; [congruence|lia|congruence]. Qed.

Lemma fetches_app l1 l2 : fetches (l1 ++ l2) = fetches l1 ++ fetches l2.
Proof. unfold fetches. apply omap_app. Qed.

Lemma annotations_app l1 l2 : annotations (l1 ++ l2) = annotations l1 ++ annotations l2.
Proof. unfold annotations. apply omap_app. Qed.

Lemma read_prop_quiet r k w (Q : res value -> world -> Prop) :
  (forall x, Q x w) -> sat (read_prop r k) w Q.
Proof. intros H. unfold sat, read_prop. destruct (heap w !! r); apply H. Qed.

Lemma write_prop_quiet L r k v w :
  L <= r -> sat (write_prop r k v) w (fun _ w' => quiet L w w').
Proof.
  intros Hr. unfold sat, write_prop.
  destruct (heap w !! r); cbn [snd]; [|apply quiet_refl].
  split; cbn [heap log].
  - now apply take_insert_ge.
  - now rewrite length_insert.
  - rewrite fetches_app. cbn. now rewrite app_nil_r.
Qed.

Lemma annotate_quiet L r w :
  L <= r -> sat (annotate r) w (fun _ w' => quiet L w w').
Proof.
  intros Hr. unfold annotate.
  apply sat_bind, read_prop_quiet. intros [uri|e]; [|apply quiet_refl].
  apply sat_bind. unfold sat at 1, do_getCodeImage. cbn [fst snd].
  set (w1 := World (heap w) (log w ++ [EvCodeImage uri])).
  assert (H1 : quiet L w w1).
  { split; cbn; auto. rewrite fetches_app. cbn. now rewrite app_nil_r. }
  destruct (getCodeImage uri) as [data|e]; [|exact H1].
  apply sat_bind, sat_lift. destruct (member data "image") as [image|e]; [|exact H1].
  apply sat_bind.
  eapply sat_mono; [apply (write_prop_quiet L); exact Hr|].
  intros r1 w2 H2. cbn beta.
  assert (H12 : quiet L w w2) by (eapply quiet_trans; eassumption).
  destruct r1 as [[]|e]; [|exact H12].
  apply sat_bind, sat_lift.
  destruct (member data "dominantColor") as [color|e]; [|exact H12].
  eapply sat_mono; [apply (write_prop_quiet L); exact Hr|].
  intros r3 w3 H3. cbn beta. eapply quiet_trans; eassumption.
Qed.

Lemma forM_annotate_quiet L rs : forall w,
  Forall (fun r => L <= r) rs ->
  sat (forM_ rs annotate) w (fun _ w' => quiet L w w').
Proof.
  induction rs as [|r rs IH]; intros w Hall; cbn [forM_].
  - apply sat_ret, quiet_refl.
  - apply Forall_cons in Hall as [Hr Hall].
    apply sat_bind. eapply sat_mono; [apply annotate_quiet; exact Hr|].
    intros r1 w1 H1. cbn beta. destruct r1 as [[]|e]; [|exact H1].
    eapply sat_mono; [apply IH; exact Hall|].
    intros r2 w2 H2. cbn beta. eapply quiet_trans; eassumption.
Qed.

Lemma mapM_new_object (C : value -> props) xs : forall w,
  mapM (fun x => new_object (C x)) xs w
  = (Ret (seq (length (heap w)) (length xs)),
     World (heap w ++ map C xs) (log w)).
Proof.
  induction xs as [|x xs IH]; intros w; cbn [mapM map length seq].
  - unfold ret. rewrite app_nil_r. now destruct w.
  - unfold bind at 1. unfold new_object at 1. unfold bind at 1.
    rewrite IH. cbn [heap log]. unfold ret. rewrite length_app. cbn [length].
    rewrite Nat.add_1_r, <- app_assoc. reflexivity.
Qed.

(** The shared block settles the promise when it completes; it leaves the
    objects that existed before alone and makes no request; and without
    [options.advanced] it only constructs. *)
Definition built (C : value -> props) (options : value) (p : promise entities)
    (w : world) (r : res (promise entities)) (w' : world) : Prop :=
  (forall a, r = Ret a -> exists items, a = resolve (Many items) p) /\
  quiet (length (heap w)) w w' /\
  (truthy (field options "advanced") = false ->
     annotations (log w') = annotations (log w) /\
     exists xs, heap w' = heap w ++ map C xs).

Lemma quiet_alloc w fresh :
  quiet (length (heap w)) w (World (heap w ++ fresh) (log w)).
Proof.
  split; cbn [heap log]; auto.
  - now rewrite take_app_length, take_ge.
  - rewrite length_app. lia.
Qed.

Lemma build_list_spec C options arr p w :
  sat (build_list C options arr p) w (built C options p w).
Proof.
  unfold build_list. apply sat_bind, sat_lift.
  destruct (as_array arr) as [xs|e].
  2:{ split; [discriminate|]. split; [apply quiet_refl|].
      intros _. split; auto. exists []. cbn. now rewrite app_nil_r. }
  apply sat_bind. unfold sat at 1. rewrite mapM_new_object. cbn [fst snd].
  set (w1 := World (heap w ++ map C xs) (log w)).
  assert (H1 : quiet (length (heap w)) w w1) by apply quiet_alloc.
  apply sat_bind, sat_lift.
  destruct (member options "advanced") as [adv|e] eqn:Hadv.
  2:{ split; [discriminate|]. split; [exact H1|]. intros _. cbn. eauto. }
  assert (Hf : field options "advanced" = adv) by (unfold field; now rewrite Hadv).
  apply sat_bind. destruct (truthy adv) eqn:Ht.
  - eapply sat_mono.
    { apply (forM_annotate_quiet (length (heap w))).
      apply Forall_seq. intros; lia. }
    intros r2 w2 H2. cbn beta.
    assert (H12 : quiet (length (heap w)) w w2) by (eapply quiet_trans; eassumption).
    destruct r2 as [[]|e].
    + apply sat_ret. split; [intros a [= <-]; eauto|]. split; [exact H12|].
      rewrite Hf, Ht. discriminate.
    + split; [discriminate|]. split; [exact H12|].
      rewrite Hf, Ht. discriminate.
  - apply sat_ret, sat_ret. split; [intros a [= <-]; eauto|].
    split; [exact H1|]. intros _. cbn. eauto.
Qed.

(** *** What a call of an [Artist] method does *)

Definition encoded (q : string) : string :=
  match encodeURIComponent q with
  | Ret q' => q'
  | Exn _ => ""
  end.

(** The request a call makes once it gets as far as [this.fetch]. *)
Definition request_of (o : artist_op) : value :=
  let options := options_of o in
  match o with
  | ASearch q _ =>
      VObj [("link", VStr "v1/search");
            ("params",
             VObj (spread (field options "params")
                     [("q", VStr (encoded q)); ("type", VStr "artist");
                      ("market", VStr "US"); ("limit", field options "limit")]))]
  | AGet id _ => VObj [("link", VStr ("v1/artists/" +:+ id))]
  | AGetAlbums id _ =>
      VObj [("link", VStr ("v1/artists/" +:+ id +:+ "/albums"));
            ("params",
             VObj (spread (field options "params")
                     [("limit", field options "limit"); ("market", VStr "US");
                      ("include_groups", VStr "single")]))]
  | ATopTracks id _ =>
      VObj [("link", VStr ("v1/artists/" +:+ id +:+ "/top-tracks"));
            ("params",
             VObj (spread (field options "params") [("country", VStr "US")]))]
  | ARelatedArtists id _ =>
      VObj [("link", VStr ("v1/artists/" +:+ id +:+ "/related-artists"));
            ("params", VObj [("country", VStr "US")])]
  end.

(** Whether the arguments of the request evaluate: [encodeURIComponent(q)]
    returns, and [options] is not [null] where it is read first. *)
Definition reaches_fetch (o : artist_op) : bool :=
  match o with
  | ASearch q options =>
      match encodeURIComponent q with
      | Ret _ => negb (is_null options)
      | Exn _ => false
      end
  | AGetAlbums _ options | ATopTracks _ options => negb (is_null options)
  | AGet _ _ | ARelatedArtists _ _ => true
  end.

(** An object as one of the three constructors leaves it. *)
Definition constructed (x : props) : Prop :=
  exists v, x = ArtistStructure v \/ x = SimplifiedAlbum v \/ x = Track v.

(** The promise a call starts from. *)
Definition initial (o : artist_op) : promise entities :=
  check_param (required o) (missing_message o).

Definition call_post (o : artist_op) (w : world)
    (r : res (promise entities)) (w' : world) : Prop :=
  ((exists v, r = Ret (resolve v (initial o))) \/
   (exists e, r = Ret (reject (UnexpectedError e) (initial o)))) /\
  fetches (log w')
    = fetches (log w) ++ (if reaches_fetch o then [request_of o] else []) /\
  take (length (heap w)) (heap w') = heap w /\
  (truthy (field (options_of o) "advanced") = false ->
     annotations (log w') = annotations (log w) /\
     exists fresh, heap w' = heap w ++ fresh /\ Forall constructed fresh) /\
  (reaches_fetch o = true -> forall e, fetch (request_of o) = Exn e ->
     r = Ret (reject (UnexpectedError e) (initial o))).

(** What the code after the request has to guarantee. *)
Definition tail_post (o : artist_op) (w1 : world)
    (r : res (promise entities)) (w' : world) : Prop :=
  (forall a, r = Ret a -> exists v, a = resolve v (initial o)) /\
  quiet (length (heap w1)) w1 w' /\
  (truthy (field (options_of o) "advanced") = false ->
     annotations (log w') = annotations (log w1) /\
     exists fresh, heap w' = heap w1 ++ fresh /\ Forall constructed fresh).

Lemma tail_post_exn o w e : tail_post o w (Exn e) w.
Proof.
  split; [discriminate|]. split; [apply quiet_refl|].
  intros _. split; auto. exists []. now rewrite app_nil_r.
Qed.

Lemma early_exit o w e :
  reaches_fetch o = false ->
  call_post o w (Ret (reject (UnexpectedError e) (initial o))) w.
Proof.
  intros Hr. unfold call_post. rewrite Hr, app_nil_r, take_ge by lia.
  repeat split; eauto.
  - exists []. now rewrite app_nil_r.
  - discriminate.
Qed.

(** The post-condition of the body of the [try], as [sat_try] asks for it. *)
Definition try_post (o : artist_op) (w : world)
    (r : res (promise entities)) (w1 : world) : Prop :=
  match r with
  | Ret a => call_post o w (Ret a) w1
  | Exn e => sat (on_error (initial o) e) w1 (call_post o w)
  end.

Lemma request_then o w req (k : value -> M (promise entities)) :
  reaches_fetch o = true ->
  req = request_of o ->
  (forall res w1, sat (k res) w1 (tail_post o w1)) ->
  sat (bind (do_fetch req) k) w (try_post o w).
Proof.
  intros Hr -> Hk. apply sat_bind. unfold sat at 1, do_fetch. cbn [fst snd].
  set (w1 := World (heap w) (log w ++ [EvFetch (request_of o)])).
  assert (Hlog : fetches (log w1) = fetches (log w) ++ [request_of o]).
  { cbn. now rewrite fetches_app. }
  destruct (fetch (request_of o)) as [res|e] eqn:Hfetch.
  - eapply sat_mono; [apply Hk|]. intros r w' (Hend & [Ht Hl Hf] & Hplain).
    subst w1. cbn [heap log] in *.
    assert (Hcommon :
      fetches (log w') = fetches (log w) ++ [request_of o] /\
      take (length (heap w)) (heap w') = heap w /\
      (truthy (field (options_of o) "advanced") = false ->
         annotations (log w') = annotations (log w) /\
         exists fresh, heap w' = heap w ++ fresh /\ Forall constructed fresh)).
    { split; [congruence|]. split; [now rewrite Ht, take_ge|].
      intros Hadv. destruct (Hplain Hadv) as (Hw & fresh & Hh & Hc).
      split; [|eauto]. rewrite Hw. cbn. rewrite annotations_app. cbn.
      now rewrite app_nil_r. }
    destruct Hcommon as (C1 & C2 & C3).
    destruct r as [a|e]; unfold try_post, call_post; rewrite Hr.
    + destruct (Hend a eq_refl) as (v & ->).
      split; [left; eauto|]. split; [exact C1|]. split; [exact C2|].
      split; [exact C3|]. intros _ e He. congruence.
    + apply sat_ret.
      split; [right; eauto|]. split; [exact C1|]. split; [exact C2|].
      split; [exact C3|]. intros _ e' He. congruence.
  - apply sat_ret. unfold call_post. rewrite Hr.
    split; [eauto|]. split; [exact Hlog|]. split; [cbn; now rewrite take_ge|].
    split.
    + intros _. cbn. rewrite annotations_app. cbn. rewrite app_nil_r.
      split; auto. exists []. now rewrite app_nil_r.
    + intros _ e' He. congruence.
Qed.

Lemma early_exit_try o w e :
  reaches_fetch o = false -> try_post o w (Exn e) w.
Proof. intros Hr. apply sat_ret. now apply early_exit. Qed.

Lemma built_tail C o w r w' :
  (forall v, constructed (C v)) ->
  built C (options_of o) (initial o) w r w' -> tail_post o w r w'.
Proof.
  intros HC (H1 & H2 & H3). split; [|split; [exact H2|]].
  - intros a Ha. destruct (H1 a Ha) as (items & ->). eauto.
  - intros Hadv. destruct (H3 Hadv) as (Hw & xs & Hh). split; [exact Hw|].
    exists (map C xs). split; [exact Hh|].
    apply Forall_fmap, Forall_forall. intros x _. apply HC.
Qed.

Lemma constructed_ArtistStructure v : constructed (ArtistStructure v).
Proof. exists v. auto. Qed.

Lemma constructed_SimplifiedAlbum v : constructed (SimplifiedAlbum v).
Proof. exists v. auto. Qed.

Lemma constructed_Track v : constructed (Track v).
Proof. exists v. auto. Qed.

Ltac lift_step :=
  apply sat_bind, sat_lift; cbn [member default_arg]; cbn beta iota.

Lemma build_list_tail C o arr w1 :
  (forall v, constructed (C v)) ->
  sat (build_list C (options_of o) arr (initial o)) w1 (tail_post o w1).
Proof.
  intros HC. eapply sat_mono; [apply build_list_spec|].
  intros r w'. now apply built_tail.
Qed.

Ltac finish_list :=
  lazymatch goal with
  | |- sat (build_list ?C _ _ _) _ (tail_post ?o _) =>
      apply (build_list_tail C o);
      first [ apply constructed_ArtistStructure
            | apply constructed_SimplifiedAlbum
            | apply constructed_Track ]
  end.

Lemma search_spec q options w :
  sat (search q options) w (call_post (ASearch q options) w).
Proof.
  unfold search. apply sat_try.
  change (check_param q "missing query") with (initial (ASearch q options)).
  change (default_arg (VObj [("limit", VNum 20)]) options)
    with (options_of (ASearch q options)).
  fold (try_post (ASearch q options) w).
  apply sat_bind, sat_lift.
  destruct (encodeURIComponent q) as [q'|e] eqn:Henc.
  2:{ apply early_exit_try. cbn. now rewrite Henc. }
  destruct options; cbn [options_of default_arg]; lift_step;
    try (apply early_exit_try; cbn; now rewrite Henc);
    lift_step;
    (apply request_then;
     [ cbn; now rewrite Henc
     | unfold request_of, encoded, field; cbn; now rewrite Henc
     | intros res w1; lift_step;
       (destruct (member res "artists") as [artists|e1]; [|apply tail_post_exn]);
       lift_step;
       (destruct (member artists "items") as [arr|e1]; [|apply tail_post_exn]);
       finish_list ]).
Qed.

Lemma getAlbums_spec id options w :
  sat (getAlbums id options) w (call_post (AGetAlbums id options) w).
Proof.
  unfold getAlbums. apply sat_try.
  change (check_param id "missing id") with (initial (AGetAlbums id options)).
  fold (try_post (AGetAlbums id options) w).
  destruct options; cbn [default_arg]; lift_step;
    try (apply early_exit_try; reflexivity);
    lift_step;
    (apply request_then;
     [ reflexivity
     | reflexivity
     | intros res w1; lift_step;
       (destruct (member res "items") as [arr|e1]; [|apply tail_post_exn]);
       finish_list ]).
Qed.

Lemma topTracks_spec id options w :
  sat (topTracks id options) w (call_post (ATopTracks id options) w).
Proof.
  unfold topTracks. apply sat_try.
  change (check_param id "missing id") with (initial (ATopTracks id options)).
  fold (try_post (ATopTracks id options) w).
  destruct options; cbn [default_arg]; lift_step;
    try (apply early_exit_try; reflexivity);
    (apply request_then;
     [ reflexivity
     | reflexivity
     | intros res w1; lift_step;
       (destruct (member res "tracks") as [arr|e1]; [|apply tail_post_exn]);
       finish_list ]).
Qed.

Lemma relatedArtists_spec id options w :
  sat (relatedArtists id options) w (call_post (ARelatedArtists id options) w).
Proof.
  unfold relatedArtists. apply sat_try.
  change (check_param id "missing id") with (initial (ARelatedArtists id options)).
  fold (try_post (ARelatedArtists id options) w).
  apply request_then; [reflexivity|reflexivity|].
  intros res w1. lift_step.
  destruct (member res "artists") as [arr|e1]; [|apply tail_post_exn].
  change (default_arg (VObj []) options)
    with (options_of (ARelatedArtists id options)).
  finish_list.
Qed.

Lemma get_spec id options w :
  sat (get id options) w (call_post (AGet id options) w).
Proof.
  unfold get. apply sat_try.
  change (check_param id "missing id") with (initial (AGet id options)).
  change (default_arg (VObj []) options) with (options_of (AGet id options)).
  fold (try_post (AGet id options) w).
  apply request_then; [reflexivity|reflexivity|].
  intros res w1. apply sat_bind. unfold sat at 1, new_object. cbn [fst snd].
  set (w2 := World (heap w1 ++ [ArtistStructure res]) (log w1)).
  assert (H12 : quiet (length (heap w1)) w1 w2) by apply quiet_alloc.
  assert (Hplain : annotations (log w2) = annotations (log w1) /\
            exists fresh, heap w2 = heap w1 ++ fresh /\ Forall constructed fresh).
  { split; [reflexivity|]. exists [ArtistStructure res]. split; [reflexivity|].
    apply Forall_singleton, constructed_ArtistStructure. }
  apply sat_bind, sat_lift.
  destruct (member (options_of (AGet id options)) "advanced") as [adv|e] eqn:Hadv.
  2:{ split; [discriminate|]. split; [exact H12|]. intros _. exact Hplain. }
  assert (Hf : field (options_of (AGet id options)) "advanced" = adv)
    by (unfold field; now rewrite Hadv).
  apply sat_bind. destruct (truthy adv) eqn:Ht.
  - eapply sat_mono.
    { apply (annotate_quiet (length (heap w1))). lia. }
    intros r3 w3 H3. cbn beta.
    assert (H13 : quiet (length (heap w1)) w1 w3) by (eapply quiet_trans; eassumption).
    destruct r3 as [[]|e].
    + apply sat_ret. split; [intros a [= <-]; eauto|]. split; [exact H13|].
      rewrite Hf, Ht. discriminate.
    + split; [discriminate|]. split; [exact H13|]. rewrite Hf, Ht. discriminate.
  - apply sat_ret, sat_ret. split; [intros a [= <-]; eauto|].
    split; [exact H12|]. intros _. exact Hplain.
Qed.

Lemma call_spec o w : sat (call o) w (call_post o w).
Proof.
  destruct o; cbn [call].
  - apply search_spec.
  - apply get_spec.
  - apply getAlbums_spec.
  - apply topTracks_spec.
  - apply relatedArtists_spec.
Qed.

Lemma check_param_cases arg msg :
  (arg = "" /\ check_param arg msg = Some (Exn (MissingParamError msg))) \/
  (arg <> "" /\ check_param arg msg = None).
Proof. unfold check_param. destruct arg; cbn; [left|right]; split; auto; discriminate. Qed.

(** *** The entities a call hands back *)

(** What the statements under [options.advanced] compute for one entity:
    the [image] and [dominantColor] of the code image of its [uri]. *)
Definition uri_of (o : props) : value := default VUndefined (lookup_prop "uri" o).

Definition annotation (o : props) : res (value * value) :=
  match getCodeImage (uri_of o) with
  | Exn e => Exn e
  | Ret data =>
      match member data "image" with
      | Exn e => Exn e
      | Ret image => Ret (image, field data "dominantColor")
      end
  end.

Definition annotated (o : props) (ic : value * value) : props :=
  set_prop "dominantColor" (snd ic) (set_prop "codeImage" (fst ic) o).

Definition annotation_trace (r : ref) (o : props) : list event :=
  EvCodeImage (uri_of o)
    :: match annotation o with
       | Ret ic => [EvWrite r "codeImage" (fst ic);
                    EvWrite r "dominantColor" (snd ic)]
       | Exn _ => []
       end.

Lemma annotate_run r o w :
  heap w !! r = Some o ->
  annotate r w
  = (match annotation o with Ret _ => Ret tt | Exn e => Exn e end,
     World (match annotation o with
            | Ret ic => <[r := annotated o ic]> (heap w)
            | Exn _ => heap w
            end)
           (log w ++ annotation_trace r o)).
Proof.
  intros Hr. unfold annotate, annotation, annotation_trace, annotation.
  unfold bind at 1, read_prop at 1. rewrite Hr. fold (uri_of o).
  unfold bind at 1, do_getCodeImage at 1.
  destruct (getCodeImage (uri_of o)) as [data|e]; [|reflexivity].
  unfold bind at 1, lift at 1.
  destruct (member data "image") as [image|e] eqn:Himage; [|reflexivity].
  unfold bind at 1, write_prop at 1. cbn [heap log]. rewrite Hr.
  unfold bind at 1, lift at 1. rewrite (member_field _ _ _ "dominantColor" Himage).
  unfold write_prop. cbn [heap log fst snd].
  rewrite list_lookup_insert_eq by (now apply lookup_lt_Some in Hr).
  unfold annotated. cbn [fst snd].
  rewrite list_insert_insert_eq, <- !app_assoc. reflexivity.
Qed.

(** The loop over the entities allocated from reference [r] on: the
    entities afterwards, what was traced, and the error that stopped the
    loop, if any. *)
Fixpoint annotate_from (r : ref) (objs : list props)
  : list props * list event * option error :=
  match objs with
  | [] => ([], [], None)
  | o :: rest =>
      match annotation o with
      | Exn e => (o :: rest, annotation_trace r o, Some e)
      | Ret ic =>
          let '(rest', evs, st) := annotate_from (S r) rest in
          (annotated o ic :: rest', annotation_trace r o ++ evs, st)
      end
  end.

Lemma forM_annotate_run objs : forall pre w,
  heap w = pre ++ objs ->
  forM_ (seq (length pre) (length objs)) annotate w
  = (match snd (annotate_from (length pre) objs) with
     | None => Ret tt
     | Some e => Exn e
     end,
     World (pre ++ fst (fst (annotate_from (length pre) objs)))
           (log w ++ snd (fst (annotate_from (length pre) objs)))).
Proof.
  induction objs as [|o rest IH]; intros pre w Hw; cbn [length seq forM_ annotate_from].
  - unfold ret. cbn [fst snd]. rewrite app_nil_r in Hw.
    rewrite !app_nil_r, <- Hw. now destruct w.
  - assert (Hr : heap w !! length pre = Some o).
    { rewrite Hw, lookup_app_r by lia. now rewrite Nat.sub_diag. }
    unfold bind at 1. rewrite (annotate_run _ _ _ Hr).
    destruct (annotation o) as [ic|e] eqn:Hann.
    + set (w1 := World (<[length pre := annotated o ic]> (heap w))
                       (log w ++ annotation_trace (length pre) o)).
      assert (Hw1 : heap w1 = (pre ++ [annotated o ic]) ++ rest).
      { cbn. rewrite Hw, insert_app_r_alt, Nat.sub_diag by lia.
        now rewrite <- app_assoc. }
      specialize (IH (pre ++ [annotated o ic]) w1 Hw1).
      rewrite length_app in IH. cbn [length] in IH. rewrite Nat.add_1_r in IH.
      rewrite IH.
      destruct (annotate_from (S (length pre)) rest) as [[rest' evs] st].
      subst w1. cbn [fst snd log]. now rewrite <- !app_assoc.
    + cbn [fst snd]. now rewrite <- Hw.
Qed.

(** The class of the entities of a call, the payloads they are built
    from, and what the promise resolves with. *)
Definition constructor_of (o : artist_op) : value -> props :=
  match o with
  | ASearch _ _ | AGet _ _ | ARelatedArtists _ _ => ArtistStructure
  | AGetAlbums _ _ => SimplifiedAlbum
  | ATopTracks _ _ => Track
  end.

Definition then_array (r : res value) : res (list value) :=
  match r with
  | Ret arr => as_array arr
  | Exn e => Exn e
  end.

Definition payloads (o : artist_op) (resp : value) : res (list value) :=
  match o with
  | ASearch _ _ =>
      match member resp "artists" with
      | Ret artists => then_array (member artists "items")
      | Exn e => Exn e
      end
  | AGet _ _ => Ret [resp]
  | AGetAlbums _ _ => then_array (member resp "items")
  | ATopTracks _ _ => then_array (member resp "tracks")
  | ARelatedArtists _ _ => then_array (member resp "artists")
  end.

Definition result_of (o : artist_op) (first n : nat) : entities :=
  match o with
  | AGet _ _ => One first
  | _ => Many (seq first n)
  end.

(** What is left of the [try] block once the payloads are at hand. *)
Definition finish (o : artist_op) (xs : list value) (w1 : world)
  : res (promise entities) * world :=
  let first := length (heap w1) in
  let objs := map (constructor_of o) xs in
  let done := resolve (result_of o first (length xs)) (initial o) in
  let failed e := reject (UnexpectedError e) (initial o) in
  match member (options_of o) "advanced" with
  | Exn e => (Ret (failed e), World (heap w1 ++ objs) (log w1))
  | Ret advanced =>
      if truthy advanced then
        (Ret (match snd (annotate_from first objs) with
              | None => done
              | Some e => failed e
              end),
         World (heap w1 ++ fst (fst (annotate_from first objs)))
               (log w1 ++ snd (fst (annotate_from first objs))))
      else (Ret done, World (heap w1 ++ objs) (log w1))
  end.

(** A call that gets as far as the request, step by step. *)
Definition call_run (o : artist_op) (w : world)
  : res (promise entities) * world :=
  let w1 := World (heap w) (log w ++ [EvFetch (request_of o)]) in
  match fetch (request_of o) with
  | Exn e => (Ret (reject (UnexpectedError e) (initial o)), w1)
  | Ret resp =>
      match payloads o resp with
      | Exn e => (Ret (reject (UnexpectedError e) (initial o)), w1)
      | Ret xs => finish o xs w1
      end
  end.

Lemma build_list_finish o xs w1 :
  match o with AGet _ _ => False | _ => True end ->
  try_catch (build_list (constructor_of o) (options_of o) (VArr xs) (initial o))
            (on_error (initial o)) w1
  = finish o xs w1.
Proof.
  intros Ho. unfold try_catch, build_list, finish.
  unfold bind at 1, lift at 1. cbn [as_array].
  unfold bind at 1. rewrite mapM_new_object.
  unfold bind at 1, lift at 1.
  destruct (member (options_of o) "advanced") as [advanced|e]; [|reflexivity].
  assert (Hres : result_of o (length (heap w1)) (length xs)
                 = Many (seq (length (heap w1)) (length xs)))
    by (destruct o; [reflexivity|destruct Ho|reflexivity..]).
  rewrite Hres. unfold bind at 1.
  destruct (truthy advanced); [|reflexivity].
  rewrite <- (length_map (constructor_of o) xs).
  rewrite (forM_annotate_run _ (heap w1)) by reflexivity.
  destruct (annotate_from (length (heap w1)) (map (constructor_of o) xs))
    as [[objs' evs] [e|]]; reflexivity.
Qed.

Lemma try_lift_ret {A B} (a : A) (k : A -> M B) (h : error -> M B) (w : world) :
  try_catch (bind (lift (Ret a)) k) h w = try_catch (k a) h w.
Proof. reflexivity. Qed.

Lemma try_lift_exn {A B} (e : error) (k : A -> M B) (h : error -> M B) (w : world) :
  try_catch (bind (lift (Exn e)) k) h w = h e w.
Proof. reflexivity. Qed.

Lemma try_fetch {B} req (k : value -> M B) (h : error -> M B) (w : world) :
  try_catch (bind (do_fetch req) k) h w
  = match fetch req with
    | Ret resp => try_catch (k resp) h (World (heap w) (log w ++ [EvFetch req]))
    | Exn e => h e (World (heap w) (log w ++ [EvFetch req]))
    end.
Proof.
  unfold try_catch, bind, do_fetch. now destruct (fetch req).
Qed.

Lemma build_list_payload o arr w1 :
  match o with AGet _ _ => False | _ => True end ->
  try_catch (build_list (constructor_of o) (options_of o) arr (initial o))
            (on_error (initial o)) w1
  = match as_array arr with
    | Ret xs => finish o xs w1
    | Exn e => (Ret (reject (UnexpectedError e) (initial o)), w1)
    end.
Proof.
  intros Ho. destruct arr; try reflexivity.
  cbn [as_array]. now apply build_list_finish.
Qed.

Lemma get_finish id options resp w1 :
  try_catch
    (data <- new_object (ArtistStructure resp) ;;
     advanced <- lift (member (options_of (AGet id options)) "advanced") ;;
     (if truthy advanced then annotate data else ret tt) ;;;
     ret (resolve (One data) (initial (AGet id options))))
    (on_error (initial (AGet id options))) w1
  = finish (AGet id options) [resp] w1.
Proof.
  unfold try_catch, finish. unfold bind at 1, new_object at 1.
  unfold bind at 1, lift at 1. cbn [map constructor_of length result_of].
  destruct (member (options_of (AGet id options)) "advanced") as [advanced|e];
    [|reflexivity].
  unfold bind at 1. destruct (truthy advanced); [|reflexivity].
  rewrite (annotate_run _ (ArtistStructure resp)).
  2:{ cbn [heap]. rewrite lookup_app_r by lia. now rewrite Nat.sub_diag. }
  cbn [annotate_from heap log].
  destruct (annotation (ArtistStructure resp)) as [ic|e]; cbn [fst snd].
  - rewrite insert_app_r_alt, Nat.sub_diag, app_nil_r by lia. reflexivity.
  - reflexivity.
Qed.

Ltac close_list :=
  lazymatch goal with
  | |- _ = ?rhs =>
      lazymatch rhs with
      | context [finish ?o] => apply (build_list_payload o); exact I
      end
  end.

Lemma call_eq o w : reaches_fetch o = true -> call o w = call_run o w.
Proof.
  intros Hr. unfold call_run. destruct o as [q options|id options|id options|id options|id options];
    cbn [call].
  - unfold search.
    change (check_param q "missing query") with (initial (ASearch q options)).
    change (default_arg (VObj [("limit", VNum 20)]) options)
      with (options_of (ASearch q options)).
    unfold request_of, encoded. cbn [reaches_fetch] in Hr.
    destruct (encodeURIComponent q) as [q'|e]; [|discriminate].
    rewrite try_lift_ret.
    destruct options; try discriminate; cbn [options_of default_arg member field];
      rewrite !try_lift_ret, try_fetch;
      (destruct (fetch _) as [resp|e]; [|reflexivity]);
      cbn [payloads];
      (destruct (member resp "artists") as [artists|e];
         [rewrite try_lift_ret|reflexivity]);
      (destruct (member artists "items") as [arr|e];
         [rewrite try_lift_ret|reflexivity]);
      cbn [then_array];
      close_list.
  - unfold get.
    change (check_param id "missing id") with (initial (AGet id options)).
    change (default_arg (VObj []) options) with (options_of (AGet id options)).
    rewrite try_fetch. cbn [request_of payloads].
    destruct (fetch _) as [resp|e]; [|reflexivity].
    apply get_finish.
  - unfold getAlbums.
    change (check_param id "missing id") with (initial (AGetAlbums id options)).
    change (default_arg (VObj [("limit", VNum 20)]) options)
      with (options_of (AGetAlbums id options)).
    unfold request_of. cbn [reaches_fetch] in Hr.
    destruct options; try discriminate; cbn [options_of default_arg member field];
      rewrite !try_lift_ret, try_fetch;
      (destruct (fetch _) as [resp|e]; [|reflexivity]);
      cbn [payloads];
      (destruct (member resp "items") as [arr|e];
         [rewrite try_lift_ret|reflexivity]);
      cbn [then_array];
      close_list.
  - unfold topTracks.
    change (check_param id "missing id") with (initial (ATopTracks id options)).
    change (default_arg (VObj []) options) with (options_of (ATopTracks id options)).
    unfold request_of. cbn [reaches_fetch] in Hr.
    destruct options; try discriminate; cbn [options_of default_arg member field];
      rewrite !try_lift_ret, try_fetch;
      (destruct (fetch _) as [resp|e]; [|reflexivity]);
      cbn [payloads];
      (destruct (member resp "tracks") as [arr|e];
         [rewrite try_lift_ret|reflexivity]);
      cbn [then_array];
      close_list.
  - unfold relatedArtists.
    change (check_param id "missing id") with (initial (ARelatedArtists id options)).
    change (default_arg (VObj []) options)
      with (options_of (ARelatedArtists id options)).
    rewrite try_fetch. cbn [request_of payloads].
    destruct (fetch _) as [resp|e]; [|reflexivity].
    destruct (member resp "artists") as [arr|e];
      [rewrite try_lift_ret|reflexivity].
    cbn [then_array].
    close_list.
Qed.

(** The calls of [getCodeImage] in a trace, by their argument. *)
Definition code_images (l : list event) : list value :=
  omap (fun ev => match ev with EvCodeImage uri => Some uri | _ => None end) l.

Lemma code_images_app l1 l2 :
  code_images (l1 ++ l2) = code_images l1 ++ code_images l2.
Proof. unfold code_images. apply omap_app. Qed.

Lemma code_images_annotation r o :
  code_images (annotation_trace r o) = [uri_of o].
Proof. unfold annotation_trace. now destruct (annotation o). Qed.

(** An entity after the statements under [options.advanced] went through. *)
Definition annotate_ok (o : props) : props :=
  match annotation o with
  | Ret ic => annotated o ic
  | Exn _ => o
  end.

Definition annotates (o : props) : Prop := exists ic, annotation o = Ret ic.

Lemma annotate_from_all objs : forall r,
  Forall annotates objs ->
  fst (fst (annotate_from r objs)) = map annotate_ok objs /\
  snd (annotate_from r objs) = None /\
  code_images (snd (fst (annotate_from r objs))) = map uri_of objs.
Proof.
  induction objs as [|o rest IH]; intros r Hall; cbn [annotate_from map].
  - now repeat split.
  - apply Forall_cons in Hall as [[ic Hic] Hall].
    pose proof (code_images_annotation r o) as Hci.
    unfold annotate_ok. rewrite Hic in *.
    destruct (IH (S r) Hall) as (H1 & H2 & H3).
    destruct (annotate_from (S r) rest) as [[rest' evs] st]. cbn [fst snd] in *.
    rewrite code_images_app, Hci, H1, H2, H3. now repeat split.
Qed.

Lemma annotate_from_stop objs1 : forall r o objs2 e,
  Forall annotates objs1 ->
  annotation o = Exn e ->
  fst (fst (annotate_from r (objs1 ++ o :: objs2)))
    = map annotate_ok objs1 ++ o :: objs2 /\
  snd (annotate_from r (objs1 ++ o :: objs2)) = Some e /\
  code_images (snd (fst (annotate_from r (objs1 ++ o :: objs2))))
    = map uri_of objs1 ++ [uri_of o].
Proof.
  induction objs1 as [|o1 rest IH]; intros r o objs2 e Hall He;
    cbn [annotate_from map app].
  - pose proof (code_images_annotation r o) as Hci.
    rewrite He in *. cbn [fst snd]. now repeat split.
  - apply Forall_cons in Hall as [[ic Hic] Hall].
    pose proof (code_images_annotation r o1) as Hci.
    unfold annotate_ok at 1. rewrite Hic in *.
    destruct (IH (S r) o objs2 e Hall He) as (H1 & H2 & H3).
    destruct (annotate_from (S r) (rest ++ o :: objs2)) as [[rest' evs] st].
    cbn [fst snd] in *.
    rewrite code_images_app, Hci, H1, H2, H3. now repeat split.
Qed.

Lemma options_member o k :
  is_null (options_of o) = false ->
  member (options_of o) k = Ret (field (options_of o) k).
Proof.
  unfold field. destruct o as [q v|id v|id v|id v|id v]; destruct v;
    cbn; intros; try discriminate; reflexivity.
Qed.

Lemma advanced_not_null o :
  truthy (field (options_of o) "advanced") = true ->
  is_null (options_of o) = false.
Proof.
  unfold field. destruct o as [q v|id v|id v|id v|id v]; destruct v;
    cbn; intros; try discriminate; reflexivity.
Qed.

Lemma initial_cases o :
  (required o = "" /\
   initial o = Some (Exn (MissingParamError (missing_message o)))) \/
  (required o <> "" /\ initial o = None).
Proof. apply check_param_cases. Qed.

(** *** The errors a call rejects with *)

(** A call that does not get as far as the request: nothing is sent,
    nothing changes, and the promise is rejected with what was thrown. *)
Lemma call_early o w :
  reaches_fetch o = false ->
  exists e,
    call o w = (Ret (reject (UnexpectedError e) (initial o)), w) /\
    match o with
    | ASearch q _ => encodeURIComponent q = Exn e \/ e = TypeError
    | _ => e = TypeError
    end.
Proof.
  intros Hr.
  destruct o as [q options|id options|id options|id options|id options];
    cbn [reaches_fetch] in Hr; try discriminate.
  - destruct (encodeURIComponent q) as [q'|e] eqn:Henc.
    + destruct options; try discriminate.
      exists TypeError. split; [|auto].
      cbn [call]. unfold search. now rewrite Henc.
    + exists e. split; [|auto].
      cbn [call]. unfold search. now rewrite Henc.
  - destruct options; try discriminate. now exists TypeError.
  - destruct options; try discriminate. now exists TypeError.
Qed.

(** What can be thrown inside the [try] of a call, and so be wrapped in
    an [UnexpectedError]: the reason the request was rejected with; the
    reason [getCodeImage] was rejected with for one of the entities built
    from the answer, under [options.advanced]; what [encodeURIComponent]
    threw on the query; or the [TypeError] of reading a property of
    [undefined] or [null] (a malformed answer, [null] options) or of
    calling [map] on something that is not an array. *)
Definition thrown_in_try (o : artist_op) (cause : error) : Prop :=
  (reaches_fetch o = true /\ fetch (request_of o) = Exn cause) \/
  (truthy (field (options_of o) "advanced") = true /\
   exists resp xs x,
     fetch (request_of o) = Ret resp /\ payloads o resp = Ret xs /\ In x xs /\
     getCodeImage (uri_of (constructor_of o x)) = Exn cause) \/
  match o with
  | ASearch q _ => encodeURIComponent q = Exn cause
  | _ => False
  end \/
  cause = TypeError.

Lemma member_error v k e : member v k = Exn e -> e = TypeError.
Proof. destruct v; cbn; intros H; now inversion H. Qed.

Lemma as_array_error v e : as_array v = Exn e -> e = TypeError.
Proof. destruct v; cbn; intros H; now inversion H. Qed.

Lemma then_array_error r e :
  (forall e', r = Exn e' -> e' = TypeError) ->
  then_array r = Exn e -> e = TypeError.
Proof.
  destruct r as [arr|e']; cbn; intros Hr H.
  - now apply as_array_error in H.
  - injection H as <-. now apply Hr.
Qed.

Lemma payloads_error o resp e : payloads o resp = Exn e -> e = TypeError.
Proof.
  destruct o; cbn [payloads]; try discriminate.
  - destruct (member resp "artists") as [artists|e'] eqn:Ha.
    + apply then_array_error. intros e'. apply member_error.
    + intros [= <-]. now apply member_error in Ha.
  - apply then_array_error. intros e'. apply member_error.
  - apply then_array_error. intros e'. apply member_error.
  - apply then_array_error. intros e'. apply member_error.
Qed.

Lemma annotation_error obj e :
  annotation obj = Exn e -> getCodeImage (uri_of obj) = Exn e \/ e = TypeError.
Proof.
  unfold annotation. destruct (getCodeImage (uri_of obj)) as [data|e'].
  - destruct (member data "image") eqn:Hm; [discriminate|].
    intros [= <-]. right. now apply member_error in Hm.
  - intros [= <-]. now left.
Qed.

Lemma annotate_from_error objs : forall r e,
  snd (annotate_from r objs) = Some e ->
  exists obj, In obj objs /\ annotation obj = Exn e.
Proof.
  induction objs as [|obj rest IH]; intros r e; cbn [annotate_from];
    [discriminate|].
  destruct (annotation obj) as [ic|e'] eqn:Hann.
  - specialize (IH (S r) e).
    destruct (annotate_from (S r) rest) as [[rest' evs] st]. cbn [snd] in *.
    intros H. destruct (IH H) as (obj' & Hin & Hobj').
    exists obj'. split; [now right|exact Hobj'].
  - cbn [snd]. intros [= <-]. exists obj. split; [now left|exact Hann].
Qed.

(** How the promise of a call ends, before the check of the required
    argument is taken into account. *)
Lemma call_outcome o w :
  (exists v, fst (call o w) = Ret (resolve v (initial o))) \/
  (exists cause,
     fst (call o w) = Ret (reject (UnexpectedError cause) (initial o)) /\
     thrown_in_try o cause).
Proof.
  destruct (reaches_fetch o) eqn:Hr.
  2:{ destruct (call_early o w Hr) as (e & Heq & Hwhy). right. exists e.
      rewrite Heq. split; [reflexivity|]. unfold thrown_in_try.
      destruct o; try (now right; right; right).
      destruct Hwhy as [Henc| ->]; [now right; right; left|now right; right; right]. }
  rewrite call_eq by assumption. unfold call_run.
  destruct (fetch (request_of o)) as [resp|e] eqn:Hfetch.
  2:{ right. exists e. split; [reflexivity|]. left. auto. }
  destruct (payloads o resp) as [xs|e] eqn:Hpay.
  2:{ right. exists e. split; [reflexivity|].
      apply payloads_error in Hpay. subst e. now right; right; right. }
  unfold finish.
  destruct (member (options_of o) "advanced") as [advanced|e] eqn:Hadv.
  2:{ right. exists e. split; [reflexivity|].
      apply member_error in Hadv. subst e. now right; right; right. }
  destruct (truthy advanced) eqn:Ht; [|left; eexists; reflexivity].
  destruct (snd (annotate_from (length (heap (World (heap w)
              (log w ++ [EvFetch (request_of o)]))))
              (map (constructor_of o) xs))) as [e|] eqn:Hloop;
    [|left; eexists; reflexivity].
  right. exists e. split; [reflexivity|].
  apply annotate_from_error in Hloop as (obj & Hin & Hobj).
  apply in_map_iff in Hin as (x & <- & Hx).
  apply annotation_error in Hobj as [Hcode| ->]; [|now right; right; right].
  right. left. split.
  - unfold field. now rewrite Hadv.
  - exists resp, xs, x. auto.
Qed.

(** C4, as the code has it.  The promise of a legacy [Artist] method
    always settles.  When it rejects, the reason is a [MissingParamError]
    exactly when the required query or id is empty (the first rejection
    stands, whatever happens afterwards); otherwise it is an
    [UnexpectedError] wrapping what was thrown inside the [try]: the
    reason the request was rejected with, the reason [getCodeImage] was
    rejected with for one of the entities, what [encodeURIComponent] threw,
    or a [TypeError] from reading the answer or the options.  When the
    request is rejected with [e] and the argument was given, the reason is
    [UnexpectedError e]. *)
Theorem artist_rejections (o : artist_op) (w : world) :
  (exists out,
     fst (call o w) = Ret (Some out) /\
     match out with
     | Ret _ => required o <> ""
     | Exn err =>
         (required o = "" /\ err = MissingParamError (missing_message o)) \/
         (required o <> "" /\
          exists cause, err = UnexpectedError cause /\ thrown_in_try o cause)
     end) /\
  (required o = "" ->
     fst (call o w) = Ret (Some (Exn (MissingParamError (missing_message o))))) /\
  (reaches_fetch o = true -> required o <> "" ->
     forall e, fetch (request_of o) = Exn e ->
     fst (call o w) = Ret (Some (Exn (UnexpectedError e)))).
Proof.
  pose proof (call_outcome o w) as Hout.
  destruct (initial_cases o) as [[Hreq Hp]|[Hreq Hp]]; rewrite Hp in Hout;
    cbn [resolve reject] in Hout.
  - assert (H : fst (call o w)
                = Ret (Some (Exn (MissingParamError (missing_message o)))))
      by (destruct Hout as [[v ->]|(e & -> & _)]; reflexivity).
    split; [|split; [auto|congruence]].
    eexists. split; [exact H|]. left. auto.
  - split; [|split; [congruence|]].
    + destruct Hout as [[v Hv]|(e & He & Hwhy)]; eexists;
        (split; [eassumption|]); cbn.
      * exact Hreq.
      * right. eauto.
    + intros Hr _ e Hfetch. rewrite call_eq by assumption.
      unfold call_run. now rewrite Hfetch, Hp.
Qed.

(** X9. A call without [options.advanced] whose request is answered
    makes exactly that one request, constructs one entity per payload of
    the answer, in upstream order, and resolves with them.  An empty query
    or id does not stop any of this: the request is sent and the entities
    are built, only the promise is already rejected with the
    [MissingParamError]. *)
Theorem artist_call_constructs (o : artist_op) (w : world) (resp : value)
    (xs : list value) :
  reaches_fetch o = true ->
  is_null (options_of o) = false ->
  truthy (field (options_of o) "advanced") = false ->
  fetch (request_of o) = Ret resp ->
  payloads o resp = Ret xs ->
  snd (call o w)
    = World (heap w ++ map (constructor_of o) xs)
            (log w ++ [EvFetch (request_of o)]) /\
  (required o <> "" ->
     fst (call o w)
     = Ret (Some (Ret (result_of o (length (heap w)) (length xs))))) /\
  (required o = "" ->
     fst (call o w)
     = Ret (Some (Exn (MissingParamError (missing_message o))))).
Proof.
  intros Hr Hnull Hadv Hfetch Hpay.
  rewrite call_eq by assumption. unfold call_run. rewrite Hfetch, Hpay.
  unfold finish. rewrite options_member by assumption. rewrite Hadv.
  cbn [fst snd heap log].
  split; [reflexivity|].
  destruct (initial_cases o) as [[Hreq ->]|[Hreq ->]]; cbn [resolve];
    split; intros; first [reflexivity | contradiction].
Qed.

(** X10. With [options.advanced], when [getCodeImage] answers for every
    entity, each entity ends up with the [codeImage] and [dominantColor]
    of the code image of its own [uri] on top of what the constructor gave
    it; [getCodeImage] is called once per entity, in order, and the
    promise resolves with the entities. *)
Theorem artist_call_annotates (o : artist_op) (w : world) (resp : value)
    (xs : list value) :
  reaches_fetch o = true ->
  truthy (field (options_of o) "advanced") = true ->
  fetch (request_of o) = Ret resp ->
  payloads o resp = Ret xs ->
  Forall (fun x => annotates (constructor_of o x)) xs ->
  let out := call o w in
  fst out = Ret (resolve (result_of o (length (heap w)) (length xs)) (initial o)) /\
  length (heap (snd out)) = length (heap w) + length xs /\
  (forall i x ic,
     xs !! i = Some x ->
     annotation (constructor_of o x) = Ret ic ->
     heap (snd out) !! (length (heap w) + i)
     = Some (set_prop "dominantColor" (snd ic)
               (set_prop "codeImage" (fst ic) (constructor_of o x)))) /\
  take (length (heap w)) (heap (snd out)) = heap w /\
  code_images (log (snd out))
    = code_images (log w) ++ map (fun x => uri_of (constructor_of o x)) xs.
Proof.
  intros Hr Hadv Hfetch Hpay Hall. cbv zeta.
  rewrite call_eq by assumption. unfold call_run. rewrite Hfetch, Hpay.
  unfold finish. rewrite options_member by (now apply advanced_not_null).
  rewrite Hadv. cbn [fst snd heap log].
  destruct (annotate_from_all (map (constructor_of o) xs) (length (heap w)))
    as (H1 & H2 & H3).
  { apply Forall_fmap. exact Hall. }
  rewrite H1, H2. split; [reflexivity|]. split.
  { now rewrite length_app, !length_map. }
  split; [|split].
  - intros i x ic Hx Hic. rewrite lookup_app_r by lia.
    replace (length (heap w) + i - length (heap w)) with i by lia.
    rewrite !list_lookup_fmap, Hx. cbn. unfold annotate_ok. now rewrite Hic.
  - apply take_app_length.
  - rewrite !code_images_app, H3. cbn. now rewrite app_nil_r, map_map.
Qed.

(** X11. With [options.advanced], the first entity whose code image
    cannot be had stops the loop: the promise rejects with the
    [UnexpectedError] of that failure, the entities before it keep their
    annotations, that entity and the ones after it stay as constructed,
    and [getCodeImage] is not called for the ones after it. *)
Theorem artist_call_stops (o : artist_op) (w : world) (resp : value)
    (xs1 : list value) (x : value) (xs2 : list value) (e : error) :
  reaches_fetch o = true ->
  truthy (field (options_of o) "advanced") = true ->
  fetch (request_of o) = Ret resp ->
  payloads o resp = Ret (xs1 ++ x :: xs2) ->
  Forall (fun x => annotates (constructor_of o x)) xs1 ->
  annotation (constructor_of o x) = Exn e ->
  let out := call o w in
  fst out = Ret (reject (UnexpectedError e) (initial o)) /\
  (required o <> "" -> fst out = Ret (Some (Exn (UnexpectedError e)))) /\
  heap (snd out)
    = heap w ++ map (fun x => annotate_ok (constructor_of o x)) xs1
        ++ map (constructor_of o) (x :: xs2) /\
  code_images (log (snd out))
    = code_images (log w)
      ++ map (fun x => uri_of (constructor_of o x)) (xs1 ++ [x]).
Proof.
  intros Hr Hadv Hfetch Hpay Hall He. cbv zeta.
  rewrite call_eq by assumption. unfold call_run. rewrite Hfetch, Hpay.
  unfold finish. rewrite options_member by (now apply advanced_not_null).
  rewrite Hadv. cbn [fst snd heap log].
  rewrite map_app. cbn [map].
  destruct (annotate_from_stop (map (constructor_of o) xs1) (length (heap w))
              (constructor_of o x) (map (constructor_of o) xs2) e)
    as (H1 & H2 & H3); [now apply Forall_fmap|assumption|].
  rewrite H1, H2. split; [reflexivity|]. split.
  { intros Hreq. destruct (initial_cases o) as [[? _]|[_ ->]]; [contradiction|].
    reflexivity. }
  split.
  - now rewrite map_map.
  - rewrite !code_images_app, H3. cbn. rewrite map_app. cbn.
    now rewrite app_nil_r, map_map.
Qed.


End Artist.

(** *** [Client.getByURI] *)

(** Whether [c] occurs in [s]. *)
Fixpoint occurs (c : ascii) (s : string) : bool :=
  match s with
  | EmptyString => false
  | String c' rest => Ascii.eqb c' c || occurs c rest
  end.

Lemma split_nonempty sep s : exists h t, JS.split sep s = h :: t.
Proof.
  induction s as [|c rest IH]; cbn [JS.split]; [eauto|].
  destruct (Ascii.eqb c sep); [eauto|].
  destruct IH as (h & t & ->). eauto.
Qed.

Lemma split_hd sep s :
  JS.split sep s = hd "" (JS.split sep s) :: tl (JS.split sep s).
Proof. destruct (split_nonempty sep s) as (h & t & ->). reflexivity. Qed.

(** A separator-free prefix followed by the separator is the first piece. *)
Lemma split_prefix sep p rest :
  occurs sep p = false ->
  JS.split sep (p +:+ String sep rest) = p :: JS.split sep rest.
Proof.
  induction p as [|c p IH]; cbn [occurs]; intros H.
  - change ("" +:+ String sep rest) with (String sep rest).
    cbn [JS.split]. now rewrite Ascii.eqb_refl.
  - apply orb_false_iff in H as [Hc Hp].
    change (String c p +:+ String sep rest) with (String c (p +:+ String sep rest)).
    cbn [JS.split]. rewrite Hc, IH by assumption. reflexivity.
Qed.

Lemma split_whole sep s : occurs sep s = false -> JS.split sep s = [s].
Proof.
  induction s as [|c s IH]; cbn [JS.split occurs]; intros H; [reflexivity|].
  apply orb_false_iff in H as [Hc Hs]. now rewrite Hc, IH.
Qed.

Section Dispatch.

(** [this.albums.get], [this.artists.get], [this.episodes.get] and
    [this.shows.get], as the client sees them. *)
Variable manager_get : manager -> value -> res value.

Definition call_get (m : manager) (id : value) : M value :=
  fun w => (manager_get m id, World (heap w) (log w ++ [EvGet m id])).

(** [case s:] of a [switch (v)]: strict equality with a string. *)
Definition switch_is (v : value) (s : string) : bool :=
  match v with
  | VStr s' => String.eqb s' s
  | _ => false
  end.

Definition unresolved_uri : error :=
  UnexpectedError (Thrown (VStr "We could not resolve your given uri!")).

Definition getByURI (uri : string) : M (promise value) :=
  let split := JS.split ":" uri in
  let id := index split 2 in
  let kind := index split 1 in
  try_catch
    (if switch_is kind "album" then
       v <- call_get Albums id ;; ret (resolve v None)
     else if switch_is kind "artist" then
       v <- call_get Artists id ;; ret (resolve v None)
     else if switch_is kind "episode" then
       v <- call_get Episodes id ;; ret (resolve v None)
     else if switch_is kind "show" then
       v <- call_get Shows id ;; ret (resolve v None)
     else if switch_is kind "track" then
       v <- call_get Shows id ;; ret (resolve v None)
     else if switch_is kind "user" then
       v <- call_get Shows id ;; ret (resolve v None)
     else ret (reject unresolved_uri None))
    (on_error None).

(** A rejection of the manager's [get] is caught and wrapped. *)
Definition wrapped (r : res value) : res value :=
  match r with
  | Ret v => Ret v
  | Exn e => Exn (UnexpectedError e)
  end.

(** The client after [m.get(id)] was called. *)
Definition got (w : world) (m : manager) (id : value) : world :=
  World (heap w) (log w ++ [EvGet m id]).

Lemma call_get_run m id w :
  try_catch (bind (call_get m id) (fun v => ret (resolve v None))) (on_error None) w
  = (Ret (Some (wrapped (manager_get m id))), got w m id).
Proof.
  unfold try_catch, bind, call_get, on_error, ret, got, wrapped.
  now destruct (manager_get m id).
Qed.

(** The kinds [getByURI] knows, with the manager each is sent to. *)
Definition routes : list (string * manager) :=
  [("album", Albums); ("artist", Artists); ("episode", Episodes);
   ("show", Shows); ("track", Shows); ("user", Shows)].

Lemma getByURI_known uri kind m w :
  In (kind, m) routes ->
  index (JS.split ":" uri) 1 = VStr kind ->
  getByURI uri w
  = (Ret (Some (wrapped (manager_get m (index (JS.split ":" uri) 2)))),
     got w m (index (JS.split ":" uri) 2)).
Proof.
  intros Hin Hkind. unfold getByURI. rewrite Hkind.
  cbn in Hin.
  destruct Hin as [H|[H|[H|[H|[H|[H|[]]]]]]]; injection H as <- <-;
    cbn [switch_is String.eqb Ascii.eqb Bool.eqb];
    apply call_get_run.
Qed.

Lemma getByURI_unknown uri w :
  forallb (fun km => negb (switch_is (index (JS.split ":" uri) 1) (fst km))) routes
    = true ->
  getByURI uri w = (Ret (Some (Exn unresolved_uri)), w).
Proof.
  intros H. unfold getByURI. cbn in H.
  repeat (apply andb_prop in H as [?%negb_true_iff H]).
  cbn [fst] in *.
  repeat match goal with Hk : switch_is _ _ = false |- _ => rewrite Hk; clear Hk end.
  reflexivity.
Qed.

Lemma split_uri kind id :
  occurs ":" kind = false ->
  JS.split ":" ("spotify:" +:+ kind +:+ ":" +:+ id)
  = "spotify" :: kind :: hd "" (JS.split ":" id) :: tl (JS.split ":" id).
Proof.
  intros Hk.
  change ("spotify:" +:+ kind +:+ ":" +:+ id)
    with ("spotify" +:+ String ":" (kind +:+ String ":" id)).
  rewrite split_prefix by reflexivity.
  rewrite split_prefix by assumption.
  now rewrite <- split_hd.
Qed.

Lemma getByURI_spotify kind m id w :
  In (kind, m) routes ->
  getByURI ("spotify:" +:+ kind +:+ ":" +:+ id) w
  = (Ret (Some (wrapped (manager_get m (VStr (hd "" (JS.split ":" id)))))),
     got w m (VStr (hd "" (JS.split ":" id)))).
Proof.
  intros Hin.
  assert (Hk : occurs ":" kind = false).
  { cbn in Hin.
    destruct Hin as [H|[H|[H|[H|[H|[H|[]]]]]]]; injection H as <- <-;
      reflexivity. }
  rewrite (getByURI_known _ kind m w Hin); rewrite split_uri by assumption;
    reflexivity.
Qed.

(** C8. A URI [spotify:track:<id>] or [spotify:user:<id>] is answered by
    calling [shows.get(id)], like a [spotify:show:<id>] one; album, artist
    and episode URIs go to their own manager; the promise resolves with
    what that [get] resolves with and rejects with an [UnexpectedError]
    around what it rejects with.  Here [<id>] is the third colon-separated
    piece of the URI (all of the rest when it holds no colon).  A URI whose
    second piece is none of the six kinds rejects with the
    [UnexpectedError] of an unresolved URI, and no manager is called. *)
Theorem getByURI_dispatch (id : string) (w : world) :
  let piece := VStr (hd "" (JS.split ":" id)) in
  let answer m := (Ret (Some (wrapped (manager_get m piece))), got w m piece) in
  getByURI ("spotify:track:" +:+ id) w = answer Shows /\
  getByURI ("spotify:user:" +:+ id) w = answer Shows /\
  getByURI ("spotify:show:" +:+ id) w = answer Shows /\
  getByURI ("spotify:album:" +:+ id) w = answer Albums /\
  getByURI ("spotify:artist:" +:+ id) w = answer Artists /\
  getByURI ("spotify:episode:" +:+ id) w = answer Episodes /\
  (occurs ":" id = false -> piece = VStr id) /\
  (forall uri,
     (forall kind m, In (kind, m) routes ->
        switch_is (index (JS.split ":" uri) 1) kind = false) ->
     getByURI uri w = (Ret (Some (Exn unresolved_uri)), w)).
Proof.
  cbv zeta. repeat split.
  - apply (getByURI_spotify "track" Shows). cbn. tauto.
  - apply (getByURI_spotify "user" Shows). cbn. tauto.
  - apply (getByURI_spotify "show" Shows). cbn. tauto.
  - apply (getByURI_spotify "album" Albums). cbn. tauto.
  - apply (getByURI_spotify "artist" Artists). cbn. tauto.
  - apply (getByURI_spotify "episode" Episodes). cbn. tauto.
  - intros H. now rewrite split_whole.
  - intros uri H. apply getByURI_unknown. unfold routes in *. cbn [forallb fst].
    rewrite !(H _ _) by (cbn; tauto). reflexivity.
Qed.

(** *** What [getByURI] looks at *)

Lemma getByURI_pieces uri uri' w :
  index (JS.split ":" uri) 1 = index (JS.split ":" uri') 1 ->
  index (JS.split ":" uri) 2 = index (JS.split ":" uri') 2 ->
  getByURI uri w = getByURI uri' w.
Proof. intros H1 H2. unfold getByURI. now rewrite H1, H2. Qed.

Lemma split_three scheme kind id :
  occurs ":" scheme = false -> occurs ":" kind = false ->
  JS.split ":" (scheme +:+ ":" +:+ kind +:+ ":" +:+ id)
  = scheme :: kind :: JS.split ":" id.
Proof.
  intros Hs Hk.
  change (scheme +:+ ":" +:+ kind +:+ ":" +:+ id)
    with (scheme +:+ String ":" (kind +:+ String ":" id)).
  now rewrite !split_prefix.
Qed.

Lemma split_two scheme kind :
  occurs ":" scheme = false -> occurs ":" kind = false ->
  JS.split ":" (scheme +:+ ":" +:+ kind) = [scheme; kind].
Proof.
  intros Hs Hk.
  change (scheme +:+ ":" +:+ kind) with (scheme +:+ String ":" kind).
  now rewrite split_prefix, split_whole.
Qed.

(** X12. [getByURI] only looks at the second and third colon-separated
    pieces of the URI: the scheme in front is never checked, whatever
    follows the third piece is dropped, and a URI of a known kind with no
    third piece still calls the manager, with [undefined] as the id. *)
Theorem getByURI_parsing (scheme kind id rest : string) (w : world) :
  occurs ":" scheme = false ->
  occurs ":" kind = false ->
  occurs ":" id = false ->
  getByURI (scheme +:+ ":" +:+ kind +:+ ":" +:+ id) w
    = getByURI ("spotify:" +:+ kind +:+ ":" +:+ id) w /\
  getByURI (scheme +:+ ":" +:+ kind +:+ ":" +:+ id +:+ ":" +:+ rest) w
    = getByURI ("spotify:" +:+ kind +:+ ":" +:+ id) w /\
  (forall m, In (kind, m) routes ->
     getByURI (scheme +:+ ":" +:+ kind) w
     = (Ret (Some (wrapped (manager_get m VUndefined))), got w m VUndefined)).
Proof.
  intros Hs Hk Hi.
  assert (Hspotify : JS.split ":" ("spotify:" +:+ kind +:+ ":" +:+ id)
                     = ["spotify"; kind; id]).
  { change ("spotify:" +:+ kind +:+ ":" +:+ id)
      with ("spotify" +:+ ":" +:+ kind +:+ ":" +:+ id).
    rewrite split_three by (reflexivity || assumption).
    now rewrite split_whole. }
  split; [|split].
  - apply getByURI_pieces; rewrite Hspotify, split_three, split_whole by assumption;
      reflexivity.
  - apply getByURI_pieces; rewrite Hspotify, split_three by assumption;
      change (id +:+ ":" +:+ rest) with (id +:+ String ":" rest);
      rewrite split_prefix by assumption; reflexivity.
  - intros m Hin.
    rewrite (getByURI_known _ kind m w Hin); rewrite split_two by assumption;
      reflexivity.
Qed.

(** X13. The promise of [getByURI] always settles; it never rejects with
    anything but an [UnexpectedError]; at most one manager is called and
    no entity object is touched. *)
Theorem getByURI_settles (uri : string) (w : world) :
  exists out calls,
    fst (getByURI uri w) = Ret (Some out) /\
    match out with
    | Ret _ => True
    | Exn e => exists cause, e = UnexpectedError cause
    end /\
    log (snd (getByURI uri w)) = log w ++ calls /\
    length calls <= 1 /\
    heap (snd (getByURI uri w)) = heap w.
Proof.
  unfold getByURI.
  repeat match goal with
         | |- context [if switch_is ?k ?s then _ else _] =>
             destruct (switch_is k s)
         end;
    try (rewrite call_get_run;
         match goal with
         | |- context [got w ?m ?id] =>
             exists (wrapped (manager_get m id)), [EvGet m id];
             repeat split; [|cbn; lia];
             unfold wrapped; destruct (manager_get m id); eauto
         end).
  exists (Exn unresolved_uri), []. cbn. rewrite app_nil_r.
  repeat split; [unfold unresolved_uri; eauto|lia].
Qed.

End Dispatch.

(** *** [Client]: constructor and [login] *)

Section Client.

(** [CacheManager] is not part of the sources. *)
Variable CacheManager : Type.
Variable CacheManager_new : string -> CacheManager.

(** The helper objects of a client, each standing for [new X(token)]: it
    is determined by the token it was built with. *)
Record helpers : Type := Helpers {
  utils : value; tracks : value; oauth : value; users : value;
  playlists : value; albums : value; artists : value; episodes : value;
  shows : value; browse : value; user : value
}.

Definition helpers_for (token : value) : helpers :=
  Helpers token token token token token token token token token token token.

Record Client : Type := MkClient {
  token : value;
  startedAt : Z;
  cacheOptions : value;
  parts : helpers;
  cache_tracks : CacheManager
}.

(** [new Client(oauth, cacheOptions)] at time [now]. *)
Definition constructor (now : Z) (oauth cacheOptions : value) : Client :=
  let token := or_else oauth (VStr "NO TOKEN") in
  MkClient token now
           (default_arg (VObj [("cacheTracks", VBool false)]) cacheOptions)
           (helpers_for token)
           (CacheManager_new "id").

(** [client.login(token)] at time [now]. *)
Definition login (now : Z) (tok : value) (c : Client) : res Client :=
  if truthy tok
  then Ret (MkClient tok now (cacheOptions c) (helpers_for tok) (cache_tracks c))
  else Exn (MissingParamError "missing token").

(** The client after a call of [login], which throws before touching it
    when the token is missing. *)
Definition after_login (now : Z) (tok : value) (c : Client) : Client :=
  match login now tok c with
  | Ret c' => c'
  | Exn _ => c
  end.

Lemma after_login_cache now tok c :
  cache_tracks (after_login now tok c) = cache_tracks c.
Proof. unfold after_login, login. now destruct (truthy tok). Qed.

(** *** The client across logins *)

(** A series of calls of [login], each with its time and its token. *)
Definition after_logins (c : Client) (ls : list (Z * value)) : Client :=
  fold_left (fun c l => after_login (fst l) (snd l) c) ls c.

Record consistent (c0 c : Client) : Prop := {
  con_token : truthy (token c) = true;
  con_parts : parts c = helpers_for (token c);
  con_cache : cache_tracks c = cache_tracks c0;
  con_options : cacheOptions c = cacheOptions c0
}.

Lemma consistent_login c0 c now tok :
  consistent c0 c -> consistent c0 (after_login now tok c).
Proof.
  intros [H1 H2 H3 H4]. unfold after_login, login.
  destruct (truthy tok) eqn:Ht; split; cbn; auto.
Qed.

(** X14. However a client is constructed and whatever series of [login]
    calls follows, failed ones included: its token is truthy (['NO TOKEN']
    when it was built without one), every helper object was built from the
    current token, and the cache and the cache options are the ones of the
    constructor. *)
Theorem client_stays_consistent (now : Z) (oauth options : value)
    (ls : list (Z * value)) :
  let c0 := constructor now oauth options in
  let c := after_logins c0 ls in
  truthy (token c) = true /\
  parts c = helpers_for (token c) /\
  cache_tracks c = CacheManager_new "id" /\
  cacheOptions c = default_arg (VObj [("cacheTracks", VBool false)]) options /\
  (truthy oauth = false -> token c0 = VStr "NO TOKEN").
Proof.
  cbv zeta.
  assert (H0 : consistent (constructor now oauth options)
                          (constructor now oauth options)).
  { split; auto. unfold constructor, or_else. cbn.
    now destruct (truthy oauth) eqn:Ho. }
  assert (H : consistent (constructor now oauth options)
                (after_logins (constructor now oauth options) ls)).
  { unfold after_logins. induction ls as [|l ls IH] using rev_ind; [exact H0|].
    rewrite fold_left_app. cbn [fold_left]. now apply consistent_login. }
  destruct H as [H1 H2 H3 H4]. repeat split; auto.
  intros Ho. unfold constructor, or_else. cbn. now rewrite Ho.
Qed.

End Client.
End Legacy.

(* ===================================================================== *)
(** ** The legacy client's own calls: [Client.search], [Client.request] *)
(* ===================================================================== *)

Module LegacyClient.
Import JS Eff Eff.Notations.

(** What a call does, in order: a call of [utils.fetch], an invocation of
    the caller's callback, an assignment to a property of the caller's
    options object. *)
Inductive step : Type :=
| Fetch (req : value)
| Callback (err : option error) (data : value)
| Assign (k : string) (v : value).

Definition fetched (l : list step) : list value :=
  omap (fun st => match st with Fetch r => Some r | _ => None end) l.

Definition callbacks (l : list step) : list (option error * value) :=
  omap (fun st => match st with Callback e d => Some (e, d) | _ => None end) l.

Definition assigned (l : list step) : list (string * value) :=
  omap (fun st => match st with Assign k v => Some (k, v) | _ => None end) l.

Abbreviation M := (@Eff.M (list step)).

Section Calls.

(** [Spotify.fetch] behind [this.utils], the builtin
    [encodeURIComponent], and the callback handed to [request]. *)
Variable fetch : value -> res value.
Variable encodeURIComponent : string -> res string.
Variable callback : option error -> value -> res value.

Definition trace (st : step) : M unit := fun l => (Ret tt, l ++ [st]).

Definition do_fetch (req : value) : M value :=
  trace (Fetch req) ;;; lift (fetch req).

(** [callback(err, data)] *)
Definition invoke (err : option error) (data : value) : M value :=
  trace (Callback err data) ;;; lift (callback err data).

(** The default of [options.type]. *)
Definition kinds : value :=
  VArr (map VStr ["track"; "album"; "artist"; "playlist"; "show"; "episode"]).

(** The [try] block of [search], with [options.type] as it stands after
    the default was put in. *)
Definition search_body (q : string) (options type : value)
    (p : Legacy.promise value) : M (Legacy.promise value) :=
  try_catch
    (q' <- lift (encodeURIComponent q) ;;
     joined <- lift (join_of type) ;;
     limit <- lift (member options "limit") ;;
     resp <- do_fetch
       (VObj [("link", VStr "v1/search");
              ("params",
               VObj [("q", VStr q'); ("type", VStr joined);
                     ("market", VStr "US");
                     ("limit", or_else limit (VNum 20))])]) ;;
     ret (Legacy.resolve resp p))
    (fun e => ret (Legacy.reject (UnexpectedError e) p)).

(** [client.search(q, options)].  The test of [options.type] and the
    assignment of its default stand outside the [try]: when they throw
    (reading a property of [null], creating one on a primitive), the
    executor stops and the promise stays as it is. *)
Definition search (q : string) (options : value) : M (Legacy.promise value) :=
  let options := default_arg (VObj []) options in
  let p : Legacy.promise value :=
    if truthy (VStr q) then None
    else Legacy.reject (MissingParamError "missing query") None in
  match member options "type" with
  | Exn _ => ret p
  | Ret type =>
      if truthy type then search_body q options type p
      else if is_object options then
        trace (Assign "type" kinds) ;;; search_body q options kinds p
      else ret p
  end.

(** [client.request(path, options, callback)]: the chain
    [fetch(..).then(x => callback(null, x)).catch(x => callback(x, null))];
    [Exn] is a rejection nobody handles. *)
Definition request (path options : value) : M value :=
  try_catch
    (x <- do_fetch (VObj (spread options [("link", path)])) ;;
     invoke None x)
    (fun e => invoke (Some e) VNull).

(** *** What [search] sends and how its promise ends *)

(** The request of [search] for given pieces. *)
Definition search_request (q' joined : string) (limit : value) : value :=
  VObj [("link", VStr "v1/search");
        ("params",
         VObj [("q", VStr q'); ("type", VStr joined); ("market", VStr "US");
               ("limit", if truthy limit then limit else VNum 20)])].

Lemma fetched_app l1 l2 : fetched (l1 ++ l2) = fetched l1 ++ fetched l2.
Proof. unfold fetched. apply omap_app. Qed.

Lemma callbacks_app l1 l2 : callbacks (l1 ++ l2) = callbacks l1 ++ callbacks l2.
Proof. unfold callbacks. apply omap_app. Qed.

Lemma assigned_app l1 l2 : assigned (l1 ++ l2) = assigned l1 ++ assigned l2.
Proof. unfold assigned. apply omap_app. Qed.

Lemma search_body_run q options type p l :
  search_body q options type p l
  = match encodeURIComponent q with
    | Exn e => (Ret (Legacy.reject (UnexpectedError e) p), l)
    | Ret q' =>
        match join_of type with
        | Exn e => (Ret (Legacy.reject (UnexpectedError e) p), l)
        | Ret joined =>
            match member options "limit" with
            | Exn e => (Ret (Legacy.reject (UnexpectedError e) p), l)
            | Ret limit =>
                (Ret (match fetch (search_request q' joined limit) with
                      | Ret resp => Legacy.resolve resp p
                      | Exn e => Legacy.reject (UnexpectedError e) p
                      end),
                 l ++ [Fetch (search_request q' joined limit)])
            end
        end
    end.
Proof.
  unfold search_body, try_catch, search_request, or_else.
  unfold bind at 1, lift at 1.
  destruct (encodeURIComponent q) as [q'|e]; [|reflexivity].
  unfold bind at 1, lift at 1.
  destruct (join_of type) as [joined|e]; [|reflexivity].
  unfold bind at 1, lift at 1.
  destruct (member options "limit") as [limit|e]; [|reflexivity].
  unfold bind, do_fetch, trace, lift, bind, ret. cbn.
  now destruct (fetch _).
Qed.

Lemma object_member v k : is_object v = true -> member v k = Ret (field v k).
Proof. unfold field. destruct v; cbn; intros; try discriminate; reflexivity. Qed.

(** X15. [Client.search] sends one request to [v1/search] with the
    encoded query and market ['US'].  When the options carry no [type], the
    six kinds are assigned to [options.type] on the caller's own object and
    sent joined by commas; a given array of kinds is sent joined, and
    nothing is assigned.  The [limit] is [options.limit || 20]: a missing
    limit and a limit of [0] both become [20]. *)
Theorem search_sends (q q' : string) (options : value) (l : list step) :
  let opts := default_arg (VObj []) options in
  let out := search q options l in
  encodeURIComponent q = Ret q' ->
  (is_object opts = true -> truthy (field opts "type") = false ->
     fetched (snd out)
       = fetched l
         ++ [search_request q' "track,album,artist,playlist,show,episode"
               (field opts "limit")] /\
     assigned (snd out) = assigned l ++ [("type", kinds)]) /\
  (forall names, field opts "type" = VArr (map VStr names) ->
     fetched (snd out)
       = fetched l ++ [search_request q' (join "," names) (field opts "limit")] /\
     assigned (snd out) = assigned l) /\
  (forall joined,
     search_request q' joined VUndefined = search_request q' joined (VNum 20) /\
     search_request q' joined (VNum 0) = search_request q' joined (VNum 20)).
Proof.
  cbv zeta. intros Henc. split; [|split].
  - intros Hobj Htype. unfold search.
    rewrite (object_member _ "type" Hobj), Htype.
    cbn [negb]. rewrite Hobj.
    unfold bind, trace. rewrite search_body_run, Henc.
    change (join_of kinds)
      with (Ret (A := string) "track,album,artist,playlist,show,episode").
    rewrite (object_member _ "limit" Hobj). cbn [snd].
    rewrite !fetched_app, !assigned_app. cbn. now rewrite !app_nil_r.
  - intros names Htype.
    assert (Hobj : is_object (default_arg (VObj []) options) = true).
    { unfold field in Htype.
      destruct (default_arg (VObj []) options); cbn in *; congruence. }
    unfold search. rewrite (object_member _ "type" Hobj), Htype.
    cbn [truthy]. rewrite search_body_run, Henc, join_of_strings.
    rewrite (object_member _ "limit" Hobj). cbn [snd].
    rewrite !fetched_app, !assigned_app. cbn. now rewrite !app_nil_r.
  - intros joined. split; reflexivity.
Qed.


(** *** [request] *)

Lemma request_fetched (path options : value) (l : list step) :
  fetched (snd (request path options l))
  = fetched l ++ [VObj (spread options [("link", path)])].
Proof.
  unfold request, try_catch, bind, do_fetch, invoke, trace, lift, bind.
  cbn [fst snd].
  destruct (fetch _) as [x|e]; [destruct (callback None x)|]; cbn [fst snd];
    try (destruct (callback (Some _) VNull); cbn [fst snd]);
    rewrite ?fetched_app, <- ?app_assoc; cbn; rewrite ?app_nil_r; reflexivity.
Qed.

(** X17. [Client.request] invokes the callback with [(null, answer)]
    when the request is answered and with [(error, null)] when it is
    rejected.  The callback runs a second time, with what it threw as the
    error, exactly when it throws on the answer; what it throws on an
    error is handled by nobody. *)
Theorem request_callbacks (path options : value) (l : list step) :
  let req := VObj (spread options [("link", path)]) in
  let out := request path options l in
  fetched (snd out) = fetched l ++ [req] /\
  (forall e, fetch req = Exn e ->
     callbacks (snd out) = callbacks l ++ [(Some e, VNull)] /\
     fst out = callback (Some e) VNull) /\
  (forall x v, fetch req = Ret x -> callback None x = Ret v ->
     callbacks (snd out) = callbacks l ++ [(None, x)] /\ fst out = Ret v) /\
  (forall x e, fetch req = Ret x -> callback None x = Exn e ->
     callbacks (snd out) = callbacks l ++ [(None, x); (Some e, VNull)] /\
     fst out = callback (Some e) VNull).
Proof.
  cbv zeta. unfold request, try_catch, bind, do_fetch, invoke, trace, lift, bind.
  cbn [fst snd]. repeat split; intros;
    repeat match goal with
           | H : fetch _ = _ |- _ => rewrite H; clear H
           | H : callback None _ = _ |- _ => rewrite H; clear H
           end; cbn [fst snd];
    try (destruct (fetch _) as [x|e]; [destruct (callback None x)|]; cbn [fst snd]);
    try (destruct (callback (Some _) VNull); cbn [fst snd]);
    rewrite ?fetched_app, ?callbacks_app, <- ?app_assoc; cbn;
    rewrite ?app_nil_r; reflexivity.
Qed.

(** X18. The request of [Client.request] is the options object with
    [link] put in front: every option is passed on as it is, and an option
    named [link] replaces the path. *)
Theorem request_link (path : value) (ps : props) (l : list step) :
  NoDup (keys ps) ->
  exists req,
    fetched (snd (request path (VObj ps) l)) = fetched l ++ [VObj req] /\
    lookup_prop "link" req = Some (default path (lookup_prop "link" ps)) /\
    (forall k, k <> "link" -> lookup_prop k req = lookup_prop k ps).
Proof.
  intros Hnd. exists (spread (VObj ps) [("link", path)]).
  split; [apply request_fetched|].
  unfold spread. cbn [own_props]. split.
  - rewrite Managers.spread_lookup by assumption.
    now destruct (lookup_prop "link" ps).
  - intros k Hk. rewrite Managers.spread_lookup by assumption.
    destruct (lookup_prop k ps); [reflexivity|]. cbn.
    destruct (String.eqb k "link") eqn:E; [|reflexivity].
    apply String.eqb_eq in E. contradiction.
Qed.

End Calls.
End LegacyClient.

(* ===================================================================== *)
(** ** The library as a whole *)
(* ===================================================================== *)

Module Library.
Import JS.

Section Library.

Variable Playlist : Type.
Variable Playlist_new : value -> res Playlist.
Variable Playlist_id : Playlist -> string.
Variable PlaylistTrackType : Type.
Variable PlaylistTrack : value -> PlaylistTrackType.
Variable handleError : error -> res value.
Variable fetch : Managers.request -> res value.
Variable UserClient :
  Managers.user_method -> list value ->
  @Eff.M (Managers.client Playlist) (Managers.jsret nat).

Variable spotify_fetch : value -> res value.
Variable getCodeImage : value -> res value.
Variable encodeURIComponent : string -> res string.
Variable ArtistStructure : value -> props.
Variable SimplifiedAlbum : value -> props.
Variable Track : value -> props.
Variable CacheManager : Type.

Local Abbreviation exec :=
  (Managers.exec Playlist Playlist_new Playlist_id PlaylistTrackType
     PlaylistTrack handleError fetch).
Local Abbreviation call :=
  (Legacy.call spotify_fetch getCodeImage encodeURIComponent ArtistStructure
     SimplifiedAlbum Track).
Local Abbreviation advanced a := (field (Legacy.options_of a) "advanced").

(** C3, as the code has it.  A call of a [PlaylistManager] method that
    talks to the upstream itself issues the one request [sent] lists, except
    that [get] issues none when [force] is off and the cache holds an entry
    under the id, [reorderItems] none when its options are [null], and
    [addItems] none when its items are not an array.  [follow], [unfollow],
    [follows], [create] and [edit] issue no request of their own: the call
    is the one call of the [UserClient] method, with the same arguments.  A
    call of a legacy [Artist] method issues one [fetch] as soon as the
    arguments of the request evaluate; without [options.advanced] it makes
    no other call. *)
Theorem requests_per_call (o : Managers.op) (f : Managers.forwarded)
    (c : Managers.client Playlist) (a : Legacy.artist_op) (w : Legacy.world) :
  let c' := exec o c in
  let w' := snd (call a w) in
  Managers.requests (Managers.log _ c')
    = Managers.requests (Managers.log _ c) ++ Managers.sent _ o c /\
  length (Managers.sent _ o c)
    = (if Managers.answered_locally _ o c then 0 else 1) /\
  Managers.forward Playlist UserClient f c
    = UserClient (fst (Managers.user_call f)) (snd (Managers.user_call f)) c /\
  Legacy.fetches (Legacy.log w')
    = Legacy.fetches (Legacy.log w)
      ++ (if Legacy.reaches_fetch encodeURIComponent a
          then [Legacy.request_of encodeURIComponent a] else []) /\
  (truthy (advanced a) = false ->
     Legacy.annotations (Legacy.log w') = Legacy.annotations (Legacy.log w)).
Proof.
  cbv zeta. split; [apply Managers.exec_requests|].
  split; [apply Managers.sent_length|].
  split; [apply Managers.forward_run|].
  destruct (Legacy.call_spec spotify_fetch getCodeImage encodeURIComponent
              ArtistStructure SimplifiedAlbum Track a w)
    as (_ & Hf & _ & Hplain & _).
  split; [exact Hf|]. intros Hadv. now destruct (Hplain Hadv).
Qed.

(** C6, as the code has it.  A [PlaylistManager] call leaves every
    existing [Playlist] object as it is: it only allocates objects that the
    constructor built from a payload, and a cache entry that changes points
    to an object the call has just allocated.  A legacy [Artist] call
    leaves the objects that existed before it as they are; without
    [options.advanced] it only allocates constructor outputs and assigns
    nothing. *)
Theorem entities_only_replaced (o : Managers.op) (c : Managers.client Playlist)
    (a : Legacy.artist_op) (w : Legacy.world) :
  let c' := exec o c in
  let w' := snd (call a w) in
  (exists fresh,
     Managers.heap _ c' = Managers.heap _ c ++ fresh /\
     Forall (fun p => exists payload, Playlist_new payload = Ret p) fresh) /\
  (forall k r, Managers.playlists _ c' !! k = Some r ->
     Managers.playlists _ c !! k = Some r \/
     (length (Managers.heap _ c) <= r < length (Managers.heap _ c'))) /\
  take (length (Legacy.heap w)) (Legacy.heap w') = Legacy.heap w /\
  (truthy (advanced a) = false ->
     Legacy.annotations (Legacy.log w') = Legacy.annotations (Legacy.log w) /\
     exists fresh,
       Legacy.heap w' = Legacy.heap w ++ fresh /\
       Forall (Legacy.constructed ArtistStructure SimplifiedAlbum Track) fresh).
Proof.
  cbv zeta.
  destruct (Managers.exec_grows Playlist Playlist_new Playlist_id
              PlaylistTrackType PlaylistTrack handleError fetch o c)
    as [_ Hheap _ Hfresh].
  destruct (Legacy.call_spec spotify_fetch getCodeImage encodeURIComponent
              ArtistStructure SimplifiedAlbum Track a w)
    as (_ & _ & Htake & Hplain & _).
  repeat split; auto; now destruct (Hplain H).
Qed.

(** C7. No operation removes a key from a cache map: after a call of a
    [PlaylistManager] method the keys of [cache.playlists] include those
    it had before, and [Client.login] leaves [cache.tracks] as it was.
    Nor is there a bound on the size: a forced [get] whose answer carries
    an id that is not yet a key adds one entry, whatever the size. *)
Theorem cache_never_shrinks (o : Managers.op) (c : Managers.client Playlist)
    (now : Z) (tok : value) (cl : Legacy.Client CacheManager) :
  dom (Managers.playlists _ c) ⊆ dom (Managers.playlists _ (exec o c)) /\
  Legacy.cache_tracks _ (Legacy.after_login _ now tok cl)
    = Legacy.cache_tracks _ cl /\
  (forall id market resp p,
     Managers.cachePlaylists _ c = true ->
     fetch (Managers.get_request id market) = Ret resp ->
     Playlist_new resp = Ret p ->
     Managers.playlists _ c !! Playlist_id p = None ->
     size (Managers.playlists _ (exec (Managers.Get id (Some true) market) c))
     = S (size (Managers.playlists _ c))).
Proof.
  split; [apply Managers.exec_grows|].
  split; [apply Legacy.after_login_cache|].
  intros id market resp p Hflag Hfetch Hp Hnew. cbn [Managers.exec].
  rewrite Managers.get_eq. unfold Managers.get_run. cbn [default].
  rewrite Hfetch. cbn [Managers.rbind]. rewrite Hp, Hflag. cbn.
  now apply map_size_insert_None.
Qed.

End Library.
End Library.

(* ===================================================================== *)
(** ** A concrete client, for running the embedding *)
(* ===================================================================== *)

Module Demo.
Import JS.

(** Modelled from the spec: [structures/Playlist] is not part of the
    sources.  "Entities are flat, immutable-after-construction value
    objects mirroring the upstream API's JSON shapes": a [Playlist] is its
    payload, and its [id] the payload's [id].  The constructor reads the
    fields of the payload, so it throws on [null] and [undefined]. *)
Definition Playlist : Type := value.
Definition Playlist_new (data : value) : res Playlist :=
  match member data "id" with
  | Ret _ => Ret data
  | Exn e => Exn e
  end.
Definition Playlist_id (p : Playlist) : string :=
  match field p "id" with
  | VStr s => s
  | _ => ""
  end.

(** Modelled from the spec: [Errors.handleError] is not part of the
    sources.  The handler "either resolves with a default empty/null value
    or propagates the error": this one always returns [null]. *)
Definition handleError (e : error) : res value := Ret VNull.

(** Modelled from the spec: the constructors of the legacy [structures/]
    are not part of the sources; an entity mirrors its payload. *)
Definition mirror (data : value) : props :=
  match data with
  | VObj ps => ps
  | _ => []
  end.

Abbreviation client := (Managers.client Playlist).
Abbreviation get := (Managers.get Playlist Playlist_new Playlist_id handleError).
Abbreviation search := (Managers.search Playlist Playlist_new Playlist_id handleError).
Abbreviation run := (Managers.run Playlist Playlist_new Playlist_id handleError).

(** An upstream that knows one playlist, and one that is down. *)
Definition playlist_p1 : value := VObj [("id", VStr "p1"); ("name", VStr "Mix")].

Definition upstream (r : Managers.request) : res value := Ret playlist_p1.

Definition down (r : Managers.request) : res value := Exn (Thrown (VStr "ECONNRESET")).

(** A client with caching on, after one [get('p1')]. *)
Definition warm : client := run true [Managers.CallGet upstream "p1" None None].

Example warm_cache : Managers.playlists _ warm !! "p1" = Some 0.
Proof. vm_compute. reflexivity. Qed.

(** C3 fails as stated: the second [get('p1')] on the same client is
    answered from the cache and sends no request at all. *)
Lemma cached_get_sends_nothing :
  get upstream "p1" None None warm = (Ret (Managers.Entity 0), warm) /\
  Managers.requests (Managers.log _ (snd (get upstream "p1" None None warm)))
    = Managers.requests (Managers.log _ warm) /\
  length (Managers.requests (Managers.log _ warm)) = 1.
Proof. vm_compute. repeat split. Qed.

(** The legacy upstream: a search that finds one artist, and the code
    image service. *)
Definition artist_a : value :=
  VObj [("id", VStr "a"); ("uri", VStr "spotify:artist:a")].

Definition spotify_fetch (req : value) : res value :=
  Ret (VObj [("artists", VObj [("items", VArr [artist_a])])]).

Definition getCodeImage (uri : value) : res value :=
  Ret (VObj [("image", VStr "code.jpg"); ("dominantColor", VStr "#1db954")]).

Definition encodeURIComponent (q : string) : res string := Ret q.

Abbreviation artist_search :=
  (Legacy.search spotify_fetch getCodeImage encodeURIComponent mirror).

(** C6 fails as stated: [artists.search(q, {advanced: true})] constructs
    the entity from its payload and then assigns [codeImage] and
    [dominantColor] on it. *)
Lemma advanced_search_mutates :
  let w' := snd (artist_search "alec" (VObj [("advanced", VBool true)])
                   (Legacy.World [] [])) in
  mirror artist_a = [("id", VStr "a"); ("uri", VStr "spotify:artist:a")] /\
  Legacy.heap w'
    = [[("id", VStr "a"); ("uri", VStr "spotify:artist:a");
        ("codeImage", VStr "code.jpg"); ("dominantColor", VStr "#1db954")]] /\
  Legacy.annotations (Legacy.log w')
    = [Legacy.EvCodeImage (VStr "spotify:artist:a");
       Legacy.EvWrite 0 "codeImage" (VStr "code.jpg");
       Legacy.EvWrite 0 "dominantColor" (VStr "#1db954")].
Proof. vm_compute. repeat split. Qed.

(** C1 at work: with the upstream down and a handler that returns [null],
    every method falls back to its default. *)
Lemma rejected_fetch_defaults_witness :
  fst (search down "lofi" VUndefined warm) = Ret Managers.empty_paging /\
  fst (get down "p2" None None warm) = Ret (Managers.Plain VNull).
Proof.
  pose proof (Managers.rejected_fetch_defaults Playlist Playlist_new Playlist_id
                value (fun x => x) handleError down
                (Thrown (VStr "ECONNRESET")) warm (fun _ => eq_refl))
    as ((Hsearch & _ & _ & _ & _ & _ & _ & _ & Hget) & _).
  split; [apply Hsearch|apply Hget; vm_compute; reflexivity].
Defined.

(** C5 at work on an answer with two items. *)
Definition search_answer : value :=
  VObj [("playlists",
         VObj [("limit", VNum 20); ("offset", VNum 0); ("total", VNum 2);
               ("items", VArr [playlist_p1; VObj [("id", VStr "p2")]])])].

Lemma search_request_and_paging_witness :
  fst (search (fun _ => Ret search_answer) "mix" (VObj [("limit", VNum 20)]) warm)
  = Ret (Managers.Paging (VNum 20) (VNum 0) (VNum 2) [1; 2]).
Proof.
  pose proof (Managers.search_request_and_paging Playlist Playlist_new Playlist_id
                value (fun x => x) handleError (fun _ => Ret search_answer) "mix"
                (VObj [("limit", VNum 20)]) warm)
    as (_ & _ & _ & _ & _ & H).
  refine (proj1 (H search_answer
                   (VObj [("limit", VNum 20); ("offset", VNum 0); ("total", VNum 2);
                          ("items", VArr [playlist_p1; VObj [("id", VStr "p2")]])])
                   [playlist_p1; VObj [("id", VStr "p2")]]
                   [playlist_p1; VObj [("id", VStr "p2")]]
                   eq_refl eq_refl eq_refl _)).
  repeat constructor.
Defined.

(** C7 at work: a forced [get] of a second playlist grows the cache. *)
Lemma cache_never_shrinks_witness :
  size (Managers.playlists _
          (snd (get (fun _ => Ret (VObj [("id", VStr "p2")])) "p2" (Some true) None warm)))
  = 2.
Proof.
  pose proof (Library.cache_never_shrinks Playlist Playlist_new Playlist_id
                value (fun x => x) handleError
                (fun _ => Ret (VObj [("id", VStr "p2")])) unit
                (Managers.GetImages "p2") warm 0%Z VNull
                (Legacy.MkClient unit VNull 0%Z VNull
                   (Legacy.helpers_for VNull) tt))
    as (_ & _ & H).
  exact (H "p2" None (VObj [("id", VStr "p2")]) (VObj [("id", VStr "p2")])
           eq_refl eq_refl eq_refl eq_refl).
Defined.

(** C2 fails as stated: upstream answers a search with ['p1'] followed by
    [null].  The constructor builds a second object with id ['p1'] and then
    throws on [null]; the handler takes over, and the cache still holds the
    first object under ['p1'] although a later one with that id exists. *)
Definition cut_answer : value :=
  VObj [("playlists",
         VObj [("limit", VNum 20); ("offset", VNum 0); ("total", VNum 2);
               ("items", VArr [playlist_p1; VNull])])].

Lemma failed_search_leaves_newer_object :
  let c := run true [Managers.CallGet upstream "p1" None None;
                     Managers.CallSearch (fun _ => Ret cut_answer) "mix" VUndefined] in
  Managers.playlists _ c !! "p1" = Some 0 /\
  Managers.heap _ c = [playlist_p1; playlist_p1] /\
  Playlist_id playlist_p1 = "p1" /\
  Managers.outcome Playlist Playlist_new Playlist_id handleError warm
    (Managers.CallSearch (fun _ => Ret cut_answer) "mix" VUndefined)
  = Ret Managers.empty_paging.
Proof. vm_compute. repeat split. Qed.

(** C2 at work: a later search answer replaces the entry of ['p1'] by the
    object constructed last, and adds ['p2']. *)
Example cache_after_search :
  let c := run true [Managers.CallGet upstream "p1" None None;
                     Managers.CallSearch (fun _ => Ret search_answer) "mix" VUndefined] in
  Managers.playlists _ c !! "p1" = Some 1 /\
  Managers.playlists _ c !! "p2" = Some 2 /\
  length (Managers.heap _ c) = 3.
Proof. vm_compute. repeat split. Qed.

(** C4 fails as stated: the request is answered, so the HTTP layer raises
    nothing, but the answer has no [artists]; reading [items] of
    [undefined] throws inside the [try], and the promise rejects with an
    [UnexpectedError] that wraps that [TypeError]. *)
Lemma malformed_answer_rejects :
  let answers (req : value) : res value := Ret (VObj []) in
  let out := Legacy.search answers getCodeImage encodeURIComponent mirror
               "alec" VUndefined (Legacy.World [] []) in
  fst out = Ret (Some (Exn (UnexpectedError TypeError))) /\
  Legacy.fetches (Legacy.log (snd out))
    = [VObj [("link", VStr "v1/search");
             ("params", VObj [("q", VStr "alec"); ("type", VStr "artist");
                              ("market", VStr "US"); ("limit", VNum 20)])]].
Proof. vm_compute. repeat split. Qed.

(** C4 at work: with an empty query the promise rejects with the
    [MissingParamError], and the request is sent all the same; with the
    upstream down it rejects with the wrapped reason. *)
Example empty_query_rejects :
  let out := artist_search "" VUndefined (Legacy.World [] []) in
  fst out = Ret (Some (Exn (MissingParamError "missing query"))) /\
  length (Legacy.fetches (Legacy.log (snd out))) = 1.
Proof. vm_compute. repeat split. Qed.

Lemma artist_rejections_witness :
  fst (Legacy.search (fun _ => Exn (Thrown (VStr "ECONNRESET"))) getCodeImage
         encodeURIComponent mirror "alec" VUndefined (Legacy.World [] []))
  = Ret (Some (Exn (UnexpectedError (Thrown (VStr "ECONNRESET"))))).
Proof.
  pose proof (Legacy.artist_rejections
                (fun _ => Exn (Thrown (VStr "ECONNRESET"))) getCodeImage
                encodeURIComponent mirror mirror mirror
                (Legacy.ASearch "alec" VUndefined) (Legacy.World [] []))
    as (_ & _ & H).
  refine (H eq_refl _ (Thrown (VStr "ECONNRESET")) eq_refl). discriminate.
Defined.

(** C8 at work: a track URI ends up at [shows.get]. *)
Example track_uri_goes_to_shows :
  Legacy.log
    (snd (Legacy.getByURI (fun _ id => Ret id) "spotify:track:6rqhFgbbKwnb9MLmUQDhG6"
            (Legacy.World [] [])))
  = [Legacy.EvGet Legacy.Shows (VStr "6rqhFgbbKwnb9MLmUQDhG6")].
Proof. vm_compute. reflexivity. Qed.

(** C9 at work: [rangeStart: 0] does not reach the body of the request. *)
Example range_start_zero :
  Managers.requests
    (Managers.log _
       (snd (Managers.reorderItems Playlist handleError upstream "p1"
               (VArr [VStr "spotify:track:t"])
               (VObj [("rangeStart", VNum 0); ("insertBefore", VNum 3)])
               (Managers.new_client Playlist true))))
  = [Managers.Request "/playlists/p1/tracks"
       (VObj [("method", VStr "PUT");
              ("headers", VObj [("Content-Type", VStr "application/json")]);
              ("body", VObj [("insert_before", VNum 3);
                             ("uris", VArr [VStr "spotify:track:t"])])])].
Proof. vm_compute. reflexivity. Qed.

(** Spreading an array or a string copies its indexed elements. *)
Example spread_of_array_and_string :
  spread (VArr [VNum 7]) [] = [("0", VNum 7)] /\
  spread (VStr "ab") [] = [("0", VStr "a"); ("1", VStr "b")] /\
  spread VNull [("q", VStr "x")] = [("q", VStr "x")].
Proof. vm_compute. repeat split. Qed.

(** [addItems] with items that are not an array never reaches the
    upstream: the handler's [null] is all that comes back. *)
Example addItems_without_array :
  Managers.addItems Playlist handleError upstream "p1" (VStr "spotify:track:t")
    VUndefined (Managers.new_client Playlist true)
  = (Ret (Managers.Plain VNull), Managers.new_client Playlist true).
Proof. vm_compute. reflexivity. Qed.

(** *** The further properties at work *)

Abbreviation fresh := (Managers.new_client Playlist true).
Abbreviation PM := (Managers.exec Playlist Playlist_new Playlist_id value (fun x => x) handleError).

(** With the upstream down, the playlist fetched before is still served. *)
Lemma get_then_get_witness :
  get down "p1" None None warm = (Ret (Managers.Entity 0), warm).
Proof.
  exact (proj1 (proj2 (proj2
    (Managers.get_then_get Playlist Playlist_new Playlist_id handleError
       upstream down "p1" None None None playlist_p1 playlist_p1 fresh
       eq_refl eq_refl eq_refl eq_refl eq_refl)))).
Defined.

(** Asked for ['p9'], upstream answers with ['p1']: ['p9'] stays unknown. *)
Lemma get_keyed_by_answer_witness :
  Managers.playlists _ (snd (get upstream "p9" None None fresh)) !! "p9" = None.
Proof.
  refine (proj1 (proj2
    (Managers.get_keyed_by_answer Playlist Playlist_new Playlist_id handleError
       upstream down "p9" None None None playlist_p1 playlist_p1 fresh
       eq_refl eq_refl eq_refl eq_refl _))).
  discriminate.
Defined.

Lemma search_then_get_witness :
  exists j y,
    [playlist_p1; VObj [("id", VStr "p2")]] !! j = Some y /\ 1 <= j /\
    Playlist_id y = Playlist_id (VObj [("id", VStr "p2")]) /\
    Managers.heap _ (snd (search (fun _ => Ret search_answer) "mix" VUndefined fresh))
      !! (0 + j) = Some y /\
    get down (Playlist_id (VObj [("id", VStr "p2")])) None None
        (snd (search (fun _ => Ret search_answer) "mix" VUndefined fresh))
    = (Ret (Managers.Entity (0 + j)),
       snd (search (fun _ => Ret search_answer) "mix" VUndefined fresh)).
Proof.
  refine (Managers.search_then_get Playlist Playlist_new Playlist_id handleError
            (fun _ => Ret search_answer) down "mix" VUndefined None search_answer
            (VObj [("limit", VNum 20); ("offset", VNum 0); ("total", VNum 2);
                   ("items", VArr [playlist_p1; VObj [("id", VStr "p2")]])])
            [playlist_p1; VObj [("id", VStr "p2")]]
            [playlist_p1; VObj [("id", VStr "p2")]] 1 (VObj [("id", VStr "p2")])
            fresh eq_refl eq_refl eq_refl eq_refl _ eq_refl).
  repeat constructor.
Defined.

Lemma get_without_caching_witness :
  Managers.playlists _
    (snd (get upstream "p1" None None (Managers.new_client Playlist false))) = ∅.
Proof.
  exact (proj1 (proj2
    (Managers.get_without_caching Playlist Playlist_new Playlist_id handleError
       upstream "p1" None (Managers.new_client Playlist false) eq_refl))).
Defined.

Lemma other_methods_leave_cache_witness :
  Managers.playlists _ (PM upstream (Managers.UploadImage "p1" "/9j/4AAQ") warm)
  = Managers.playlists _ warm.
Proof.
  exact (proj1
    (Managers.other_methods_leave_cache Playlist Playlist_new Playlist_id value
       (fun x => x) handleError upstream (Managers.UploadImage "p1" "/9j/4AAQ")
       warm eq_refl)).
Defined.

(** A handler that propagates: every rejection comes back wrapped. *)
Definition rethrow (e : error) : res value := Exn (UnexpectedError e).

Lemma handler_decides_witness :
  fst (Managers.getImages Playlist rethrow down "p1" warm)
  = Exn (UnexpectedError (Thrown (VStr "ECONNRESET"))).
Proof.
  exact (proj1 (proj2 (proj2 (proj2
    (Managers.handler_decides Playlist Playlist_new Playlist_id value
       (fun x => x) rethrow down (Thrown (VStr "ECONNRESET")) warm
       (fun _ => eq_refl) _ eq_refl I)))) "p1").
Defined.

(** Two artists; the code image service knows the first one only. *)
Definition artist_b : value :=
  VObj [("id", VStr "b"); ("uri", VStr "spotify:artist:b")].

Definition related_answer : value := VObj [("artists", VArr [artist_a; artist_b])].

Definition related_fetch (req : value) : res value := Ret related_answer.

Definition flaky_getCodeImage (uri : value) : res value :=
  match uri with
  | VStr "spotify:artist:a" => getCodeImage uri
  | _ => Exn (Thrown (VStr "404"))
  end.

Abbreviation related id options :=
  (Legacy.ARelatedArtists id options).

Lemma artist_call_constructs_witness :
  fst (Legacy.relatedArtists related_fetch getCodeImage mirror "a" VUndefined
         (Legacy.World [] []))
  = Ret (Some (Ret (Legacy.Many [0; 1]))).
Proof.
  refine (proj1 (proj2
    (Legacy.artist_call_constructs related_fetch getCodeImage encodeURIComponent
       mirror mirror mirror (related "a" VUndefined) (Legacy.World [] [])
       related_answer [artist_a; artist_b]
       eq_refl eq_refl eq_refl eq_refl eq_refl)) _).
  discriminate.
Defined.

Lemma artist_call_annotates_witness :
  Legacy.heap
    (snd (Legacy.relatedArtists related_fetch getCodeImage mirror "a"
            (VObj [("advanced", VBool true)]) (Legacy.World [] [])))
    !! (0 + 1)
  = Some (set_prop "dominantColor" (VStr "#1db954")
            (set_prop "codeImage" (VStr "code.jpg") (mirror artist_b))).
Proof.
  refine (proj1 (proj2 (proj2
    (Legacy.artist_call_annotates related_fetch getCodeImage encodeURIComponent
       mirror mirror mirror (related "a" (VObj [("advanced", VBool true)]))
       (Legacy.World [] []) related_answer [artist_a; artist_b]
       eq_refl eq_refl eq_refl eq_refl _)))
    1 artist_b (VStr "code.jpg", VStr "#1db954") eq_refl eq_refl).
  repeat constructor; eexists; reflexivity.
Defined.

Lemma artist_call_stops_witness :
  fst (Legacy.relatedArtists related_fetch flaky_getCodeImage mirror "a"
         (VObj [("advanced", VBool true)]) (Legacy.World [] []))
  = Ret (Some (Exn (UnexpectedError (Thrown (VStr "404"))))).
Proof.
  refine (proj1 (proj2
    (Legacy.artist_call_stops related_fetch flaky_getCodeImage encodeURIComponent
       mirror mirror mirror (related "a" (VObj [("advanced", VBool true)]))
       (Legacy.World [] []) related_answer [artist_a] artist_b []
       (Thrown (VStr "404")) eq_refl eq_refl eq_refl eq_refl _ eq_refl)) _).
  - repeat constructor; eexists; reflexivity.
  - discriminate.
Defined.

Lemma getByURI_parsing_witness :
  Legacy.getByURI (fun _ id => Ret id) "https:album:4aawyAB9vmqN3uQ7FjRGTy:extra"
    (Legacy.World [] [])
  = Legacy.getByURI (fun _ id => Ret id) "spotify:album:4aawyAB9vmqN3uQ7FjRGTy"
      (Legacy.World [] []).
Proof.
  exact (proj1 (proj2
    (Legacy.getByURI_parsing (fun _ id => Ret id) "https" "album"
       "4aawyAB9vmqN3uQ7FjRGTy" "extra" (Legacy.World [] [])
       eq_refl eq_refl eq_refl))).
Defined.

(** [client.search('lofi', {limit: 0})]: six kinds, and a limit of 20. *)
Lemma search_sends_witness :
  LegacyClient.fetched
    (snd (LegacyClient.search (fun _ => Ret VNull) encodeURIComponent "lofi"
            (VObj [("limit", VNum 0)]) []))
  = [VObj [("link", VStr "v1/search");
           ("params",
            VObj [("q", VStr "lofi");
                  ("type", VStr "track,album,artist,playlist,show,episode");
                  ("market", VStr "US"); ("limit", VNum 20)])]].
Proof.
  exact (proj1 (proj1
    (LegacyClient.search_sends (fun _ => Ret VNull) encodeURIComponent
       "lofi" "lofi" (VObj [("limit", VNum 0)]) [] eq_refl) eq_refl eq_refl)).
Defined.

(** [client.request('v1/me', {link: 'v1/browse'}, cb)] asks for
    ['v1/browse']. *)
Lemma request_link_witness :
  exists req,
    LegacyClient.fetched
      (snd (LegacyClient.request (fun _ => Ret VNull) (fun _ d => Ret d)
              (VStr "v1/me") (VObj [("link", VStr "v1/browse")]) []))
    = [] ++ [VObj req] /\
    lookup_prop "link" req = Some (VStr "v1/browse") /\
    (forall k, k <> "link" ->
       lookup_prop k req = lookup_prop k [("link", VStr "v1/browse")]).
Proof.
  refine (LegacyClient.request_link (fun _ => Ret VNull) (fun _ d => Ret d)
            (VStr "v1/me") [("link", VStr "v1/browse")] [] _).
  repeat constructor. cbn. set_solver.
Defined.



End Demo.
